(** * xsd_merge: the schema merger and the type-narrowing rewriter

    A shallow embedding of [xsd_merge.py] (class [XSDMerger], [main]) and
    [xsd_parse.py] ([process_xsd_file]) and the properties of both.

    Documents are lxml element trees.  An element has a [tag] in Clark
    notation (the string [{uri}local], or [local] alone when the element
    is in no namespace), an [attrib] mapping and its child elements in
    document order.  The trees hold element nodes.  For the merger,
    which walks over every child of a root and copies children through
    their serialization, the children of a root are kept with the text
    that follows each of them and with the processing instructions among
    them (its parser drops comments).  For the rewriter, whose queries
    select by name test, text, comments and processing instructions are
    out of reach, except for a query built from a type value that holds an
    apostrophe: what such a query selects is left to the XPath engine. *)

From Stdlib Require Import ZArith Ascii.
From stdpp Require Import base list strings gmap sets.

Set Warnings "-register-all,-clear-no-such-hyp".

(** ** Python string primitives *)

Module Py.

(** [s.startswith(pre)] *)
Definition startswith (s pre : string) : bool := String.prefix pre s.

(** [s.endswith(suf)] *)
Definition endswith (s suf : string) : bool :=
  let n := String.length s in
  let m := String.length suf in
  (m <=? n)%nat && String.eqb (String.substring (n - m) m s) suf.

(** Truthiness of a [str]: the empty string is falsy. *)
Definition truthy (s : string) : bool := negb (String.eqb s "").

Definition apostrophe : ascii := Ascii.ascii_of_nat 39.

(** Does [s] contain the character [apostrophe]? *)
Fixpoint has_apostrophe (s : string) : bool :=
  match s with
  | EmptyString => false
  | String c s' => Ascii.eqb c apostrophe || has_apostrophe s'
  end.

(** The characters that may follow the root element of a document as
    they stand: space, tab and line feed. *)
Definition is_blank (c : ascii) : bool :=
  let n := Ascii.nat_of_ascii c in
  (n =? 32)%nat || (n =? 9)%nat || (n =? 10)%nat.

(** Is [s] made of such characters only? *)
Fixpoint blank (s : string) : bool :=
  match s with
  | EmptyString => true
  | String c s' => is_blank c && blank s'
  end.

End Py.

(** ** Element trees *)

Module Xml.

Definition XSD : string := "http://www.w3.org/2001/XMLSchema".

(** The tag lxml reports for the element [local] of namespace [uri]. *)
Definition clark (uri local : string) : string := "{" +:+ uri +:+ "}" +:+ local.

Inductive node : Type :=
  Node { tag : string; attrib : gmap string string; children : list node }.

(** A node is addressed by the child indexes leading to it from the root;
    this is the identity of the lxml element object. *)
Definition path : Type := list nat.

(** [elem.get(k)] *)
Definition get_attr (n : node) (k : string) : option string := attrib n !! k.

(** [elem.get(k, default)] *)
Definition get_attr_default (n : node) (k default : string) : string :=
  match attrib n !! k with Some v => v | None => default end.

(** [elem.set(key, value)] *)
Definition set (key value : string) (n : node) : node :=
  Node (tag n) (<[key := value]> (attrib n)) (children n).

(** The element object at a path. *)
Fixpoint get (n : node) (p : path) : option node :=
  match p with
  | [] => Some n
  | i :: p' => children n !! i ≫= λ c, get c p'
  end.

(** An in-place change [f] of the element object at a path. *)
Fixpoint update (p : path) (f : node → node) (n : node) : node :=
  match p with
  | [] => f n
  | i :: p' => Node (tag n) (attrib n) (alter (update p' f) i (children n))
  end.

(** Every element of the tree, the root first, in document order. *)
Fixpoint paths (n : node) : list path :=
  match n with
  | Node _ _ cs =>
      [] :: (fix go (i : nat) (cs : list node) {struct cs} : list path :=
               match cs with
               | [] => []
               | c :: cs' => ((cons i <$> paths c) ++ go (S i) cs')%list
               end) 0 cs
  end.

Fixpoint paths_from (i : nat) (cs : list node) : list path :=
  match cs with
  | [] => []
  | c :: cs' => ((cons i <$> paths c) ++ paths_from (S i) cs')%list
  end.

Definition tag_at (root : node) (q : path) : option string := tag <$> get root q.
Definition attrib_at (root : node) (q : path) : option (gmap string string) :=
  attrib <$> get root q.

(** [elem.get(k)] for the element at [q]. *)
Definition attr_at (root : node) (q : path) (k : string) : option string :=
  get root q ≫= λ n, get_attr n k.

(** [q] is a descendant of [ctx], and not [ctx] itself. *)
Definition below (ctx q : path) : Prop := ctx `prefix_of` q ∧ ctx ≠ q.

#[global] Instance below_dec ctx q : Decision (below ctx q).
Proof. unfold below. apply _. Defined.

(** [ctx.xpath(".//t")] for a name test that selects the elements of tag
    [t]: the descendants of [ctx] with that tag, in document order. *)
Definition descendants (root : node) (ctx : path) (t : string) : list path :=
  filter (λ q, below ctx q ∧ tag_at root q = Some t) (paths root).

End Xml.

(** ** The schema merger ([xsd_merge.py]) *)

Module XsdMerge.
Import Xml.

(** How a call ends: it returns, the process exits through
    [sys.exit(code)], or an exception escapes: an [AttributeError]
    ([child.tag.endswith] on a processing instruction, whose [tag] is a
    function and no string, or [append] on a [merged_root] that is still
    [None]), or the [XMLSyntaxError] of [etree.fromstring]. *)
Inductive result (A : Type) : Type :=
| Ok (a : A)
| SysExit (code : Z)
| AttributeError
| XMLSyntaxError.
Arguments Ok {A} a.
Arguments SysExit {A} code.
Arguments AttributeError {A}.
Arguments XMLSyntaxError {A}.

(** The fields of an [XSDMerger] object that the methods read or write. *)
Record XSDMerger : Type := {
  merged_types : gset string;
  merged_elements : gset string;
  merged_root : option node;
  target_namespace : string
}.

(** [XSDMerger.__init__] *)
Definition __init__ : XSDMerger :=
  {| merged_types := ∅; merged_elements := ∅;
     merged_root := None; target_namespace := "" |}.

(** Methods thread the object and may end the process. *)
Definition M (A : Type) : Type := XSDMerger → result (A * XSDMerger).

#[global] Instance M_ret : MRet M := λ A a self, Ok (a, self).
#[global] Instance M_bind : MBind M := λ A B f c self,
  match c self with
  | Ok (a, self') => f a self'
  | SysExit code => SysExit code
  | AttributeError => AttributeError
  | XMLSyntaxError => XMLSyntaxError
  end.

Definition sys_exit {A} (code : Z) : M A := λ _, SysExit code.

(** [for x in l: body(x)] *)
Fixpoint for_each {A} (l : list A) (body : A → M unit) : M unit :=
  match l with
  | [] => mret tt
  | x :: l' => body x ≫= λ _, for_each l' body
  end.

(** What [for child in schema] yields: a child element, with the text
    that follows its end tag (its [tail]), or a processing instruction.
    The parser of [load_xsd] drops the comments. *)
Inductive item : Type :=
| Element (e : node) (tail : string)
| ProcessingInstruction (tail : string).

(** The root of a parsed file: its attributes ([root.attrib]), its
    namespace declarations ([root.nsmap], which lxml keeps apart from
    the attributes) and its children. *)
Record schema : Type := {
  root_attrib : gmap string string;
  root_nsmap : list (option string * string);
  root_items : list item
}.

(** The parse of each path: [None] when [etree.parse] raises. *)
Definition files : Type := string → option schema.

Section merger.
Context (fs : files).

(** [XSDMerger.load_xsd] *)
Definition load_xsd (file_path : string) : M schema :=
  match fs file_path with
  | Some root => mret root
  | None => sys_exit 1
  end.

(** [XSDMerger.initialize_merged_schema].  The new element is made by
    [etree.Element] from the tag alone, with no [nsmap] argument:
    [root.nsmap] is not read. *)
Definition initialize_merged_schema (root : schema) : M node := λ self,
  let self' :=
    {| merged_types := merged_types self;
       merged_elements := merged_elements self;
       merged_root := merged_root self;
       target_namespace :=
         match root_attrib root !! "targetNamespace" with Some v => v | None => "" end |} in
  let merged_schema := Node (clark XSD "schema") ∅ [] in
  let merged_schema :=
    foldl (λ m kv, set kv.1 kv.2 m) merged_schema (map_to_list (root_attrib root)) in
  Ok (merged_schema, self').

(** [XSDMerger.get_type_name] *)
Definition get_type_name (elem : node) : string := get_attr_default elem "name" "".

(** [self.merged_root.append(etree.fromstring(etree.tostring(child)))].
    [etree.tostring] writes the element and, after it, its tail;
    [etree.fromstring] parses that text as a document and raises an
    [XMLSyntaxError] unless what follows the element is blank.  The copy
    is a tree equal to [child], without the tail. *)
Definition append_copy (child : node) (tail : string) : M unit := λ self,
  match merged_root self with
  | Some r =>
      if Py.blank tail then
        Ok (tt, {| merged_types := merged_types self;
                   merged_elements := merged_elements self;
                   merged_root := Some (Node (tag r) (attrib r) (children r ++ [child])%list);
                   target_namespace := target_namespace self |})
      else XMLSyntaxError
  | None => AttributeError
  end.

Definition add_merged_element (name : string) : M unit := λ self,
  Ok (tt, {| merged_types := merged_types self;
             merged_elements := {[name]} ∪ merged_elements self;
             merged_root := merged_root self;
             target_namespace := target_namespace self |}).

Definition add_merged_type (name : string) : M unit := λ self,
  Ok (tt, {| merged_types := {[name]} ∪ merged_types self;
             merged_elements := merged_elements self;
             merged_root := merged_root self;
             target_namespace := target_namespace self |}).

(** The body of the loop of [_process_schema] for a child element. *)
Definition process_element (child : node) (tail : string) : M unit := λ self,
  if Py.endswith (tag child) "}element" then
    let element_name := get_type_name child in
    if Py.truthy element_name && bool_decide (element_name ∉ merged_elements self) then
      (add_merged_element element_name ≫= λ _, append_copy child tail) self
    else Ok (tt, self)
  else if Py.endswith (tag child) "}complexType" || Py.endswith (tag child) "}simpleType" then
    let type_name := get_type_name child in
    if Py.truthy type_name && bool_decide (type_name ∉ merged_types self) then
      (add_merged_type type_name ≫= λ _, append_copy child tail) self
    else Ok (tt, self)
  else if Py.endswith (tag child) "}import" || Py.endswith (tag child) "}include" then
    append_copy child tail self
  else Ok (tt, self).

(** The body of the loop of [_process_schema]: the first test,
    [child.tag.endswith('}element')], raises on a processing
    instruction. *)
Definition process_child (child : item) : M unit :=
  match child with
  | Element e tail => process_element e tail
  | ProcessingInstruction _ => λ _, AttributeError
  end.

(** [XSDMerger._process_schema] *)
Definition _process_schema (schema : schema) : M unit :=
  for_each (root_items schema) process_child.

Definition set_merged_root (r : node) : M unit := λ self,
  Ok (tt, {| merged_types := merged_types self;
             merged_elements := merged_elements self;
             merged_root := Some r;
             target_namespace := target_namespace self |}).

Definition get_merged_root : M (option node) := λ self, Ok (merged_root self, self).

(** [XSDMerger.merge_schemas]; it returns [self.merged_root]. *)
Definition merge_schemas (file_paths : list string) : M (option node) :=
  match file_paths with
  | [] => sys_exit 1
  | first :: rest =>
      root ← load_xsd first;
      merged ← initialize_merged_schema root;
      set_merged_root merged ;;
      _process_schema root ;;
      for_each rest (λ file_path,
        current_root ← load_xsd file_path;
        _process_schema current_root) ;;
      get_merged_root
  end.

(** What a run of the program leaves behind: its exit status and the tree
    written to [merged_schema.xsd], if one was written. *)
Record outcome : Type := { exit_status : Z; written : option node }.

(** [XSDMerger.save_merged_schema]: writes [self.merged_root] unless it
    is [None]. *)
Definition save_merged_schema (self : XSDMerger) : option node := merged_root self.

(** [main], given whether the input directory exists and the paths the
    glob returns.  An exception that nothing catches ends the interpreter
    with status 1. *)
Definition main (input_dir_exists : bool) (xsd_files : list string) : outcome :=
  if negb input_dir_exists then {| exit_status := 1; written := None |}
  else match xsd_files with
  | [] => {| exit_status := 1; written := None |}
  | _ =>
      match merge_schemas xsd_files __init__ with
      | Ok (_, merger) => {| exit_status := 0; written := save_merged_schema merger |}
      | SysExit code => {| exit_status := code; written := None |}
      | AttributeError => {| exit_status := 1; written := None |}
      | XMLSyntaxError => {| exit_status := 1; written := None |}
      end
  end.

End merger.

(** The branch of [_process_schema] a top-level child falls into. *)
Inductive kind : Type := KElement | KType | KImport | KOther.

#[global] Instance kind_eq_dec : EqDecision kind.
Proof. solve_decision. Defined.

Definition kind_of (child : node) : kind :=
  if Py.endswith (tag child) "}element" then KElement
  else if Py.endswith (tag child) "}complexType" || Py.endswith (tag child) "}simpleType"
  then KType
  else if Py.endswith (tag child) "}import" || Py.endswith (tag child) "}include"
  then KImport
  else KOther.

(** The kinds that are merged by name. *)
Definition named (k : kind) : Prop := k = KElement ∨ k = KType.

(** The children of kind [k] and name [n] in a list of children. *)
Definition declarations (k : kind) (n : string) (l : list node) : list node :=
  filter (λ c, kind_of c = k ∧ get_type_name c = n) l.

(** [c], at the head of [c :: post], is the first child of its kind and
    name in [pre ++ c :: post]. *)
Definition first_of_its_name (pre : list node) (c : node) : Prop :=
  ∀ c', c' ∈ pre → kind_of c' = kind_of c → get_type_name c' ≠ get_type_name c.

(** The child elements among the children of a root. *)
Definition element_children (items : list item) : list node :=
  omap (λ child, match child with
                 | Element e _ => Some e
                 | ProcessingInstruction _ => None
                 end) items.

(** The top-level child elements of the input files, in file-list
    order. *)
Definition top_level (roots : list schema) : list node :=
  concat ((λ root, element_children (root_items root)) <$> roots).

(** A child that the loop of [_process_schema] can take and copy: an
    element followed by blank text at most. *)
Definition tidy_item (child : item) : Prop :=
  match child with
  | Element _ tail => Py.blank tail = true
  | ProcessingInstruction _ => False
  end.

#[global] Instance tidy_item_dec child : Decision (tidy_item child).
Proof. destruct child; simpl; apply _. Defined.

(** A root all of whose children are such. *)
Definition tidy (root : schema) : Prop := Forall tidy_item (root_items root).

(** The set that guards the children of kind [k]. *)
Definition names_of (k : kind) (self : XSDMerger) : gset string :=
  match k with
  | KElement => merged_elements self
  | KType => merged_types self
  | _ => ∅
  end.

(** What holds of the merger, with merged root [r], once the top-level
    children [seen] have gone through the loop of [_process_schema]. *)
Record merge_inv (seen : list node) (self : XSDMerger) (r : node) : Prop := {
  inv_root : merged_root self = Some r;
  inv_names : ∀ k n, named k →
    n ∈ names_of k self ↔
    n ≠ "" ∧ ∃ c, c ∈ seen ∧ kind_of c = k ∧ get_type_name c = n;
  inv_kinds : ∀ c, c ∈ children r →
    kind_of c ≠ KOther ∧ (named (kind_of c) → get_type_name c ≠ "");
  inv_once : ∀ k n, named k →
    length (declarations k n (children r)) = if decide (n ∈ names_of k self) then 1 else 0;
  inv_first : ∀ c, c ∈ children r → named (kind_of c) →
    ∃ pre post, seen = (pre ++ c :: post)%list ∧ first_of_its_name pre c;
  inv_first_in : ∀ pre c post, seen = (pre ++ c :: post)%list →
    named (kind_of c) → get_type_name c ≠ "" → first_of_its_name pre c →
    c ∈ children r;
  inv_imports :
    filter (λ c, kind_of c = KImport) (children r) =
    filter (λ c, kind_of c = KImport) seen;
  inv_order : children r `sublist_of` seen
}.

End XsdMerge.

(** Input files for the merger.  [first.xsd] and [second.xsd] both
    declare the type [Address], with different content; the second also
    repeats the element [person] and brings an import, an annotation and
    a nameless type.  [instruction.xsd] holds a processing instruction
    between two declarations, and in [text.xsd] the import is followed
    by the word [stray]. *)
Module MergeSamples.
Import Xml XsdMerge.

Definition xs (local : string) : string := clark XSD local.

Definition first_root : schema :=
  {| root_attrib := {[ "targetNamespace" := "urn:first" ]};
     root_nsmap := [ (Some "xs", XSD); (Some "tns", "urn:first") ];
     root_items :=
       [ Element (Node (xs "import") {[ "namespace" := "urn:common" ]} []) "";
         Element (Node (xs "element") {[ "name" := "person" ]} []) "";
         Element (Node (xs "complexType") {[ "name" := "Address" ]}
           [ Node (xs "sequence") ∅
               [ Node (xs "element")
                   (<[ "name" := "street" ]> {[ "type" := "xs:string" ]}) [] ] ]) " " ] |}.

Definition second_root : schema :=
  {| root_attrib := {[ "targetNamespace" := "urn:second" ]};
     root_nsmap := [ (Some "xs", XSD) ];
     root_items :=
       [ Element (Node (xs "annotation") ∅ []) "";
         Element (Node (xs "import") {[ "namespace" := "urn:common" ]} []) "";
         Element (Node (xs "simpleType") {[ "name" := "Address" ]} []) "";
         Element (Node (xs "element") {[ "name" := "person" ]} []) "";
         Element (Node (xs "complexType") ∅ []) "";
         Element (Node (xs "element") {[ "name" := "city" ]} []) "" ] |}.

(** [first_root] without the declaration of the prefix [tns]. *)
Definition first_root_undeclared : schema :=
  {| root_attrib := root_attrib first_root;
     root_nsmap := [ (Some "xs", XSD) ];
     root_items := root_items first_root |}.

Definition instruction_root : schema :=
  {| root_attrib := ∅;
     root_nsmap := [ (Some "xs", XSD) ];
     root_items :=
       [ Element (Node (xs "element") {[ "name" := "person" ]} []) "";
         ProcessingInstruction "";
         Element (Node (xs "element") {[ "name" := "city" ]} []) "" ] |}.

Definition text_root : schema :=
  {| root_attrib := ∅;
     root_nsmap := [ (Some "xs", XSD) ];
     root_items :=
       [ Element (Node (xs "import") {[ "namespace" := "urn:common" ]} []) "stray" ] |}.

Definition fs : files := λ file_path,
  if String.eqb file_path "first.xsd" then Some first_root
  else if String.eqb file_path "second.xsd" then Some second_root
  else if String.eqb file_path "instruction.xsd" then Some instruction_root
  else if String.eqb file_path "text.xsd" then Some text_root
  else None.

End MergeSamples.

(** ** The type-narrowing rewriter ([xsd_parse.py]) *)

Module XsdParse.
Import Xml.

(** A parsed file: [root.nsmap] in the order [items()] yields it (the key
    [None] is the default namespace) and the tree. *)
Record document : Type := {
  nsmap : list (option string * string);
  root : node
}.

(** Lines 14-18: the prefix of the first binding of the XSD namespace;
    for the default namespace that prefix is [None]. *)
Definition first_xs_binding (ns_map : list (option string * string)) : option string :=
  match List.find (λ pu, String.eqb pu.2 XSD) ns_map with
  | Some (prefix, _) => prefix
  | None => None
  end.

(** Lines 20-25: the XSD namespace as the default namespace. *)
Definition default_xs_binding (ns_map : list (option string * string)) : option string :=
  if existsb (λ pu, bool_decide (pu.1 = None) && String.eqb pu.2 XSD) ns_map
  then Some "" else None.

(** [xs_prefix] as line 27 sees it. *)
Definition resolve_xs_prefix (ns_map : list (option string * string)) : option string :=
  match first_xs_binding ns_map with
  | Some prefix => Some prefix
  | None => default_xs_binding ns_map
  end.

Definition target : string := "getCommencementsData".

Definition quotation_mark : ascii := Ascii.ascii_of_nat 34.

(** The number of apostrophes in [s]. *)
Fixpoint count_apostrophes (s : string) : nat :=
  match s with
  | EmptyString => 0
  | String c s' =>
      (if Ascii.eqb c Py.apostrophe then 1 else 0) + count_apostrophes s'
  end.

Fixpoint has_quotation_mark (s : string) : bool :=
  match s with
  | EmptyString => false
  | String c s' => Ascii.eqb c quotation_mark || has_quotation_mark s'
  end.

(** An odd number of apostrophes and no quotation mark.  Pasted between
    the apostrophes of [[@name='...']], such a name gives an expression
    with an odd number of apostrophes of which none stands inside a
    literal in quotation marks: apostrophes open and close literals in
    turn, and the last literal has no end. *)
Definition unfinished_literal (name : string) : bool :=
  Nat.odd (count_apostrophes name) && negb (has_quotation_mark name).

(** What a query gives: a list of nodes, or an exception. *)
Inductive xpath_result : Type :=
| Nodes (l : list path)
| XPathEvalError.

Section rewriter.
Context (xs_prefix : string).

(** What the XPath engine makes of the query of line 68 when the name
    pasted into it holds an apostrophe and the expression is well
    formed, over the tree as it is then.  [Nodes l] stands for a result
    that the loop goes on with: the nodes selected, of which line 72
    takes the first (a first node that is no element of the tree, a
    comment say, is a path that leads nowhere, with no element under
    it), or a value that is no list and counts as false (the empty
    list).  [XPathEvalError] stands for a run that ends there: the
    engine raises, or the value is one that lines 69-72 raise on.
    Nothing is assumed of it. *)
Context (injected : string → node → xpath_result).

(** The tag of the elements that the XPath name test for [local] selects.
    With a non-empty prefix the test is [xs_prefix:local] and
    [namespaces=ns] binds the prefix to the XSD namespace.  With the empty
    prefix the test is the bare [local], which XPath 1.0 reads as the
    element [local] in no namespace. *)
Definition name_test (local : string) : string :=
  if Py.truthy xs_prefix then clark XSD local else local.

(** [ctx.xpath(".//xs:element")], or [".//element"] for the empty prefix. *)
Definition elements_in (t : node) (ctx : path) : list path :=
  descendants t ctx (name_test "element").

(** The complex types named [name], in document order. *)
Definition complex_types_named (t : node) (name : string) : list path :=
  filter (λ q, attr_at t q "name" = Some name)
         (descendants t [] (name_test "complexType")).

(** [root.xpath(".//xs:complexType[@name='NAME']")] with [name] pasted
    between the apostrophes.  A name without an apostrophe stays inside
    the string literal and the query selects the complex types of that
    name.  A name that holds an apostrophe ends the literal early and
    what follows is read as XPath: where that leaves a literal
    unfinished the expression is rejected and lxml raises
    [XPathEvalError]; otherwise the query is one of the name's own
    making, and its result is [injected name t]. *)
Definition find_complex_type (t : node) (name : string) : xpath_result :=
  if negb (Py.has_apostrophe name) then Nodes (complex_types_named t name)
  else if unfinished_literal name then XPathEvalError
  else injected name t.

Definition narrow_targets : list string :=
  [xs_prefix +:+ ":integer"; xs_prefix +:+ ":boolean";
   xs_prefix +:+ ":dateTime"; xs_prefix +:+ ":date"].

Definition string_type : string := xs_prefix +:+ ":string".

(** [x in [...]] for [x = elem.get('type')], which may be [None]. *)
Definition is_narrow_target (type_attr : option string) : bool :=
  match type_attr with
  | Some ty => bool_decide (ty ∈ narrow_targets)
  | None => false
  end.

(** [type_attr and not type_attr.startswith(f"{xs_prefix}:")] *)
Definition is_type_reference (type_attr : option string) : bool :=
  match type_attr with
  | Some ty => Py.truthy ty && negb (Py.startswith ty (xs_prefix +:+ ":"))
  | None => false
  end.

(** Lines 40-53: the type references under the target complex types. *)
Definition collect_nested_types (t : node) (gc_elements : list path) : gset string :=
  foldl (λ nested_types gc,
    foldl (λ nested_types elem,
      match attr_at t elem "type" with
      | Some type_attr =>
          if is_type_reference (Some type_attr) then {[type_attr]} ∪ nested_types
          else nested_types
      | None => nested_types
      end) nested_types (elements_in t gc))
    ∅ gc_elements.

(** The variables of the loop of lines 60-86, with the tree it mutates.
    [expanded] is the history of the loop: the names it went on to mark
    and search for, latest first. *)
Record worklist : Type := {
  complex_types_to_process : list string;
  processed_types : gset string;
  tree : node;
  expanded : list string
}.

(** Lines 77-86: the body of the loop over [nested_elements]. *)
Definition visit_nested (processed : gset string) (acc : list string * node)
    (nested_elem : path) : list string * node :=
  let nested_type := attr_at acc.2 nested_elem "type" in
  let queue :=
    match nested_type with
    | Some ty =>
        if is_type_reference nested_type && bool_decide (ty ∉ processed)
        then (acc.1 ++ [ty])%list else acc.1
    | None => acc.1
    end in
  let t :=
    if is_narrow_target nested_type
    then update nested_elem (set "type" string_type) acc.2 else acc.2 in
  (queue, t).

Inductive loop_end : Type :=
| Exhausted (w : worklist)
| Raises (w : worklist).

(** Lines 60-86; [None] when [fuel] iterations did not empty the queue. *)
Fixpoint while_loop (fuel : nat) (w : worklist) : option loop_end :=
  match fuel with
  | O => None
  | S fuel' =>
      match complex_types_to_process w with
      | [] => Some (Exhausted w)
      | current_type :: rest =>
          if bool_decide (current_type ∈ processed_types w) then
            while_loop fuel'
              {| complex_types_to_process := rest;
                 processed_types := processed_types w;
                 tree := tree w; expanded := expanded w |}
          else
            let processed := {[current_type]} ∪ processed_types w in
            let log := current_type :: expanded w in
            match find_complex_type (tree w) current_type with
            | XPathEvalError =>
                Some (Raises {| complex_types_to_process := rest;
                                processed_types := processed;
                                tree := tree w; expanded := log |})
            | Nodes [] =>
                while_loop fuel'
                  {| complex_types_to_process := rest;
                     processed_types := processed;
                     tree := tree w; expanded := log |}
            | Nodes (complex_type_elem :: _) =>
                let nested_elements := elements_in (tree w) complex_type_elem in
                let r := foldl (visit_nested processed) (rest, tree w) nested_elements in
                while_loop fuel'
                  {| complex_types_to_process := r.1;
                     processed_types := processed;
                     tree := r.2; expanded := log |}
            end
      end
  end.

(** Lines 95-102: the body of the loop over [direct_elements]. *)
Definition narrow_direct (t : node) (elem : path) : node :=
  match attr_at t elem "type" with
  | Some type_attr =>
      if Py.truthy type_attr && is_narrow_target (Some type_attr)
      then update elem (set "type" string_type) t else t
  | None => t
  end.

(** Lines 89-102. *)
Definition final_pass (gc_elements : list path) (t : node) : node :=
  foldl (λ t gc, foldl narrow_direct t (elements_in t gc)) t gc_elements.

(** The type values of a tree. *)
Definition type_values (t : node) : gset string :=
  list_to_set (omap (λ q, attr_at t q "type") (paths t)).

(** Iterations that empty the queue [queue] over the tree [t]. *)
Definition enough_fuel (t : node) (queue : list string) : nat :=
  S (size (type_values t ∪ list_to_set queue) * S (length (paths t)) + length queue).

(** What both narrowing loops do to the element [elem]. *)
Definition narrow_at (elem : path) (t : node) : node :=
  if is_narrow_target (attr_at t elem "type")
  then update elem (set "type" string_type) t else t.

(** [t] is [t0] with the type attribute of some element declarations
    rewritten from a narrow target to the string type, and nothing else
    changed. *)
Record narrowed_from (t0 t : node) : Prop := {
  nf_paths : paths t = paths t0;
  nf_tags : ∀ q, tag_at t q = tag_at t0 q;
  nf_attrib : ∀ q,
    attrib_at t q = attrib_at t0 q ∨
    (tag_at t0 q = Some (name_test "element") ∧
     is_narrow_target (attr_at t0 q "type") = true ∧
     attrib_at t q = insert "type" string_type <$> attrib_at t0 q)
}.

(** What the lookup of line 68 finds for a type value without an
    apostrophe: the first complex type whose [name] attribute is that
    very value, prefix and all. *)
Definition declaration (t : node) (name : string) : option path :=
  head (complex_types_named t name).

(** [elem] is an element declaration nested in the complex type [c] and
    its type attribute holds the value [ty], which the loops take for a
    type name (it is not empty and lacks the XSD prefix). *)
Definition refers_to (t : node) (c : path) (ty : string) : Prop :=
  ∃ elem, elem ∈ elements_in t c ∧ attr_at t elem "type" = Some ty ∧
          is_type_reference (Some ty) = true.

(** No type value that the loops take for a type name makes a query of
    its own: one that holds an apostrophe leaves a literal unfinished. *)
Definition no_injection (t : node) : Prop :=
  ∀ q ty, attr_at t q "type" = Some ty → is_type_reference (Some ty) = true →
    Py.has_apostrophe ty = true → unfinished_literal ty = true.

(** The complex types that the lookups of the code lead to from the
    target: the complex types of the target name, and what line 68
    finds for the type values of the elements of such a complex type. *)
Inductive reachable (t : node) : path → Prop :=
| reach_target gc :
    gc ∈ complex_types_named t target → reachable t gc
| reach_reference c ty d :
    reachable t c → refers_to t c ty → declaration t ty = Some d →
    reachable t d.

(** What the loop of lines 60-86 keeps true of its variables, for the
    tree [t0] and the set [nested_types] it started from. *)
Record loop_inv (t0 : node) (nested_types : gset string) (w : worklist) : Prop := {
  li_tree : narrowed_from t0 (tree w);
  li_start : ∀ ty, ty ∈ nested_types →
    ty ∈ processed_types w ∨ ty ∈ complex_types_to_process w;
  li_closed : ∀ n c ty, n ∈ processed_types w →
    declaration t0 n = Some c → refers_to t0 c ty →
    ty ∈ processed_types w ∨ ty ∈ complex_types_to_process w;
  li_narrowed : ∀ n c elem, n ∈ processed_types w →
    declaration t0 n = Some c → elem ∈ elements_in t0 c →
    is_narrow_target (attr_at (tree w) elem "type") = false
}.

(** What the history of the loop records. *)
Record log_inv (w : worklist) : Prop := {
  log_nodup : NoDup (expanded w);
  log_processed : ∀ n, n ∈ expanded w ↔ n ∈ processed_types w
}.

(** The variables as the loop leaves them. *)
Definition end_state (e : loop_end) : worklist :=
  match e with Exhausted w => w | Raises w => w end.

(** What holds when the loop has ended. *)
Definition loop_post (t0 : node) (nested_types : gset string) (e : loop_end) : Prop :=
  match e with
  | Exhausted w =>
      loop_inv t0 nested_types w ∧ log_inv w ∧ complex_types_to_process w = []
  | Raises w => narrowed_from t0 (tree w) ∧ log_inv w
  end.

(** The bound on the iterations left, over the tree [t0] the loop started
    from. *)
Definition iterations_left (t0 : node) (w : worklist) : nat :=
  size ((type_values t0 ∪ list_to_set (complex_types_to_process w))
          ∖ processed_types w) * S (length (paths t0))
  + length (complex_types_to_process w).

End rewriter.

(** The engine that rejects every query of a name's own making.  The
    runs over a document none of whose type values forms such a query
    are the runs under it. *)
Definition rejecting : string → node → xpath_result := λ _ _, XPathEvalError.

(** *** References as the specification counts them *)

Definition colon : ascii := Ascii.ascii_of_nat 58.

Fixpoint after_colon (s : string) : option string :=
  match s with
  | EmptyString => None
  | String c s' => if Ascii.eqb c colon then Some s' else after_colon s'
  end.

(** The name that a qualified name holds after its prefix, and the whole
    of a name without a prefix. *)
Definition local_part (qname : string) : string := default qname (after_colon qname).

(** The specification (section 3) has the type attribute refer to a
    locally defined type declaration by an unprefixed or a
    differently-prefixed name: the declaration that a type value stands
    for is the complex type named by its local part. *)
Definition spec_declaration (xs_prefix : string) (t : node) (ty : string) : option path :=
  head (complex_types_named xs_prefix t (local_part ty)).

(** The complex types transitively referenced from the target, in that
    reading. *)
Inductive spec_reachable (xs_prefix : string) (t : node) : path → Prop :=
| spec_reach_target gc :
    gc ∈ complex_types_named xs_prefix t target → spec_reachable xs_prefix t gc
| spec_reach_reference c ty d :
    spec_reachable xs_prefix t c → refers_to xs_prefix t c ty →
    spec_declaration xs_prefix t ty = Some d →
    spec_reachable xs_prefix t d.

(** The tree [t] differs from [t0] in the values of type attributes that
    [t0] already has, and in nothing else: the same elements at the same
    places, with the same tags and the same other attributes. *)
Record only_types_rewritten (t0 t : node) : Prop := {
  same_nodes : paths t = paths t0;
  same_tags : ∀ q, tag_at t q = tag_at t0 q;
  same_attributes : ∀ q k, k ≠ "type" → attr_at t q k = attr_at t0 q k;
  same_attribute_names : ∀ q k, is_Some (attr_at t q k) ↔ is_Some (attr_at t0 q k)
}.

(** How [process_xsd_file] ends: it returns at line 29 and writes nothing,
    it writes the tree to the output path, or an [XPathEvalError] leaves
    it with the tree as it is then and nothing written. *)
Inductive outcome : Type :=
| Skipped
| Written (t : node)
| Raised (t : node).

Section process.
(** The order in which [list(nested_types)] lists a set; Python fixes
    none. *)
Context (list_of_set : gset string → list string).
Context (injected : string → node → xpath_result).

(** The worklist as line 57 leaves it. *)
Definition initial_worklist (xs_prefix : string) (t : node) (gc_elements : list path)
    : worklist :=
  {| complex_types_to_process := list_of_set (collect_nested_types xs_prefix t gc_elements);
     processed_types := ∅; tree := t; expanded := [] |}.

(** The loop of lines 60-86 run from there. *)
Definition run_worklist (xs_prefix : string) (t : node) (gc_elements : list path)
    : option loop_end :=
  let w := initial_worklist xs_prefix t gc_elements in
  while_loop xs_prefix injected (enough_fuel t (complex_types_to_process w)) w.

(** [process_xsd_file], up to the write at line 108. *)
Definition process_xsd_file (doc : document) : option outcome :=
  match resolve_xs_prefix (nsmap doc) with
  | None => Some Skipped
  | Some xs_prefix =>
      match find_complex_type xs_prefix injected (root doc) target with
      | XPathEvalError => Some (Raised (root doc))
      | Nodes [] => Some (Written (root doc))
      | Nodes gc_elements =>
          match run_worklist xs_prefix (root doc) gc_elements with
          | None => None
          | Some (Raises w) => Some (Raised (tree w))
          | Some (Exhausted w) =>
              Some (Written (final_pass xs_prefix gc_elements (tree w)))
          end
      end
  end.

End process.

(** The tree an outcome leaves in memory, if the file was parsed at all. *)
Definition tree_of (o : outcome) : option node :=
  match o with
  | Skipped => None
  | Written t => Some t
  | Raised t => Some t
  end.

End XsdParse.

(** Documents for the rewriter. *)
Module ParseSamples.
Import Xml XsdParse.

Definition xs (local : string) : string := clark XSD local.

Definition element (name type : string) : node :=
  Node (xs "element") (<[ "name" := name ]> {[ "type" := type ]}) [].

Definition complexType (name : string) (elements : list node) : node :=
  Node (xs "complexType") {[ "name" := name ]} [ Node (xs "sequence") ∅ elements ].

(** The target type with a date and a reference to [DetailType], which
    holds an integer, refers back to the target and to itself, and names
    a type that the document does not declare; [Other] is referenced by
    nothing. *)
Definition commencements : document :=
  {| nsmap := [ (Some "xs", XSD) ];
     root := Node (xs "schema") ∅
       [ complexType "getCommencementsData"
           [ element "startDate" "xs:date"; element "detail" "DetailType" ];
         complexType "DetailType"
           [ element "count" "xs:integer"; element "label" "xs:string";
             element "back" "getCommencementsData"; element "self" "DetailType";
             element "lost" "Missing" ];
         complexType "Other" [ element "flag" "xs:boolean" ] ] |}.

(** The target refers to [A], [A] to [B] and [B] to [A]. *)
Definition cyclic : document :=
  {| nsmap := [ (Some "xs", XSD) ];
     root := Node (xs "schema") ∅
       [ complexType "getCommencementsData" [ element "a" "A" ];
         complexType "A" [ element "b" "B"; element "n" "xs:integer" ];
         complexType "B" [ element "a" "A"; element "d" "xs:dateTime" ] ] |}.

(** The XSD namespace as the default namespace
    ([<schema xmlns="http://www.w3.org/2001/XMLSchema">]): no prefix on
    the type values. *)
Definition default_namespace : document :=
  {| nsmap := [ (None, XSD) ];
     root := Node (xs "schema") ∅
       [ complexType "getCommencementsData"
           [ element "startDate" "date"; element "count" "integer" ] ] |}.

(** The scenario of the specification: the target with a date and a
    reference to [DetailType], which holds an integer. *)
Definition scenario : document :=
  {| nsmap := [ (Some "xs", XSD) ];
     root := Node (xs "schema") ∅
       [ complexType "getCommencementsData"
           [ element "startDate" "xs:date"; element "detail" "DetailType" ];
         complexType "DetailType" [ element "count" "xs:integer" ] ] |}.

(** The same with the reference written under the prefix of the target
    namespace. *)
Definition prefixed_reference : document :=
  {| nsmap := [ (Some "xs", XSD); (Some "tns", "urn:example") ];
     root := Node (xs "schema") {[ "targetNamespace" := "urn:example" ]}
       [ complexType "getCommencementsData"
           [ element "startDate" "xs:date"; element "detail" "tns:DetailType" ];
         complexType "DetailType" [ element "count" "xs:integer" ] ] |}.

(** A type value that goes on with the expression after the literal:
    the query of line 68 reads
    [.//xs:complexType[@name='zz' or '1'='1']]. *)
Definition injection : document :=
  {| nsmap := [ (Some "xs", XSD) ];
     root := Node (xs "schema") ∅
       [ complexType "getCommencementsData" [ element "any" "zz' or '1'='1" ];
         complexType "Other" [ element "flag" "xs:boolean" ] ] |}.

(** An engine for which such a predicate holds of every complex type. *)
Definition selects_all : string → node → xpath_result :=
  λ _ t, Nodes (descendants t [] (xs "complexType")).

(** An element of the target whose type value holds an apostrophe and
    names no declared type. *)
Definition apostrophe_reference : document :=
  {| nsmap := [ (Some "xs", XSD) ];
     root := Node (xs "schema") ∅
       [ complexType "getCommencementsData"
           [ element "startDate" "xs:date"; element "owner" "O'Brien" ] ] |}.

End ParseSamples.

(** ** Further notions for the merger *)

Module MergeFacts.
Import Xml XsdMerge.

(** Every child in [l] is one the loop of [_process_schema] appends when
    the children [seen] came before it: an import or include, or an
    element or type with a name that no earlier child of its kind has. *)
Definition all_fresh (seen l : list node) : Prop :=
  ∀ pre c post, l = (pre ++ c :: post)%list →
    kind_of c ≠ KOther ∧
    (named (kind_of c) →
       get_type_name c ≠ "" ∧ first_of_its_name (seen ++ pre) c).

(** Every named child in [l] has a name that the merger [self] holds
    already, or no name. *)
Definition all_known (self : XSDMerger) (l : list node) : Prop :=
  ∀ c, c ∈ l → named (kind_of c) →
    get_type_name c = "" ∨ get_type_name c ∈ names_of (kind_of c) self.

(** The children that are imports or includes. *)
Definition imports (l : list node) : list node :=
  filter (λ c, kind_of c = KImport) l.

#[global] Instance named_dec k : Decision (named k).
Proof. unfold named. apply _. Defined.

(** The children [l] bring no conflict: each is an import or include, or
    an element or type with a name, and no two elements and no two types
    share a name. *)
Definition conflict_free (l : list node) : Prop :=
  Forall (λ c, kind_of c ≠ KOther ∧ (named (kind_of c) → get_type_name c ≠ "")) l ∧
  NoDup ((λ c, (kind_of c, get_type_name c)) <$> filter (λ c, kind_of c ≠ KImport) l).

End MergeFacts.

(** ** Further notions for the rewriter *)

Module RewriteFacts.
Import Xml XsdParse.

Section facts.
Context (xs : string).

(** A type name that an element of a reached complex type refers to. *)
Definition reached_name (t : node) (n : string) : Prop :=
  ∃ c, reachable xs t c ∧ refers_to xs t c n.

(** An element declaration nested in a reached complex type. *)
Definition reached_element (t : node) (q : path) : Prop :=
  ∃ c, reachable xs t c ∧ q ∈ elements_in xs t c.

(** The loop of lines 60-86 stays within what is reached from the
    target of the tree [t0] it started from. *)
Record reach_inv (t0 : node) (w : worklist) : Prop := {
  ri_tree : narrowed_from xs t0 (tree w);
  ri_queue : ∀ n, n ∈ complex_types_to_process w → reached_name t0 n;
  ri_processed : ∀ n, n ∈ processed_types w → reached_name t0 n;
  ri_touched : ∀ q, attrib_at (tree w) q = attrib_at t0 q ∨ reached_element t0 q
}.

End facts.

End RewriteFacts.

(** ** The directory run of the rewriter *)

Module XsdDirectory.
Import Xml XsdParse.

(** The lines the run prints; the text of a caught exception is left
    out. *)
Inductive message : Type :=
| NoInputDirectory
| NamespaceNotFound (input_path : string)
| Processed (input_path output_path : string)
| ErrorProcessing (input_path : string)
| NoXsdFiles.

(** What the run does to the file system and the console, in the order
    it does it. *)
Inductive event : Type :=
| MakeDirs (dir : string)
| WriteTree (output_path : string) (t : node)
| Print (m : message).

(** How a call of [process_xsd_file] is left. *)
Inductive call_end : Type :=
| Returned
| Excepted.

(** The state of the loops of [process_directory]. *)
Record progress : Type := {
  xsd_files_found : bool;
  trace : list event
}.

Section directory.
(** The order of [list(nested_types)], what the XPath engine makes of
    the queries of names with apostrophes, [str.lower], the functions of
    [os.path], and [etree.parse], which gives [None] where it raises (a
    missing or malformed file). *)
Context (list_of_set : gset string → list string).
Context (injected : string → node → xpath_result).
Context (lower : string → string).
Context (join relpath : string → string → string) (dirname : string → string).
Context (parse : string → option document).
Context (input_dir output_dir : string).

(** [process_xsd_file(input_path, output_path)] with its effects: the
    events and how the call is left, or [None] for a call that does not
    end. *)
Definition process_xsd_file_at (input_path output_path : string)
    : option (list event * call_end) :=
  match parse input_path with
  | None => Some ([], Excepted)
  | Some doc =>
      match process_xsd_file list_of_set injected doc with
      | None => None
      | Some Skipped => Some ([Print (NamespaceNotFound input_path)], Returned)
      | Some (Written t) =>
          Some ([MakeDirs (dirname output_path); WriteTree output_path t], Returned)
      | Some (Raised _) => Some ([], Excepted)
      end
  end.

(** Lines 128-137, for a file name that passed the test of line 126. *)
Definition file_events (root file : string) : option (list event) :=
  let input_path := join root file in
  let rel_path := relpath input_path input_dir in
  let output_path := join output_dir rel_path in
  let output_subdir := dirname output_path in
  match process_xsd_file_at input_path output_path with
  | None => None
  | Some (evs, Returned) =>
      Some (MakeDirs output_subdir :: evs ++ [Print (Processed input_path output_path)])%list
  | Some (evs, Excepted) =>
      Some (MakeDirs output_subdir :: evs ++ [Print (ErrorProcessing input_path)])%list
  end.

(** The body of the inner loop, lines 126-137. *)
Definition process_file (root file : string) (p : progress) : option progress :=
  if Py.endswith (lower file) ".xsd" then
    match file_events root file with
    | None => None
    | Some evs => Some {| xsd_files_found := true; trace := (trace p ++ evs)%list |}
    end
  else Some p.

(** [for file in files] *)
Fixpoint for_files (root : string) (files : list string) (p : progress)
    : option progress :=
  match files with
  | [] => Some p
  | file :: rest =>
      match process_file root file p with
      | None => None
      | Some p' => for_files root rest p'
      end
  end.

(** [for root, _, files in os.walk(input_dir)], over what the walk
    yields. *)
Fixpoint for_walk (walk : list (string * list string)) (p : progress)
    : option progress :=
  match walk with
  | [] => Some p
  | (root, files) :: rest =>
      match for_files root files p with
      | None => None
      | Some p' => for_walk rest p'
      end
  end.

(** [process_directory], given whether the input directory exists and
    what [os.walk] yields for it. *)
Definition process_directory (input_dir_exists : bool)
    (walk : list (string * list string)) : option (list event) :=
  let made := [MakeDirs output_dir] in
  if negb input_dir_exists then Some (made ++ [Print NoInputDirectory])%list
  else
    match for_walk walk {| xsd_files_found := false; trace := made |} with
    | None => None
    | Some p =>
        Some (if xsd_files_found p then trace p
              else (trace p ++ [Print NoXsdFiles])%list)
    end.

(** The files of a walk that pass the test of line 126, each with its
    directory, in the order the loops meet them. *)
Definition xsd_files (walk : list (string * list string)) : list (string * string) :=
  rf ← walk;
  (λ file, (rf.1, file)) <$> filter (λ file, Py.endswith (lower file) ".xsd" = true) rf.2.

(** The paths of lines 128-130. *)
Definition input_path_of (rf : string * string) : string := join rf.1 rf.2.
Definition output_path_of (rf : string * string) : string :=
  join output_dir (relpath (input_path_of rf) input_dir).

End directory.

End XsdDirectory.

(** A directory for the run: [a.xsd] holds the target type, [B.XSD]
    binds no XSD namespace, [sub/c.xsd] names a type with an apostrophe
    and [sub/bad.xsd] is not well-formed. *)
Module DirectorySamples.
Import Xml XsdParse XsdDirectory.

Definition lower_ascii (c : ascii) : ascii :=
  let n := nat_of_ascii c in
  if (65 <=? n)%nat && (n <=? 90)%nat then ascii_of_nat (n + 32) else c.

(** [str.lower] on ASCII names. *)
Fixpoint lower (s : string) : string :=
  match s with
  | EmptyString => EmptyString
  | String c s' => String (lower_ascii c) (lower s')
  end.

Definition slash : ascii := ascii_of_nat 47.

Fixpoint has_slash (s : string) : bool :=
  match s with
  | EmptyString => false
  | String c s' => Ascii.eqb c slash || has_slash s'
  end.

(** [os.path.join], [os.path.dirname] and [os.path.relpath] on relative
    POSIX paths without dots. *)
Definition join (a b : string) : string := a +:+ "/" +:+ b.

Fixpoint dirname (s : string) : string :=
  match s with
  | EmptyString => EmptyString
  | String c s' => if has_slash s' then String c (dirname s') else EmptyString
  end.

Definition relpath (p start : string) : string :=
  String.substring (S (String.length start)) (String.length p) p.

Definition unbound : document :=
  {| nsmap := [ (Some "tns", "urn:example") ];
     root := Node (clark "urn:example" "schema") ∅ [] |}.

Definition parse (input_path : string) : option document :=
  if String.eqb input_path "xsd/a.xsd" then Some ParseSamples.commencements
  else if String.eqb input_path "xsd/B.XSD" then Some unbound
  else if String.eqb input_path "xsd/sub/c.xsd" then Some ParseSamples.apostrophe_reference
  else None.

Definition walk : list (string * list string) :=
  [ ("xsd", ["a.xsd"; "notes.txt"; "B.XSD"]); ("xsd/sub", ["c.xsd"; "bad.xsd"]) ].

Definition run (injected : string → node → xpath_result) : option (list event) :=
  process_directory elements injected lower join relpath dirname parse "xsd" "out" true walk.

End DirectorySamples.

(** ** Element trees under in-place attribute changes *)

Module TreeProofs.
Import Xml.

Lemma paths_unfold n : paths n = [] :: paths_from 0 (children n).
Proof.
  by destruct n.
Qed.

Lemma paths_from_alter (g : node → node) i j cs :
  (∀ c, paths (g c) = paths c) →
  paths_from j (alter g i cs) = paths_from j cs.
Proof.
  intros Hg. revert i j. induction cs as [|c cs IH]; intros i j; [done|].
  destruct i as [|i]; simpl; [by rewrite Hg|].
  f_equal. apply (IH i (S j)).
Qed.

Lemma paths_update p k v n : paths (update p (set k v) n) = paths n.
Proof.
  revert n. induction p as [|i p IH]; intros n; simpl.
  - by rewrite !paths_unfold.
  - rewrite !paths_unfold. simpl. by rewrite paths_from_alter.
Qed.

Lemma tag_at_update p k v n q : tag_at (update p (set k v) n) q = tag_at n q.
Proof.
  unfold tag_at. revert n q. induction p as [|i p IH]; intros n q; simpl.
  - by destruct q.
  - destruct q as [|j q]; simpl; [done|].
    destruct (decide (i = j)) as [->|Hij].
    + rewrite list_lookup_alter_eq. destruct (children n !! j) as [c|]; simpl; [apply IH|done].
    + by rewrite list_lookup_alter_ne.
Qed.

Lemma attrib_at_update p k v n q :
  attrib_at (update p (set k v) n) q =
  if decide (q = p) then insert k v <$> attrib_at n q else attrib_at n q.
Proof.
  unfold attrib_at. revert n q. induction p as [|i p IH]; intros n q; simpl.
  - by destruct q.
  - destruct q as [|j q]; simpl; [done|].
    destruct (decide (i = j)) as [->|Hij].
    + rewrite list_lookup_alter_eq. destruct (children n !! j) as [c|]; simpl.
      * rewrite IH. repeat case_decide; try done; congruence.
      * by case_decide.
    + rewrite list_lookup_alter_ne by done. case_decide; [congruence|done].
Qed.

Lemma attr_at_attrib_at n q k : attr_at n q k = attrib_at n q ≫= (.!! k).
Proof. unfold attr_at, attrib_at, get_attr. by destruct (get n q). Qed.

Lemma attr_at_update p k v n q k' :
  attr_at (update p (set k v) n) q k' =
  if decide (q = p ∧ k' = k) then const v <$> attrib_at n q else attr_at n q k'.
Proof.
  rewrite !attr_at_attrib_at, attrib_at_update.
  destruct (decide (q = p)) as [->|?].
  - destruct (attrib_at n p) as [a|]; simpl.
    + destruct (decide (k' = k)) as [->|?].
      * rewrite decide_True by done. by rewrite lookup_insert_eq.
      * rewrite decide_False by naive_solver. by rewrite lookup_insert_ne.
    + by destruct (decide _).
  - rewrite decide_False by naive_solver. done.
Qed.

Lemma descendants_same t0 t ctx tg :
  paths t = paths t0 → (∀ q, tag_at t q = tag_at t0 q) →
  descendants t ctx tg = descendants t0 ctx tg.
Proof.
  intros Hp Ht. unfold descendants. rewrite Hp.
  apply list_filter_iff. intros q. simpl. by rewrite Ht.
Qed.

Lemma descendants_below t ctx tg q :
  q ∈ descendants t ctx tg ↔ q ∈ paths t ∧ below ctx q ∧ tag_at t q = Some tg.
Proof. unfold descendants. rewrite list_elem_of_filter. naive_solver. Qed.

Lemma node_ind' (P : node → Prop) :
  (∀ t a cs, Forall P cs → P (Node t a cs)) → ∀ n, P n.
Proof.
  intros H. fix IH 1. intros [t a cs]. apply H.
  induction cs as [|c cs IHcs]; constructor; [apply IH|exact IHcs].
Qed.

(** The tags and attributes at the paths determine the tree: the view by
    paths misses nothing of it. *)
Lemma tree_ext n n' :
  (∀ q, tag_at n q = tag_at n' q) → (∀ q, attrib_at n q = attrib_at n' q) → n = n'.
Proof.
  revert n'. induction n as [t a cs IH] using node_ind'. intros [t' a' cs'] Ht Ha.
  pose proof (Ht []) as Ht0. pose proof (Ha []) as Ha0.
  injection Ht0 as ->. injection Ha0 as ->. f_equal.
  apply list_eq. intros i.
  pose proof (Ht [i]) as Hi. unfold tag_at in Hi. simpl in Hi.
  destruct (cs !! i) as [c|] eqn:Hc, (cs' !! i) as [c'|] eqn:Hc'; try done.
  f_equal. apply (proj1 (Forall_lookup _ _) IH i c Hc).
  - intros q. specialize (Ht (i :: q)). unfold tag_at in Ht. simpl in Ht.
    by rewrite Hc, Hc' in Ht.
  - intros q. specialize (Ha (i :: q)). unfold attrib_at in Ha. simpl in Ha.
    by rewrite Hc, Hc' in Ha.
Qed.

Lemma paths_from_lookup i cs j c q :
  cs !! j = Some c → q ∈ paths c → (i + j :: q) ∈ paths_from i cs.
Proof.
  revert i j. induction cs as [|c' cs IH]; intros i j Hj Hq; [done|]. simpl.
  destruct j as [|j]; simpl in Hj.
  - injection Hj as ->. rewrite Nat.add_0_r. apply elem_of_app. left.
    apply list_elem_of_fmap. by exists q.
  - apply elem_of_app. right. replace (i + S j) with (S i + j) by lia. by apply IH.
Qed.

(** The paths that lead to a node are paths of the tree. *)
Lemma get_paths n q x : get n q = Some x → q ∈ paths n.
Proof.
  revert n x. induction q as [|i q IH]; intros n x Hget; rewrite paths_unfold; [left|].
  simpl in Hget. destruct (children n !! i) as [c|] eqn:Hc; [|done]. simpl in Hget.
  right. apply (paths_from_lookup 0 _ i c); [done|by eapply IH].
Qed.

End TreeProofs.

(** ** Properties of the merger *)

Module MergerProofs.
Import Xml XsdMerge.

Lemma bind_ok {A B} (c : M A) (f : A → M B) self a self' :
  c self = Ok (a, self') → (c ≫= f) self = f a self'.
Proof. intros H. unfold mbind, M_bind. by rewrite H. Qed.

Lemma bind_exit {A B} (c : M A) (f : A → M B) self code :
  c self = SysExit code → (c ≫= f) self = SysExit code.
Proof. intros H. unfold mbind, M_bind. by rewrite H. Qed.

Lemma bind_ok_inv {A B} (c : M A) (f : A → M B) self b self' :
  (c ≫= f) self = Ok (b, self') →
  ∃ a self1, c self = Ok (a, self1) ∧ f a self1 = Ok (b, self').
Proof.
  unfold mbind, M_bind. destruct (c self) as [[a self1]| | |]; [|done..].
  intros H. by exists a, self1.
Qed.

Lemma bind_exit_inv {A B} (c : M A) (f : A → M B) self code :
  (c ≫= f) self = SysExit code →
  c self = SysExit code ∨ ∃ a self1, c self = Ok (a, self1) ∧ f a self1 = SysExit code.
Proof.
  unfold mbind, M_bind. destruct (c self) as [[a self1]|code'| |]; [|intros [= ->]; by left|intros [=]..].
  intros H. right. by exists a, self1.
Qed.

Lemma truthy_spec s : Py.truthy s = true ↔ s ≠ "".
Proof.
  unfold Py.truthy. destruct (String.eqb_spec s ""); split; simpl; congruence.
Qed.

Lemma load_xsd_ok fs file_path root self :
  fs file_path = Some root → load_xsd fs file_path self = Ok (root, self).
Proof. intros H. unfold load_xsd. by rewrite H. Qed.

Lemma load_xsd_fails fs file_path self :
  fs file_path = None → load_xsd fs file_path self = SysExit 1.
Proof. intros H. unfold load_xsd. by rewrite H. Qed.

(** *** The copy of the root attributes *)

Lemma copy_attributes_attrib (l : list (string * string)) n :
  NoDup l.*1 →
  attrib (foldl (λ m kv, set kv.1 kv.2 m) n l) = list_to_map l ∪ attrib n.
Proof.
  revert n. induction l as [|[k v] l IH]; intros n Hnd; simpl.
  - by rewrite (left_id_L ∅ (∪)).
  - apply NoDup_cons in Hnd as [Hk Hnd]. rewrite IH by done. simpl.
    rewrite <- insert_union_r; [by rewrite insert_union_l|].
    by apply not_elem_of_list_to_map_1.
Qed.

Lemma copy_attributes_shape (l : list (string * string)) n :
  tag (foldl (λ m kv, set kv.1 kv.2 m) n l) = tag n ∧
  children (foldl (λ m kv, set kv.1 kv.2 m) n l) = children n.
Proof.
  revert n. induction l as [|[k v] l IH]; intros n; simpl; [done|].
  by rewrite !(proj1 (IH _)), !(proj2 (IH _)).
Qed.

Lemma initialize_merged_schema_spec root self :
  ∃ m self', initialize_merged_schema root self = Ok (m, self') ∧
    tag m = clark XSD "schema" ∧ attrib m = root_attrib root ∧ children m = [] ∧
    merged_types self' = merged_types self ∧
    merged_elements self' = merged_elements self.
Proof.
  eexists _, _. split; [reflexivity|].
  destruct (copy_attributes_shape (map_to_list (root_attrib root))
              (Node (clark XSD "schema") ∅ [])) as [-> ->].
  rewrite copy_attributes_attrib by apply NoDup_fst_map_to_list.
  simpl. rewrite list_to_map_to_list, (right_id_L ∅ (∪)). done.
Qed.

(** *** One child through the loop body *)

Lemma declarations_snoc k n l c :
  declarations k n (l ++ [c]) =
  (declarations k n l ++ if decide (kind_of c = k ∧ get_type_name c = n) then [c] else [])%list.
Proof.
  unfold declarations. rewrite filter_app, filter_cons, filter_nil.
  by destruct (decide _).
Qed.

Lemma snoc_split {A} (seen pre post : list A) (x c : A) :
  (seen ++ [x] = pre ++ c :: post)%list →
  (post = [] ∧ c = x ∧ pre = seen) ∨
  (∃ post', post = (post' ++ [x])%list ∧ seen = (pre ++ c :: post')%list).
Proof.
  intros H. destruct post as [|y post _] using rev_ind.
  - left. apply (app_inj_tail seen pre x c) in H as [-> ->]. done.
  - right. exists post.
    replace (pre ++ c :: post ++ [y])%list with ((pre ++ c :: post) ++ [y])%list in H
      by (by rewrite <- app_assoc).
    by apply app_inj_tail in H as [-> ->].
Qed.

(** A child that the loop body passes over. *)
Lemma inv_skip seen self r c :
  merge_inv seen self r →
  kind_of c ≠ KImport →
  (named (kind_of c) →
     get_type_name c = "" ∨ get_type_name c ∈ names_of (kind_of c) self) →
  merge_inv (seen ++ [c]) self r.
Proof.
  intros [Hr Hn Hk Ho Hf Hfi Hi Hs] Hnimp Hskip. split; try done.
  - intros k n Hk'. rewrite Hn by done. split.
    + intros [? (c' & ? & ? & ?)]. split; [done|]. exists c'. set_solver.
    + intros [Hne (c' & [Hc'| ->%list_elem_of_singleton]%elem_of_app & Hkc & Hnc)].
      * split; [done|]. by exists c'.
      * subst k n. destruct (Hskip Hk') as [?|Hin]; [done|].
        by apply Hn in Hin.
  - intros c' Hc' Hnamed. destruct (Hf c' Hc' Hnamed) as (pre & post & -> & Hfirst).
    exists pre, (post ++ [c])%list. split; [|done]. by rewrite <- app_assoc.
  - intros pre c' post Heq Hnamed Hne Hfirst.
    apply snoc_split in Heq as [(-> & -> & ->)|(post' & -> & ->)].
    + destruct (Hskip Hnamed) as [?|Hin]; [done|].
      apply Hn in Hin as [_ (c' & Hc' & Hkc & Hnc)]; [|done].
      by destruct (Hfirst c' Hc' Hkc).
    + by eapply Hfi.
  - rewrite filter_app, Hi, filter_cons, filter_nil.
    destruct (decide _); [done|]. by rewrite app_nil_r.
  - by apply sublist_inserts_r.
Qed.

(** A child that the loop body appends. *)
Lemma inv_append seen self self' r c :
  merge_inv seen self r →
  merged_root self' = Some (Node (tag r) (attrib r) (children r ++ [c])) →
  (∀ k, named k → names_of k self' =
     if decide (k = kind_of c) then {[get_type_name c]} ∪ names_of k self
     else names_of k self) →
  kind_of c ≠ KOther →
  (named (kind_of c) →
     get_type_name c ≠ "" ∧ get_type_name c ∉ names_of (kind_of c) self) →
  merge_inv (seen ++ [c]) self' (Node (tag r) (attrib r) (children r ++ [c])).
Proof.
  intros [Hr Hn Hk Ho Hf Hfi Hi Hs] Hr' Hnames Hnoth Hnew.
  assert (Hfresh : named (kind_of c) → first_of_its_name seen c).
  { intros Hnamed c' Hc' Hkc Hnc. destruct (Hnew Hnamed) as [Hne Hnin].
    apply Hnin, Hn; [done|]. split; [done|]. by exists c'. }
  split; simpl; try done.
  - intros k n Hk'. rewrite Hnames by done. destruct (decide (k = kind_of c)) as [->|Hkc].
    + destruct (Hnew Hk') as [Hne Hnin]. rewrite elem_of_union, Hn by done. split.
      * intros [->%elem_of_singleton|[? (c' & ? & ? & ?)]].
        -- split; [done|]. exists c. set_solver.
        -- split; [done|]. exists c'. set_solver.
      * intros [? (c' & [Hc'| ->%list_elem_of_singleton]%elem_of_app & Hkc & Hnc)].
        -- right. split; [done|]. by exists c'.
        -- left. set_solver.
    + rewrite Hn by done. split.
      * intros [? (c' & ? & ? & ?)]. split; [done|]. exists c'. set_solver.
      * intros [? (c' & [Hc'| ->%list_elem_of_singleton]%elem_of_app & Hkc' & Hnc)].
        -- split; [done|]. by exists c'.
        -- by destruct Hkc.
  - intros c' [Hc'| ->%list_elem_of_singleton]%elem_of_app; [by apply Hk|].
    split; [done|]. intros Hnamed. by destruct (Hnew Hnamed).
  - intros k n Hk'. rewrite declarations_snoc, length_app, Ho, Hnames by done.
    destruct (decide (kind_of c = k ∧ get_type_name c = n)) as [[<- <-]|Hne].
    + destruct (Hnew Hk') as [Hne Hnin].
      repeat case_decide; simpl; try done; set_solver.
    + simpl. rewrite Nat.add_0_r. destruct (decide (k = kind_of c)) as [->|?]; [|done].
      assert (get_type_name c ≠ n) by (intros ?; by apply Hne).
      repeat case_decide; simpl; try done; set_solver.
  - intros c' [Hc'| ->%list_elem_of_singleton]%elem_of_app Hnamed.
    + destruct (Hf c' Hc' Hnamed) as (pre & post & -> & Hfirst).
      exists pre, (post ++ [c])%list. split; [|done]. by rewrite <- app_assoc.
    + exists seen, []. split; [done|]. by apply Hfresh.
  - intros pre c' post Heq Hnamed Hne Hfirst.
    apply snoc_split in Heq as [(-> & -> & ->)|(post' & -> & ->)].
    + set_solver.
    + apply elem_of_app. left. by eapply Hfi.
  - rewrite !filter_app, Hi. done.
  - by apply sublist_app.
Qed.

Lemma process_element_inv seen self r c tail :
  merge_inv seen self r →
  Py.blank tail = true →
  ∃ self' r', process_element c tail self = Ok (tt, self') ∧
    merge_inv (seen ++ [c]) self' r' ∧ tag r' = tag r ∧ attrib r' = attrib r.
Proof.
  intros Hinv Hblank. pose proof (inv_root _ _ _ Hinv) as Hr.
  unfold process_element.
  destruct (Py.endswith (tag c) "}element") eqn:He.
  { assert (Hk : kind_of c = KElement) by (unfold kind_of; by rewrite He).
    destruct (Py.truthy _ && bool_decide _) eqn:Hcond.
    - apply andb_true_iff in Hcond as [Ht%truthy_spec Hb%bool_decide_eq_true].
      eexists _, (Node (tag r) (attrib r) (children r ++ [c])). split.
      { unfold mbind, M_bind, add_merged_element, append_copy. simpl.
        by rewrite Hr, Hblank. }
      split; [|done]. eapply inv_append; [done|done| | |]; rewrite ?Hk; try done.
      intros k [-> | ->]; simpl; by repeat case_decide.
    - exists self, r. split; [done|]. split; [|done].
      apply inv_skip; rewrite ?Hk; [done|done|]. intros _. simpl.
      apply andb_false_iff in Hcond as [Ht|Hb].
      + left. destruct (decide (get_type_name c = "")) as [|Hne]; [done|].
        apply truthy_spec in Hne. congruence.
      + right. apply bool_decide_eq_false in Hb. by apply dec_stable. }
  destruct (Py.endswith (tag c) "}complexType" || Py.endswith (tag c) "}simpleType") eqn:Hty.
  { assert (Hk : kind_of c = KType) by (unfold kind_of; by rewrite He, Hty).
    destruct (Py.truthy _ && bool_decide _) eqn:Hcond.
    - apply andb_true_iff in Hcond as [Ht%truthy_spec Hb%bool_decide_eq_true].
      eexists _, (Node (tag r) (attrib r) (children r ++ [c])). split.
      { unfold mbind, M_bind, add_merged_type, append_copy. simpl.
        by rewrite Hr, Hblank. }
      split; [|done]. eapply inv_append; [done|done| | |]; rewrite ?Hk; try done.
      intros k [-> | ->]; simpl; by repeat case_decide.
    - exists self, r. split; [done|]. split; [|done].
      apply inv_skip; rewrite ?Hk; [done|done|]. intros _. simpl.
      apply andb_false_iff in Hcond as [Ht|Hb].
      + left. destruct (decide (get_type_name c = "")) as [|Hne]; [done|].
        apply truthy_spec in Hne. congruence.
      + right. apply bool_decide_eq_false in Hb. by apply dec_stable. }
  destruct (Py.endswith (tag c) "}import" || Py.endswith (tag c) "}include") eqn:Him.
  { assert (Hk : kind_of c = KImport) by (unfold kind_of; by rewrite He, Hty, Him).
    eexists _, (Node (tag r) (attrib r) (children r ++ [c])). split.
    { unfold append_copy. by rewrite Hr, Hblank. }
    split; [|done]. eapply inv_append; [done|done| | |]; rewrite ?Hk; try done.
    - intros k [-> | ->]; simpl; by repeat case_decide.
    - by intros [|]. }
  assert (Hk : kind_of c = KOther) by (unfold kind_of; by rewrite He, Hty, Him).
  exists self, r. split; [done|]. split; [|done].
  apply inv_skip; rewrite ?Hk; [done|done|]. by intros [|].
Qed.

Lemma for_each_process_child_inv l seen self r :
  Forall tidy_item l →
  merge_inv seen self r →
  ∃ self' r', for_each l process_child self = Ok (tt, self') ∧
    merge_inv (seen ++ element_children l) self' r' ∧ tag r' = tag r ∧ attrib r' = attrib r.
Proof.
  intros Htidy. revert seen self r.
  induction Htidy as [|[c tail|tail] l Hc Htidy IH]; intros seen self r Hinv; simpl;
    [|simpl in Hc|done].
  - exists self, r. by rewrite app_nil_r.
  - destruct (process_element_inv _ _ _ c tail Hinv Hc)
      as (self1 & r1 & Hrun & Hinv1 & Ht1 & Ha1).
    destruct (IH _ _ _ Hinv1) as (self2 & r2 & Hrun2 & Hinv2 & Ht2 & Ha2).
    exists self2, r2. rewrite (bind_ok _ _ _ _ _ Hrun), Hrun2.
    rewrite <- app_assoc in Hinv2. split; [done|]. split; [done|]. split; congruence.
Qed.

(** The loop over the files after the first. *)
Lemma for_each_file_inv fs rest roots seen self r :
  Forall2 (λ f root, fs f = Some root) rest roots →
  Forall tidy roots →
  merge_inv seen self r →
  ∃ self' r',
    for_each rest (λ file_path,
      load_xsd fs file_path ≫= λ current_root, _process_schema current_root) self
      = Ok (tt, self') ∧
    merge_inv (seen ++ top_level roots) self' r' ∧ tag r' = tag r ∧ attrib r' = attrib r.
Proof.
  intros Hfs. revert seen self r.
  induction Hfs as [|f root rest roots Hf Hfs IH]; intros seen self r Htidy Hinv; simpl.
  - exists self, r. unfold top_level. simpl. by rewrite app_nil_r.
  - apply Forall_cons in Htidy as [Hroot Htidy].
    destruct (for_each_process_child_inv (root_items root) _ _ _ Hroot Hinv)
      as (self1 & r1 & Hrun & Hinv1 & Ht1 & Ha1).
    destruct (IH _ _ _ Htidy Hinv1) as (self2 & r2 & Hrun2 & Hinv2 & Ht2 & Ha2).
    exists self2, r2. split.
    + erewrite bind_ok; [exact Hrun2|].
      erewrite bind_ok; [|by apply load_xsd_ok]. exact Hrun.
    + unfold top_level in *. simpl. rewrite app_assoc.
      split; [done|]. split; congruence.
Qed.

Lemma merge_inv_init self m :
  merged_root self = Some m → children m = [] →
  merged_elements self = ∅ → merged_types self = ∅ →
  merge_inv [] self m.
Proof.
  intros Hr Hc He Ht. split; try done.
  - intros k n [-> | ->]; simpl; rewrite ?He, ?Ht; set_solver.
  - rewrite Hc. set_solver.
  - intros k n [-> | ->]; simpl; rewrite ?He, ?Ht, Hc; done.
  - rewrite Hc. set_solver.
  - intros pre c post Heq. by destruct pre.
  - by rewrite Hc.
  - by rewrite Hc.
Qed.

(** The whole of [merge_schemas] when every file parses and its root is
    tidy. *)
Lemma merge_schemas_inv fs first rest root roots :
  fs first = Some root →
  Forall2 (λ f root, fs f = Some root) rest roots →
  Forall tidy (root :: roots) →
  ∃ self r, merge_schemas fs (first :: rest) __init__ = Ok (Some r, self) ∧
    merge_inv (top_level (root :: roots)) self r ∧
    tag r = clark XSD "schema" ∧ attrib r = root_attrib root.
Proof.
  intros Hf Hfs [Hroot Htidy]%Forall_cons. unfold merge_schemas.
  destruct (initialize_merged_schema_spec root __init__)
    as (m & self0 & Hinit & Htag & Hattr & Hch & Hty & Hel).
  pose (self1 := {| merged_types := merged_types self0;
                    merged_elements := merged_elements self0;
                    merged_root := Some m;
                    target_namespace := target_namespace self0 |}).
  assert (Hinv0 : merge_inv [] self1 m) by (by apply merge_inv_init).
  destruct (for_each_process_child_inv (root_items root) _ _ _ Hroot Hinv0)
    as (self2 & r2 & Hrun2 & Hinv2 & Ht2 & Ha2).
  destruct (for_each_file_inv fs rest roots _ _ _ Hfs Htidy Hinv2)
    as (self3 & r3 & Hrun3 & Hinv3 & Ht3 & Ha3).
  exists self3, r3. split; [|split; [done|split; congruence]].
  erewrite bind_ok; [|by apply load_xsd_ok]. erewrite bind_ok; [|exact Hinit].
  erewrite bind_ok; [|reflexivity]. erewrite bind_ok; [|exact Hrun2].
  erewrite bind_ok; [|exact Hrun3]. unfold get_merged_root.
  by rewrite (inv_root _ _ _ Hinv3).
Qed.

(** The loop over the files returns only if every file parses. *)
Lemma for_each_file_ok fs rest self x :
  for_each rest (λ file_path,
    load_xsd fs file_path ≫= λ current_root, _process_schema current_root) self
  = Ok x →
  Forall (λ f, is_Some (fs f)) rest.
Proof.
  revert self. induction rest as [|f rest IH]; intros self Hrun; [constructor|].
  simpl in Hrun. destruct x as [[] self'].
  apply bind_ok_inv in Hrun as ([] & self1 & Hf & Hrest).
  apply bind_ok_inv in Hf as (root & self0 & Hload & _).
  constructor; [|by eapply IH].
  unfold load_xsd in Hload. by destruct (fs f).
Qed.

(** [merge_schemas] returns only for a list that is not empty and whose
    files all parse. *)
Lemma merge_schemas_ok fs file_paths self0 x :
  merge_schemas fs file_paths self0 = Ok x →
  file_paths ≠ [] ∧ Forall (λ f, is_Some (fs f)) file_paths.
Proof.
  destruct file_paths as [|first rest]; [done|]. destruct x as [r self].
  unfold merge_schemas. intros H. split; [done|].
  apply bind_ok_inv in H as (root & s1 & H1 & H).
  apply bind_ok_inv in H as (m & s2 & H2 & H).
  apply bind_ok_inv in H as ([] & s3 & H3 & H).
  apply bind_ok_inv in H as ([] & s4 & H4 & H).
  apply bind_ok_inv in H as ([] & s5 & H5 & H).
  constructor; [|by eapply for_each_file_ok].
  unfold load_xsd in H1. by destruct (fs first).
Qed.

Lemma merge_schemas_fails fs file_paths self0 x :
  file_paths = [] ∨ (∃ f, f ∈ file_paths ∧ fs f = None) →
  merge_schemas fs file_paths self0 ≠ Ok x.
Proof.
  intros Hbad Hrun. apply merge_schemas_ok in Hrun as [Hne Hall].
  destruct Hbad as [?|(f & Hin & Hf)]; [done|].
  rewrite Forall_forall in Hall. specialize (Hall f Hin). rewrite Hf in Hall.
  by destruct Hall.
Qed.

(** The only exit status that the merger asks for is 1. *)
Lemma load_xsd_exit fs f self code : load_xsd fs f self = SysExit code → code = 1%Z.
Proof. unfold load_xsd, sys_exit. destruct (fs f); [done|]. by intros [= <-]. Qed.

Lemma append_copy_exit c tail self code : append_copy c tail self ≠ SysExit code.
Proof. unfold append_copy. destruct (merged_root self); [|done]. by destruct (Py.blank tail). Qed.

Lemma process_child_exit child self code : process_child child self ≠ SysExit code.
Proof.
  destruct child as [c tail|tail]; [|done]. simpl. unfold process_element.
  repeat match goal with
  | |- context [if ?b then _ else _] => destruct b
  end; try done; try apply append_copy_exit.
  all: unfold mbind, M_bind; simpl; apply append_copy_exit.
Qed.

Lemma for_each_process_child_exit l self code :
  for_each l process_child self ≠ SysExit code.
Proof.
  revert self. induction l as [|child l IH]; intros self; [done|]. simpl.
  intros [H|(a & self1 & _ & H)]%bind_exit_inv.
  - by apply process_child_exit in H.
  - by apply IH in H.
Qed.

Lemma for_each_file_exit fs rest self code :
  for_each rest (λ file_path,
    load_xsd fs file_path ≫= λ current_root, _process_schema current_root) self
  = SysExit code → code = 1%Z.
Proof.
  revert self. induction rest as [|f rest IH]; intros self; [done|]. simpl.
  intros [H|(a & self1 & _ & H)]%bind_exit_inv; [|by eapply IH].
  apply bind_exit_inv in H as [H|(root & self1 & _ & H)]; [by eapply load_xsd_exit|].
  by apply for_each_process_child_exit in H.
Qed.

Lemma merge_schemas_exit fs file_paths self0 code :
  merge_schemas fs file_paths self0 = SysExit code → code = 1%Z.
Proof.
  destruct file_paths as [|first rest]; [by intros [= <-]|]. unfold merge_schemas.
  intros [H|(root & s1 & _ & H)]%bind_exit_inv; [by eapply load_xsd_exit|].
  apply bind_exit_inv in H as [H|(m & s2 & _ & H)]; [done|].
  apply bind_exit_inv in H as [H|([] & s3 & _ & H)]; [done|].
  apply bind_exit_inv in H as [H|([] & s4 & _ & H)];
    [by apply for_each_process_child_exit in H|].
  apply bind_exit_inv in H as [H|([] & s5 & _ & H)]; [by eapply for_each_file_exit|].
  done.
Qed.

(** What [main] leaves when [merge_schemas] does not return. *)
Lemma main_fails fs input_dir_exists xsd_files :
  (∀ x, merge_schemas fs xsd_files __init__ ≠ Ok x) →
  exit_status (main fs input_dir_exists xsd_files) = 1%Z ∧
  written (main fs input_dir_exists xsd_files) = None.
Proof.
  intros Hrun. unfold main. destruct input_dir_exists; simpl; [|done].
  destruct xsd_files as [|first rest]; [done|].
  destruct (merge_schemas fs (first :: rest) __init__) as [x|code| |] eqn:Hm;
    [by destruct (Hrun x)| |done..].
  by rewrite (merge_schemas_exit _ _ _ _ Hm).
Qed.

Lemma get_type_name_empty c :
  get_attr c "name" = None ∨ get_attr c "name" = Some "" → get_type_name c = "".
Proof. unfold get_type_name, get_attr_default, get_attr. by intros [-> | ->]. Qed.

Lemma Forall2_parse_cons fs (file_paths : list string) (roots : list schema) :
  file_paths ≠ [] →
  Forall2 (λ f root, fs f = Some root) file_paths roots →
  ∃ first rest root roots', file_paths = first :: rest ∧ roots = root :: roots' ∧
    fs first = Some root ∧ Forall2 (λ f root, fs f = Some root) rest roots'.
Proof. intros Hne H. destruct H; [done|]. by eexists _, _, _, _. Qed.

(** *** What a run that returns has done *)

Lemma process_child_ok child self self' r :
  merged_root self = Some r →
  process_child child self = Ok (tt, self') →
  ∃ extra, merged_root self' = Some (Node (tag r) (attrib r) (children r ++ extra)) ∧
    target_namespace self' = target_namespace self.
Proof.
  intros Hr. destruct child as [c tail|tail]; [|done]. simpl. unfold process_element.
  assert (Hsame : Ok (tt, self) = Ok (tt, self') →
    ∃ extra, merged_root self' = Some (Node (tag r) (attrib r) (children r ++ extra)) ∧
      target_namespace self' = target_namespace self).
  { intros [= <-]. exists []. rewrite app_nil_r. by destruct r. }
  destruct (Py.endswith (tag c) "}element").
  { destruct (Py.truthy _ && bool_decide _); [|done].
    unfold mbind, M_bind, add_merged_element, append_copy. simpl. rewrite Hr.
    destruct (Py.blank tail); [|done]. intros [= <-]. by exists [c]. }
  destruct (Py.endswith (tag c) "}complexType" || Py.endswith (tag c) "}simpleType").
  { destruct (Py.truthy _ && bool_decide _); [|done].
    unfold mbind, M_bind, add_merged_type, append_copy. simpl. rewrite Hr.
    destruct (Py.blank tail); [|done]. intros [= <-]. by exists [c]. }
  destruct (Py.endswith (tag c) "}import" || Py.endswith (tag c) "}include"); [|done].
  unfold append_copy. rewrite Hr.
  destruct (Py.blank tail); [|done]. intros [= <-]. by exists [c].
Qed.

Lemma for_each_process_child_ok l self self' r :
  merged_root self = Some r →
  for_each l process_child self = Ok (tt, self') →
  ∃ extra, merged_root self' = Some (Node (tag r) (attrib r) (children r ++ extra)) ∧
    target_namespace self' = target_namespace self.
Proof.
  revert self r. induction l as [|child l IH]; intros self r Hr; simpl.
  - intros [= <-]. exists []. rewrite app_nil_r. by destruct r.
  - intros ([] & self1 & H1 & H2)%bind_ok_inv.
    destruct (process_child_ok _ _ _ _ Hr H1) as (x1 & Hr1 & Hn1).
    destruct (IH _ _ Hr1 H2) as (x2 & Hr2 & Hn2). simpl in Hr2.
    exists (x1 ++ x2)%list. rewrite Hr2, app_assoc. split; [done|congruence].
Qed.

Lemma for_each_file_ok_root fs rest self self' r :
  merged_root self = Some r →
  for_each rest (λ file_path,
    load_xsd fs file_path ≫= λ current_root, _process_schema current_root) self
  = Ok (tt, self') →
  ∃ extra, merged_root self' = Some (Node (tag r) (attrib r) (children r ++ extra)) ∧
    target_namespace self' = target_namespace self.
Proof.
  revert self r. induction rest as [|f rest IH]; intros self r Hr; simpl.
  - intros [= <-]. exists []. rewrite app_nil_r. by destruct r.
  - intros ([] & self1 & H1 & H2)%bind_ok_inv.
    apply bind_ok_inv in H1 as (root & self0 & Hload & H1).
    assert (self0 = self) as ->.
    { unfold load_xsd in Hload. destruct (fs f); [|done]. by injection Hload. }
    destruct (for_each_process_child_ok _ _ _ _ Hr H1) as (x1 & Hr1 & Hn1).
    destruct (IH _ _ Hr1 H2) as (x2 & Hr2 & Hn2). simpl in Hr2.
    exists (x1 ++ x2)%list. rewrite Hr2, app_assoc. split; [done|congruence].
Qed.

(** Whenever [merge_schemas] returns, the first file parsed and the root
    it returns is the root of the merger, with the schema tag, the
    attributes of the first root and its target namespace. *)
Lemma merge_schemas_returns fs first rest r self :
  merge_schemas fs (first :: rest) __init__ = Ok (Some r, self) →
  ∃ root, fs first = Some root ∧ merged_root self = Some r ∧
    tag r = clark XSD "schema" ∧ attrib r = root_attrib root ∧
    target_namespace self =
      match root_attrib root !! "targetNamespace" with Some v => v | None => "" end.
Proof.
  unfold merge_schemas. intros H.
  apply bind_ok_inv in H as (root & s1 & H1 & H).
  apply bind_ok_inv in H as (m & s2 & H2 & H).
  apply bind_ok_inv in H as ([] & s3 & H3 & H).
  apply bind_ok_inv in H as ([] & s4 & H4 & H).
  apply bind_ok_inv in H as ([] & s5 & H5 & H).
  unfold get_merged_root in H. injection H as Hr <-.
  unfold load_xsd in H1. destruct (fs first) as [root'|]; [|done].
  assert (root' = root ∧ s1 = __init__) as [-> ->] by (by injection H1).
  exists root. split; [done|]. split; [done|].
  destruct (initialize_merged_schema_spec root __init__)
    as (m' & s2' & Hinit & Htag & Hattr & _).
  assert (m' = m ∧ s2' = s2) as [-> ->] by (split; congruence).
  assert (Hns : target_namespace s2 =
            match root_attrib root !! "targetNamespace" with Some v => v | None => "" end).
  { unfold initialize_merged_schema in H2. by injection H2 as _ <-. }
  unfold set_merged_root in H3. injection H3 as <-.
  unfold _process_schema in H4.
  eapply for_each_process_child_ok in H4 as (x4 & Hr4 & Hn4); [|reflexivity].
  destruct (for_each_file_ok_root _ _ _ _ _ Hr4 H5) as (x5 & Hr5 & Hn5).
  rewrite Hr5 in Hr. injection Hr as <-. simpl in *.
  split; [done|]. split; [done|]. congruence.
Qed.

(** *** The claims about the merger *)

(** X20.  When every input file parses and is tidy (its root has no
    processing instruction among its children and at most blank text
    after each child element), [merge_schemas] returns a merged root
    whose children [merged], against the top-level child elements
    [input] of the files in file-list order, satisfy: an element child,
    and a complexType or simpleType child, stands in [merged] only after
    children of its kind with other names; the named children of
    [merged] are first occurrences in [input], and every first
    occurrence with a name is in [merged]; every element or type name of
    [input] is declared exactly once in [merged] (so also when a file is
    listed twice); every import and include child of [input] is in
    [merged], none left out; and [merged] keeps the order of [input]. *)
Theorem merge_first_occurrence_wins fs (file_paths : list string) (roots : list schema) :
  file_paths ≠ [] →
  Forall2 (λ f root, fs f = Some root) file_paths roots →
  Forall tidy roots →
  ∃ self r, merge_schemas fs file_paths __init__ = Ok (Some r, self) ∧
    (∀ pre c post, children r = (pre ++ c :: post)%list →
       named (kind_of c) → first_of_its_name pre c) ∧
    (∀ c, c ∈ children r → named (kind_of c) →
       ∃ pre post, top_level roots = (pre ++ c :: post)%list ∧ first_of_its_name pre c) ∧
    (∀ pre c post, top_level roots = (pre ++ c :: post)%list →
       named (kind_of c) → get_type_name c ≠ "" → first_of_its_name pre c →
       c ∈ children r) ∧
    (∀ c, c ∈ top_level roots → named (kind_of c) → get_type_name c ≠ "" →
       length (declarations (kind_of c) (get_type_name c) (children r)) = 1) ∧
    filter (λ c, kind_of c = KImport) (children r) =
      filter (λ c, kind_of c = KImport) (top_level roots) ∧
    children r `sublist_of` top_level roots.
Proof.
  intros Hne Hfs Htidy.
  destruct (Forall2_parse_cons _ _ _ Hne Hfs)
    as (first & rest & root & roots' & -> & -> & Hf & Hrest).
  destruct (merge_schemas_inv fs first rest root roots' Hf Hrest Htidy)
    as (self & r & Hrun & Hinv & _).
  exists self, r. split; [done|].
  destruct Hinv as [Hr Hn Hk Ho Hfi Hfin Hi Hs].
  split; [|split; [done|split; [done|split; [|done]]]].
  - intros pre c post Heq Hnamed c' Hc' Hkc Hnc.
    pose proof (Ho (kind_of c) (get_type_name c) Hnamed) as Hlen.
    rewrite Heq in Hlen. unfold declarations in Hlen.
    rewrite filter_app, filter_cons, length_app in Hlen.
    rewrite decide_True in Hlen by done. simpl in Hlen.
    assert (0 < length (filter (λ c0, kind_of c0 = kind_of c ∧
              get_type_name c0 = get_type_name c) pre)).
    { apply list_elem_of_split in Hc' as (l1 & l2 & ->).
      rewrite filter_app, filter_cons, decide_True, length_app by done. simpl. lia. }
    case_decide; lia.
  - intros c Hc Hnamed Hne'. rewrite Ho by done.
    rewrite decide_True; [done|]. apply Hn; [done|]. split; [done|]. by exists c.
Qed.

Lemma merge_first_occurrence_wins_witness :
  let file_paths := ["first.xsd"; "second.xsd"; "first.xsd"] in
  let roots := [MergeSamples.first_root; MergeSamples.second_root; MergeSamples.first_root] in
  file_paths ≠ [] ∧
  Forall2 (λ f root, MergeSamples.fs f = Some root) file_paths roots ∧
  Forall tidy roots ∧
  ∃ self r, merge_schemas MergeSamples.fs file_paths __init__ = Ok (Some r, self) ∧
    length (declarations KType "Address" (children r)) = 1.
Proof.
  intros file_paths roots.
  assert (Hne : file_paths ≠ []) by done.
  assert (Hfs : Forall2 (λ f root, MergeSamples.fs f = Some root) file_paths roots)
    by (repeat constructor).
  assert (Htidy : Forall tidy roots) by (repeat constructor).
  do 3 (split; [assumption|]).
  destruct (merge_first_occurrence_wins MergeSamples.fs file_paths roots Hne Hfs Htidy)
    as (self & r & Hrun & _ & _ & _ & Honce & _).
  exists self, r. split; [done|].
  pose (c := Node (MergeSamples.xs "simpleType") {[ "name" := "Address" ]} []).
  assert (Hk : kind_of c = KType) by reflexivity.
  assert (Hn : get_type_name c = "Address") by reflexivity.
  rewrite <- Hk, <- Hn. apply Honce.
  - apply list_elem_of_lookup. by exists 5.
  - right. exact Hk.
  - rewrite Hn. discriminate.
Defined.

(** C3.  In [text.xsd] the import is followed by the word [stray].  The
    copy of the import goes through [etree.tostring], which writes the
    word after the element, and [etree.fromstring], which raises an
    [XMLSyntaxError] on it: the import is not appended, [merge_schemas]
    does not return and [main] ends with status 1 and no output. *)
Theorem import_before_text_not_appended :
  MergeSamples.fs "text.xsd" = Some MergeSamples.text_root ∧
  root_items MergeSamples.text_root =
    [ Element (Node (clark XSD "import") {[ "namespace" := "urn:common" ]} []) "stray" ] ∧
  kind_of (Node (clark XSD "import") {[ "namespace" := "urn:common" ]} []) = KImport ∧
  merge_schemas MergeSamples.fs ["first.xsd"; "text.xsd"] __init__ = XMLSyntaxError ∧
  main MergeSamples.fs true ["first.xsd"; "text.xsd"]
    = {| exit_status := 1; written := None |}.
Proof. vm_compute. repeat split; reflexivity. Qed.

(** C8 as stated, with the namespace declarations counted among the
    root attributes as the specification has it, fails: [first_root]
    and [first_root_undeclared] differ in their declarations only and
    give the same merged root, so that no reading of declarations off
    the merged root gives those of the first root for both. *)
Lemma namespace_declarations_not_copied :
  ¬ ∃ declarations_of : node → list (option string * string),
      ∀ root, root ∈ [MergeSamples.first_root; MergeSamples.first_root_undeclared] →
        ∀ self r,
          merge_schemas (λ _, Some root) ["first.xsd"] __init__ = Ok (Some r, self) →
          declarations_of r = root_nsmap root.
Proof.
  intros [declarations_of H].
  assert (Hsame : merge_schemas (λ _, Some MergeSamples.first_root) ["first.xsd"] __init__
                  = merge_schemas (λ _, Some MergeSamples.first_root_undeclared)
                      ["first.xsd"] __init__) by (vm_compute; reflexivity).
  destruct (merge_schemas_inv (λ _, Some MergeSamples.first_root) "first.xsd" []
              MergeSamples.first_root [] eq_refl ltac:(constructor))
    as (self & r & Hrun & _).
  { repeat constructor. }
  pose proof (H _ ltac:(left) self r Hrun) as H1.
  rewrite Hsame in Hrun.
  pose proof (H _ ltac:(right; left) self r Hrun) as H2.
  rewrite H1 in H2. discriminate H2.
Qed.

(** C8, amended.  Whenever [merge_schemas] returns a root, the first
    file parsed and the attributes of the returned root ([.attrib],
    which leaves the namespace declarations out) are exactly those of
    the root of the first file, whatever the roots of the later files
    carry. *)
Theorem merged_root_attributes fs (first : string) (rest : list string) r self :
  merge_schemas fs (first :: rest) __init__ = Ok (Some r, self) →
  ∃ root, fs first = Some root ∧ merged_root self = Some r ∧
    attrib r = root_attrib root.
Proof.
  intros (root & ? & ? & _ & ? & _)%merge_schemas_returns. by exists root.
Qed.

Lemma merged_root_attributes_witness :
  ∃ self r,
    merge_schemas MergeSamples.fs ["first.xsd"; "second.xsd"] __init__ = Ok (Some r, self) ∧
    ∃ root, MergeSamples.fs "first.xsd" = Some root ∧ merged_root self = Some r ∧
      attrib r = root_attrib root ∧
      attrib r = {[ "targetNamespace" := "urn:first" ]}.
Proof.
  assert (H : ∃ x, merge_schemas MergeSamples.fs ["first.xsd"; "second.xsd"] __init__
                   = Ok (Some x.1, x.2)) by (vm_compute; by eexists (_, _)).
  destruct H as [[r self] H]. simpl in H. exists self, r. split; [assumption|].
  destruct (merged_root_attributes MergeSamples.fs "first.xsd" ["second.xsd"] r self H)
    as (root & Hroot & Hr & Hattr).
  exists root. do 3 (split; [assumption|]).
  rewrite Hattr. assert (root = MergeSamples.first_root) as -> by (by injection Hroot).
  reflexivity.
Defined.

(** C9.  With an empty file list, or a file in the list that does not
    parse, [merge_schemas] does not return, and the run of [main] ends
    with status 1 and has written no output file. *)
Theorem merger_fail_fast fs (input_dir_exists : bool) (xsd_files : list string) :
  xsd_files = [] ∨ (∃ f, f ∈ xsd_files ∧ fs f = None) →
  (∀ x, merge_schemas fs xsd_files __init__ ≠ Ok x) ∧
  exit_status (main fs input_dir_exists xsd_files) = 1%Z ∧
  written (main fs input_dir_exists xsd_files) = None.
Proof.
  intros H.
  assert (Hrun : ∀ x, merge_schemas fs xsd_files __init__ ≠ Ok x)
    by (intros x; by apply merge_schemas_fails).
  split; [done|]. by apply main_fails.
Qed.

Lemma merger_fail_fast_witness :
  let xsd_files := ["first.xsd"; "missing.xsd"] in
  (xsd_files = [] ∨ (∃ f, f ∈ xsd_files ∧ MergeSamples.fs f = None)) ∧
  merge_schemas MergeSamples.fs xsd_files __init__ = SysExit 1 ∧
  (∀ x, merge_schemas MergeSamples.fs xsd_files __init__ ≠ Ok x) ∧
  exit_status (main MergeSamples.fs true xsd_files) = 1%Z ∧
  written (main MergeSamples.fs true xsd_files) = None.
Proof.
  intros xsd_files.
  assert (H : xsd_files = [] ∨ (∃ f, f ∈ xsd_files ∧ MergeSamples.fs f = None)).
  { right. exists "missing.xsd". split; [|reflexivity].
    apply elem_of_cons. right. apply elem_of_cons. by left. }
  split; [exact H|]. split; [vm_compute; reflexivity|].
  exact (merger_fail_fast MergeSamples.fs true xsd_files H).
Defined.

(** X21.  When the files parse and are tidy, [merge_schemas] returns,
    and a top-level child element that is an element, complexType or
    simpleType whose name attribute is missing or empty, or that falls in
    none of the branches of [_process_schema], is not among the children
    of the merged root. *)
Theorem nameless_and_other_children_omitted fs (file_paths : list string)
    (roots : list schema) :
  file_paths ≠ [] →
  Forall2 (λ f root, fs f = Some root) file_paths roots →
  Forall tidy roots →
  ∃ self r, merge_schemas fs file_paths __init__ = Ok (Some r, self) ∧
    ∀ c, c ∈ top_level roots →
      (named (kind_of c) ∧ (get_attr c "name" = None ∨ get_attr c "name" = Some ""))
      ∨ kind_of c = KOther →
      c ∉ children r.
Proof.
  intros Hne Hfs Htidy.
  destruct (Forall2_parse_cons _ _ _ Hne Hfs)
    as (first & rest & root & roots' & -> & -> & Hf & Hrest).
  destruct (merge_schemas_inv fs first rest root roots' Hf Hrest Htidy)
    as (self & r & Hrun & Hinv & _).
  exists self, r. split; [done|]. intros c _ Hc Hin.
  destruct (inv_kinds _ _ _ Hinv c Hin) as [Hoth Hname].
  destruct Hc as [[Hnamed Hempty%get_type_name_empty]|?]; [|done].
  by apply Hname.
Qed.

Lemma nameless_and_other_children_omitted_witness :
  let file_paths := ["first.xsd"; "second.xsd"] in
  let roots := [MergeSamples.first_root; MergeSamples.second_root] in
  file_paths ≠ [] ∧
  Forall2 (λ f root, MergeSamples.fs f = Some root) file_paths roots ∧
  Forall tidy roots ∧
  ∃ self r, merge_schemas MergeSamples.fs file_paths __init__ = Ok (Some r, self) ∧
    (Node (MergeSamples.xs "annotation") ∅ [] ∉ children r) ∧
    (Node (MergeSamples.xs "complexType") ∅ [] ∉ children r).
Proof.
  intros file_paths roots.
  assert (Hne : file_paths ≠ []) by done.
  assert (Hfs : Forall2 (λ f root, MergeSamples.fs f = Some root) file_paths roots)
    by (repeat constructor).
  assert (Htidy : Forall tidy roots) by (repeat constructor).
  do 3 (split; [assumption|]).
  destruct (nameless_and_other_children_omitted MergeSamples.fs file_paths roots Hne Hfs Htidy)
    as (self & r & Hrun & Homit).
  exists self, r. split; [done|]. split; apply Homit.
  - apply list_elem_of_lookup. by exists 3.
  - right. reflexivity.
  - apply list_elem_of_lookup. by exists 7.
  - left. split; [right|left]; reflexivity.
Defined.

(** C10.  In [instruction.xsd] a processing instruction stands between
    two declarations.  It is a child of the root of a kind other than
    those that are merged, and it is not passed over: its [tag] is no
    string, [child.tag.endswith] raises an [AttributeError],
    [merge_schemas] does not return and [main] ends with status 1 and no
    output.  (Comments, which would fail the same way, are taken out by
    the parser.) *)
Theorem processing_instruction_raises :
  MergeSamples.fs "instruction.xsd" = Some MergeSamples.instruction_root ∧
  root_items MergeSamples.instruction_root !! 1 = Some (ProcessingInstruction "") ∧
  merge_schemas MergeSamples.fs ["instruction.xsd"] __init__ = AttributeError ∧
  main MergeSamples.fs true ["instruction.xsd"]
    = {| exit_status := 1; written := None |}.
Proof. vm_compute. repeat split; reflexivity. Qed.

End MergerProofs.

(** ** Properties of the rewriter *)

Module RewriterProofs.
Import Xml XsdParse TreeProofs.

(** *** Strings *)

Lemma append_cons (x : ascii) (a b : string) : String x a +:+ b = String x (a +:+ b).
Proof. done. Qed.

Lemma append_inj (a b c : string) : a +:+ b = a +:+ c → b = c.
Proof.
  induction a as [|x a IH]; [done|]. rewrite !append_cons. intros [=]. by apply IH.
Qed.

Lemma append_assoc (a b c : string) : (a +:+ b) +:+ c = a +:+ b +:+ c.
Proof. induction a as [|x a IH]; [done|]. by rewrite !append_cons, IH. Qed.

Lemma prefix_append (a b : string) : String.prefix a (a +:+ b) = true.
Proof.
  induction a as [|x a IH]; [by destruct b|].
  rewrite append_cons. simpl. by destruct (ascii_dec x x).
Qed.

Lemma prefix_append_r (a b c : string) : String.prefix (a +:+ b) (a +:+ b +:+ c) = true.
Proof. rewrite <- append_assoc. apply prefix_append. Qed.

Lemma truthy_append (a : string) (x : ascii) (b : string) :
  Py.truthy (a +:+ String x b) = true.
Proof. by destruct a. Qed.

Section rewriter.
Context (xs : string).

Abbreviation narrow := (is_narrow_target xs).
Abbreviation str := (string_type xs).

Lemma narrow_targets_prefixed ty :
  ty ∈ narrow_targets xs → ∃ x l, ty = xs +:+ String ":" (String x l).
Proof.
  unfold narrow_targets. rewrite !elem_of_cons, elem_of_nil.
  intros [->|[->|[->|[->|[]]]]]; by eexists _, _.
Qed.

Lemma string_type_not_narrow : narrow (Some str) = false.
Proof.
  simpl. apply bool_decide_eq_false. unfold narrow_targets, string_type.
  rewrite !elem_of_cons, elem_of_nil.
  intros [H|[H|[H|[H|[]]]]]; by apply append_inj in H.
Qed.

Lemma narrow_not_reference o : narrow o = true → is_type_reference xs o = false.
Proof.
  destruct o as [ty|]; [|done]. simpl. intros H%bool_decide_eq_true.
  apply narrow_targets_prefixed in H as (x & l & ->).
  apply andb_false_iff. right. apply negb_false_iff.
  unfold Py.startswith. apply (prefix_append_r xs ":" (String x l)).
Qed.

Lemma string_type_not_reference : is_type_reference xs (Some str) = false.
Proof.
  simpl. apply andb_false_iff. right. apply negb_false_iff.
  unfold Py.startswith, string_type. apply (prefix_append_r xs ":" "string").
Qed.

Lemma narrow_truthy ty : narrow (Some ty) = true → Py.truthy ty = true.
Proof.
  simpl. intros H%bool_decide_eq_true.
  apply narrow_targets_prefixed in H as (x & l & ->). apply truthy_append.
Qed.

#[local] Arguments is_type_reference : simpl never.
#[local] Arguments is_narrow_target : simpl never.

(** *** One narrowing step *)

Lemma narrow_direct_narrow_at t elem : narrow_direct xs t elem = narrow_at xs elem t.
Proof.
  unfold narrow_direct, narrow_at. destruct (attr_at t elem "type") as [ty|]; [|done].
  destruct (narrow (Some ty)) eqn:Hn.
  - by rewrite (narrow_truthy _ Hn).
  - by rewrite andb_false_r.
Qed.

Lemma visit_nested_tree processed acc elem :
  (visit_nested xs processed acc elem).2 = narrow_at xs elem acc.2.
Proof. done. Qed.

Lemma narrow_at_paths elem t : paths (narrow_at xs elem t) = paths t.
Proof. unfold narrow_at. destruct (narrow _); [apply paths_update|done]. Qed.

Lemma narrow_at_tag_at elem t q : tag_at (narrow_at xs elem t) q = tag_at t q.
Proof. unfold narrow_at. destruct (narrow _); [apply tag_at_update|done]. Qed.

Lemma narrow_at_attrib_at elem t q :
  attrib_at (narrow_at xs elem t) q =
  if decide (q = elem) then
    if narrow (attr_at t q "type") then insert "type" str <$> attrib_at t q
    else attrib_at t q
  else attrib_at t q.
Proof.
  unfold narrow_at. destruct (decide (q = elem)) as [->|Hne].
  - destruct (narrow _); [|done]. by rewrite attrib_at_update, decide_True.
  - destruct (narrow _); [|done]. by rewrite attrib_at_update, decide_False.
Qed.

(** *** Trees narrowed from a tree *)

Lemma narrowed_from_refl t : narrowed_from xs t t.
Proof. split; auto. Qed.

Lemma narrow_attrib_some t q :
  narrow (attr_at t q "type") = true → ∃ a, attrib_at t q = Some a.
Proof.
  rewrite attr_at_attrib_at. destruct (attrib_at t q) as [a|]; [by exists a|done].
Qed.

Lemma attr_at_inserted t t0 q :
  narrow (attr_at t0 q "type") = true →
  attrib_at t q = insert "type" str <$> attrib_at t0 q →
  attr_at t q "type" = Some str.
Proof.
  intros [a Ha]%narrow_attrib_some Heq. rewrite attr_at_attrib_at, Heq, Ha. simpl.
  by rewrite lookup_insert_eq.
Qed.

Lemma narrowed_from_trans t0 t1 t2 :
  narrowed_from xs t0 t1 → narrowed_from xs t1 t2 → narrowed_from xs t0 t2.
Proof.
  intros [Hp1 Ht1 Ha1] [Hp2 Ht2 Ha2]. split.
  - congruence.
  - intros q. by rewrite Ht2.
  - intros q.
    destruct (Ha2 q) as [H2|(Hg2 & Hn2 & H2)], (Ha1 q) as [H1|(Hg1 & Hn1 & H1)].
    + left. congruence.
    + right. split; [done|]. split; [done|congruence].
    + right. split; [by rewrite <- Ht1|].
      rewrite !attr_at_attrib_at, H1 in Hn2. rewrite H1 in H2.
      by rewrite !attr_at_attrib_at.
    + rewrite (attr_at_inserted _ _ _ Hn1 H1), string_type_not_narrow in Hn2. done.
Qed.

Lemma narrowed_from_narrow_at t elem :
  tag_at t elem = Some (name_test xs "element") →
  narrowed_from xs t (narrow_at xs elem t).
Proof.
  intros Htag. split.
  - apply narrow_at_paths.
  - apply narrow_at_tag_at.
  - intros q. rewrite narrow_at_attrib_at. destruct (decide _) as [->|]; [|by left].
    destruct (narrow _) eqn:Hn; [by right|by left].
Qed.

(** The type attribute under narrowing. *)
Lemma narrowed_from_type t0 t q :
  narrowed_from xs t0 t →
  attr_at t q "type" = attr_at t0 q "type" ∨
  (narrow (attr_at t0 q "type") = true ∧ attr_at t q "type" = Some str).
Proof.
  intros [_ _ Ha]. destruct (Ha q) as [H|(_ & Hn & H)].
  - left. by rewrite !attr_at_attrib_at, H.
  - right. split; [done|]. by eapply attr_at_inserted.
Qed.

Lemma narrowed_from_other t0 t q k :
  narrowed_from xs t0 t → k ≠ "type" → attr_at t q k = attr_at t0 q k.
Proof.
  intros [_ _ Ha] Hk. rewrite !attr_at_attrib_at.
  destruct (Ha q) as [->|(_ & _ & ->)]; [done|].
  destruct (attrib_at t0 q); simpl; [|done]. by rewrite lookup_insert_ne.
Qed.

Lemma narrowed_from_reference t0 t q :
  narrowed_from xs t0 t →
  is_type_reference xs (attr_at t q "type") = true →
  attr_at t q "type" = attr_at t0 q "type".
Proof.
  intros Hnf Href. destruct (narrowed_from_type _ _ q Hnf) as [?|[_ Hs]]; [done|].
  by rewrite Hs, string_type_not_reference in Href.
Qed.

Lemma narrowed_from_reference_inv t0 t q :
  narrowed_from xs t0 t →
  is_type_reference xs (attr_at t0 q "type") = true →
  attr_at t q "type" = attr_at t0 q "type".
Proof.
  intros Hnf Href. destruct (narrowed_from_type _ _ q Hnf) as [?|[Hn _]]; [done|].
  by rewrite (narrow_not_reference _ Hn) in Href.
Qed.

Lemma narrowed_from_still_narrowed t0 t q :
  narrowed_from xs t0 t →
  narrow (attr_at t0 q "type") = false → narrow (attr_at t q "type") = false.
Proof.
  intros Hnf Hn. destruct (narrowed_from_type _ _ q Hnf) as [->|[Hn' _]]; congruence.
Qed.

Lemma narrowed_from_elements_in t0 t c :
  narrowed_from xs t0 t → elements_in xs t c = elements_in xs t0 c.
Proof. intros [Hp Ht _]. by apply descendants_same. Qed.

Lemma narrowed_from_complex_types_named t0 t name :
  narrowed_from xs t0 t → complex_types_named xs t name = complex_types_named xs t0 name.
Proof.
  intros Hnf. unfold complex_types_named.
  rewrite (descendants_same t0 t) by apply Hnf.
  apply list_filter_iff. intros q. simpl. by rewrite (narrowed_from_other _ _ _ _ Hnf).
Qed.

Lemma elements_in_tag t c elem :
  elem ∈ elements_in xs t c → tag_at t elem = Some (name_test xs "element").
Proof. unfold elements_in. rewrite descendants_below. naive_solver. Qed.

(** *** The loops over the elements of a complex type *)

Lemma narrow_at_narrowed elem t :
  narrow (attr_at (narrow_at xs elem t) elem "type") = false.
Proof.
  rewrite attr_at_attrib_at, narrow_at_attrib_at, decide_True by done.
  destruct (narrow (attr_at t elem "type")) eqn:Hn.
  - destruct (narrow_attrib_some _ _ Hn) as [a Ha]. rewrite Ha. simpl.
    rewrite lookup_insert_eq. apply string_type_not_narrow.
  - by rewrite <- attr_at_attrib_at.
Qed.

Lemma narrow_fold elems t :
  (∀ elem, elem ∈ elems → tag_at t elem = Some (name_test xs "element")) →
  let t' := foldl (λ t elem, narrow_at xs elem t) t elems in
  narrowed_from xs t t' ∧
  (∀ elem, elem ∈ elems → narrow (attr_at t' elem "type") = false) ∧
  (∀ q, q ∉ elems → attrib_at t' q = attrib_at t q).
Proof.
  revert t. induction elems as [|e elems IH]; intros t Htags; simpl.
  - split; [apply narrowed_from_refl|]. split; [by intros ? ?%elem_of_nil|done].
  - destruct (IH (narrow_at xs e t)) as (Hnf & Hin & Hout).
    { intros e' He'. rewrite narrow_at_tag_at. apply Htags. by right. }
    split; [|split].
    + eapply narrowed_from_trans; [apply narrowed_from_narrow_at, Htags; left|done].
    + intros e' [->|He']%elem_of_cons; [|by apply Hin].
      eapply narrowed_from_still_narrowed; [done|]. apply narrow_at_narrowed.
    + intros q [Hqe Hq]%not_elem_of_cons. rewrite Hout by done.
      by rewrite narrow_at_attrib_at, decide_False.
Qed.

Lemma narrow_direct_fold elems t :
  foldl (narrow_direct xs) t elems = foldl (λ t elem, narrow_at xs elem t) t elems.
Proof.
  revert t. induction elems as [|e elems IH]; intros t; simpl; [done|].
  by rewrite IH, narrow_direct_narrow_at.
Qed.

(** The loop of lines 77-86: what it appends to the queue and what it
    does to the tree. *)
Lemma visit_nested_fold processed elems queue t :
  (∀ elem, elem ∈ elems → tag_at t elem = Some (name_test xs "element")) →
  let r := foldl (visit_nested xs processed) (queue, t) elems in
  r.2 = foldl (λ t elem, narrow_at xs elem t) t elems ∧
  ∃ added, r.1 = (queue ++ added)%list ∧ length added ≤ length elems ∧
    ∀ ty, ty ∈ added ↔
      ∃ elem, elem ∈ elems ∧ attr_at t elem "type" = Some ty ∧
        is_type_reference xs (Some ty) = true ∧ ty ∉ processed.
Proof.
  revert queue t. induction elems as [|e elems IH]; intros queue t Htags; simpl.
  - split; [done|]. exists []. rewrite app_nil_r. split; [done|]. split; [done|].
    intros ty. split; [by intros ?%elem_of_nil|]. by intros (? & ?%elem_of_nil & _).
  - set (acc := visit_nested xs processed (queue, t) e).
    destruct (IH acc.1 acc.2) as (Htree & added & Hq & Hlen & Hadded).
    { intros e' He'. unfold acc. rewrite visit_nested_tree, narrow_at_tag_at.
      apply Htags. by right. }
    rewrite <- surjective_pairing in Htree, Hq. split; [exact Htree|].
    assert (Hrefs : ∀ e' ty, is_type_reference xs (Some ty) = true →
              attr_at acc.2 e' "type" = Some ty ↔ attr_at t e' "type" = Some ty).
    { intros e' ty Href.
      pose proof (narrowed_from_narrow_at t e (Htags e ltac:(left))) as Hnf.
      split; intros H.
      - rewrite <- H. symmetry. apply narrowed_from_reference; [done|].
        by rewrite H.
      - rewrite <- H. apply narrowed_from_reference_inv; [done|]. by rewrite H. }
    destruct (attr_at t e "type") as [ty0|] eqn:Hty0.
    + destruct (is_type_reference xs (Some ty0) && bool_decide (ty0 ∉ processed)) eqn:Hc.
      * apply andb_true_iff in Hc as [Href Hnp%bool_decide_eq_true].
        exists (ty0 :: added). split; [|split].
        -- rewrite Hq. unfold acc, visit_nested. simpl. rewrite Hty0.
           rewrite Href. rewrite bool_decide_eq_true_2 by done. simpl.
           by rewrite <- app_assoc.
        -- simpl. lia.
        -- intros ty. rewrite elem_of_cons, Hadded. split.
           ++ intros [->|(e' & He' & Hty & Href' & Hnp')].
              ** exists e. split; [left|done].
              ** exists e'. split; [by right|]. by rewrite <- Hrefs.
           ++ intros (e' & [->|He']%elem_of_cons & Hty & Href' & Hnp').
              ** left. congruence.
              ** right. exists e'. by rewrite Hrefs.
      * exists added. split; [|split].
        -- rewrite Hq. unfold acc, visit_nested. simpl. by rewrite Hty0, Hc.
        -- simpl. lia.
        -- intros ty. rewrite Hadded. split.
           ++ intros (e' & He' & Hty & Href' & Hnp').
              exists e'. split; [by right|]. by rewrite <- Hrefs.
           ++ intros (e' & [->|He']%elem_of_cons & Hty & Href' & Hnp').
              ** assert (ty = ty0) as -> by congruence.
                 rewrite Href' in Hc. simpl in Hc.
                 by apply bool_decide_eq_false in Hc.
              ** exists e'. by rewrite Hrefs.
    + exists added. split; [|split].
      * rewrite Hq. unfold acc, visit_nested. simpl. by rewrite Hty0.
      * simpl. lia.
      * intros ty. rewrite Hadded. split.
        -- intros (e' & He' & Hty & Href' & Hnp').
           exists e'. split; [by right|]. by rewrite <- Hrefs.
        -- intros (e' & [->|He']%elem_of_cons & Hty & Href' & Hnp'); [congruence|].
           exists e'. by rewrite Hrefs.
Qed.

(** *** The worklist loop *)

Lemma find_complex_type_rejecting t c :
  find_complex_type xs rejecting t c =
  if Py.has_apostrophe c then XPathEvalError else Nodes (complex_types_named xs t c).
Proof.
  unfold find_complex_type, rejecting.
  destruct (Py.has_apostrophe c); simpl; [by destruct (unfinished_literal c)|done].
Qed.

Lemma find_complex_type_plain injected t c :
  (Py.has_apostrophe c = true → unfinished_literal c = true) →
  find_complex_type xs injected t c = find_complex_type xs rejecting t c.
Proof.
  intros Hc. unfold find_complex_type, rejecting.
  destruct (Py.has_apostrophe c); simpl; [|done]. by rewrite Hc.
Qed.

Lemma type_values_spec t ty :
  ty ∈ type_values t ↔ ∃ q, q ∈ paths t ∧ attr_at t q "type" = Some ty.
Proof.
  unfold type_values. rewrite elem_of_list_to_set, list_elem_of_omap. naive_solver.
Qed.

Lemma elements_in_paths t c elem : elem ∈ elements_in xs t c → elem ∈ paths t.
Proof. unfold elements_in. rewrite descendants_below. naive_solver. Qed.

Lemma length_elements_in t c : length (elements_in xs t c) ≤ length (paths t).
Proof. apply length_filter. Qed.

(** The expansion of any node [d], be it the declaration of a name or a
    node that an injected query selects: the tree stays narrowed from the
    tree [t0] the loop started from, and what is appended to the queue
    are type values of [t0] that are taken for type names. *)
Lemma expand_frame t0 t d processed rest :
  narrowed_from xs t0 t →
  let r := foldl (visit_nested xs processed) (rest, t) (elements_in xs t d) in
  narrowed_from xs t0 r.2 ∧
  ∃ added, r.1 = (rest ++ added)%list ∧
    (∀ ty, ty ∈ added →
       ∃ q, q ∈ paths t0 ∧ attr_at t0 q "type" = Some ty ∧
            is_type_reference xs (Some ty) = true) ∧
    length added ≤ length (paths t0).
Proof.
  intros Ht r.
  destruct (visit_nested_fold processed (elements_in xs t d) rest t)
    as (Htree & added & Hq & Hlen & Hadded); [by intros ? ?%elements_in_tag|].
  fold r in Htree, Hq.
  destruct (narrow_fold (elements_in xs t d) t) as (Hnf & _ & _);
    [by intros ? ?%elements_in_tag|].
  rewrite <- Htree in Hnf.
  split; [by eapply narrowed_from_trans|].
  exists added. split; [done|]. split.
  - intros ty (e & He & Hty & Href & _)%Hadded. exists e. split; [|split; [|done]].
    + rewrite <- (nf_paths xs _ _ Ht). by eapply elements_in_paths.
    + rewrite <- Hty. symmetry. apply narrowed_from_reference; [done|]. by rewrite Hty.
  - etrans; [done|]. rewrite <- (nf_paths xs _ _ Ht). apply length_elements_in.
Qed.

Section loop.
Context (t0 : node) (nested_types : gset string).

Abbreviation inv := (loop_inv xs t0 nested_types).
Abbreviation remaining := (iterations_left t0).

Lemma left_skip c rest processed t log :
  remaining {| complex_types_to_process := rest; processed_types := processed;
          tree := t; expanded := log |}
  < remaining {| complex_types_to_process := c :: rest; processed_types := processed;
            tree := t; expanded := log |}.
Proof.
  unfold iterations_left. simpl.
  assert (size ((type_values t0 ∪ list_to_set rest) ∖ processed)
          ≤ size ((type_values t0 ∪ ({[c]} ∪ list_to_set rest)) ∖ processed)) as H
    by (apply subseteq_size; set_solver).
  apply (Nat.mul_le_mono_r _ _ (S (length (paths t0)))) in H. lia.
Qed.

Lemma left_expand c rest added processed t t' log log' :
  c ∉ processed →
  (∀ ty, ty ∈ added → ty ∈ type_values t0) →
  length added ≤ length (paths t0) →
  remaining {| complex_types_to_process := rest ++ added;
          processed_types := {[c]} ∪ processed; tree := t'; expanded := log' |}
  < remaining {| complex_types_to_process := c :: rest; processed_types := processed;
            tree := t; expanded := log |}.
Proof.
  intros Hc Hadded Hlen. unfold iterations_left. simpl.
  rewrite length_app, list_to_set_app_L.
  assert (size ((type_values t0 ∪ (list_to_set rest ∪ list_to_set added))
                  ∖ ({[c]} ∪ processed))
          < size ((type_values t0 ∪ ({[c]} ∪ list_to_set rest)) ∖ processed)) as H.
  { apply subset_size. split; [set_solver|].
    intros Hsub. assert (c ∈ (type_values t0 ∪ ({[c]} ∪ list_to_set rest)) ∖ processed)
      as Hin by set_solver.
    apply Hsub in Hin. set_solver. }
  apply (Nat.mul_le_mono_r _ _ (S (length (paths t0)))) in H. lia.
Qed.

Lemma inv_skip_processed c rest processed t log log' :
  c ∈ processed →
  inv {| complex_types_to_process := c :: rest; processed_types := processed;
         tree := t; expanded := log |} →
  inv {| complex_types_to_process := rest; processed_types := processed;
         tree := t; expanded := log' |}.
Proof.
  intros Hc [Ht Hs Hcl Hn]. simpl in *. split; simpl; [done| | |done].
  - intros ty Hty. destruct (Hs ty Hty) as [?|[->|?]%elem_of_cons]; auto.
  - intros n d ty Hn' Hd Hr.
    destruct (Hcl n d ty Hn' Hd Hr) as [?|[->|?]%elem_of_cons]; auto.
Qed.

Lemma inv_missing c rest processed t log log' :
  complex_types_named xs t c = [] →
  inv {| complex_types_to_process := c :: rest; processed_types := processed;
         tree := t; expanded := log |} →
  inv {| complex_types_to_process := rest; processed_types := {[c]} ∪ processed;
         tree := t; expanded := log' |}.
Proof.
  intros Hnone [Ht Hs Hcl Hn]. simpl in *.
  assert (Hdecl : declaration xs t0 c = None).
  { unfold declaration. by rewrite <- (narrowed_from_complex_types_named t0 t), Hnone. }
  split; simpl; [done| | |].
  - intros ty Hty. destruct (Hs ty Hty) as [?|[->|?]%elem_of_cons]; set_solver.
  - intros n d ty [->%elem_of_singleton|Hn']%elem_of_union Hd Hr; [congruence|].
    destruct (Hcl n d ty Hn' Hd Hr) as [?|[->|?]%elem_of_cons]; set_solver.
  - intros n d e [->%elem_of_singleton|Hn']%elem_of_union Hd He; [congruence|].
    by eapply Hn.
Qed.

Lemma inv_expand c rest processed t log log' d ds :
  complex_types_named xs t c = d :: ds →
  inv {| complex_types_to_process := c :: rest; processed_types := processed;
         tree := t; expanded := log |} →
  let r := foldl (visit_nested xs ({[c]} ∪ processed)) (rest, t) (elements_in xs t d) in
  inv {| complex_types_to_process := r.1; processed_types := {[c]} ∪ processed;
         tree := r.2; expanded := log' |}
  ∧ ∃ added, r.1 = (rest ++ added)%list
      ∧ (∀ ty, ty ∈ added → ty ∈ type_values t0)
      ∧ length added ≤ length (paths t0).
Proof.
  intros Hfound [Ht Hs Hcl Hn] r. simpl in *.
  assert (Hdecl : declaration xs t0 c = Some d).
  { unfold declaration. by rewrite <- (narrowed_from_complex_types_named t0 t), Hfound. }
  assert (Hel : elements_in xs t d = elements_in xs t0 d)
    by (by apply narrowed_from_elements_in).
  destruct (visit_nested_fold ({[c]} ∪ processed) (elements_in xs t d) rest t)
    as (Htree & added & Hq & Hlen & Hadded); [by intros ? ?%elements_in_tag|].
  fold r in Htree, Hq.
  destruct (narrow_fold (elements_in xs t d) t) as (Hnf & Hin & _);
    [by intros ? ?%elements_in_tag|].
  rewrite <- Htree in Hnf, Hin.
  split; [split; simpl|].
  - by eapply narrowed_from_trans.
  - intros ty Hty. rewrite Hq.
    destruct (Hs ty Hty) as [?|[->|?]%elem_of_cons]; set_solver.
  - intros n d' ty [->%elem_of_singleton|Hn']%elem_of_union Hd Hr.
    + assert (d' = d) as -> by congruence.
      destruct (decide (ty ∈ {[c]} ∪ processed)) as [?|Hnp]; [by left|].
      right. rewrite Hq. apply elem_of_app. right. apply Hadded.
      destruct Hr as (e & He & Hty & Href). exists e. rewrite Hel.
      split; [done|]. split; [|done].
      rewrite <- Hty. apply narrowed_from_reference_inv; [done|]. by rewrite Hty.
    + rewrite Hq.
      destruct (Hcl n d' ty Hn' Hd Hr) as [?|[->|?]%elem_of_cons]; set_solver.
  - intros n d' e [->%elem_of_singleton|Hn']%elem_of_union Hd He.
    + assert (d' = d) as -> by congruence. apply Hin. by rewrite Hel.
    + eapply narrowed_from_still_narrowed; [done|]. by eapply Hn.
  - exists added. split; [done|]. split.
    + intros ty (e & He & Hty & Href & _)%Hadded. apply type_values_spec.
      exists e. split.
      * rewrite <- (nf_paths xs _ _ Ht). by eapply elements_in_paths.
      * rewrite <- Hty. symmetry. apply narrowed_from_reference; [done|]. by rewrite Hty.
    + etrans; [done|]. rewrite <- (nf_paths xs _ _ Ht). apply length_elements_in.
Qed.

Lemma log_inv_expand c rest rest' processed t t' log :
  c ∉ processed →
  log_inv {| complex_types_to_process := c :: rest; processed_types := processed;
             tree := t; expanded := log |} →
  log_inv {| complex_types_to_process := rest'; processed_types := {[c]} ∪ processed;
             tree := t'; expanded := c :: log |}.
Proof.
  intros Hc [Hnd Hlog]. simpl in *. split; simpl.
  - apply NoDup_cons. split; [by rewrite Hlog|done].
  - intros n. rewrite elem_of_cons, Hlog. set_solver.
Qed.

(** Whatever the injected queries select, the loop ends within the
    iterations left, over a tree narrowed from [t0] and with a history
    without repeats. *)
Lemma while_loop_frame injected fuel w :
  narrowed_from xs t0 (tree w) → log_inv w → remaining w < fuel →
  ∃ e, while_loop xs injected fuel w = Some e ∧
    narrowed_from xs t0 (tree (end_state e)) ∧ log_inv (end_state e) ∧
    (∀ w', e = Exhausted w' → complex_types_to_process w' = []).
Proof.
  revert w. induction fuel as [|fuel IH]; intros [queue processed t log] Hnf Hlog Hfuel;
    [lia|].
  simpl in *. destruct queue as [|c rest].
  { eexists. split; [done|]. simpl. split; [done|]. split; [done|]. by intros ? [= <-]. }
  case_bool_decide as Hc.
  { apply IH; simpl.
    - done.
    - by destruct Hlog.
    - pose proof (left_skip c rest processed t log). lia. }
  destruct (find_complex_type xs injected t c) as [[|d ds]|] eqn:Hfound.
  - apply IH; simpl.
    + done.
    + by eapply log_inv_expand.
    + pose proof (left_expand c rest [] processed t t log (c :: log) Hc) as Hlt.
      rewrite app_nil_r in Hlt. simpl in Hlt.
      assert (0 ≤ length (paths t0)) by lia.
      specialize (Hlt ltac:(by intros ? ?%elem_of_nil) ltac:(done)). lia.
  - destruct (expand_frame t0 t d ({[c]} ∪ processed) rest Hnf)
      as (Hnf' & added & Hq & Hadded & Hlen).
    apply IH; simpl.
    + done.
    + by eapply log_inv_expand.
    + rewrite Hq.
      assert (Hknown : ∀ ty, ty ∈ added → ty ∈ type_values t0).
      { intros ty (q & Hq' & Hty & _)%Hadded. apply type_values_spec. by exists q. }
      pose proof (left_expand c rest added processed t
        (foldl (visit_nested xs ({[c]} ∪ processed)) (rest, t) (elements_in xs t d)).2
        log (c :: log) Hc Hknown Hlen). lia.
  - eexists. split; [done|]. simpl. split; [done|].
    split; [by eapply log_inv_expand|done].
Qed.

(** The loop in which no injected query is evaluated. *)
Lemma while_loop_spec fuel w :
  inv w → log_inv w → remaining w < fuel →
  ∃ e, while_loop xs rejecting fuel w = Some e ∧ loop_post xs t0 nested_types e.
Proof.
  revert w. induction fuel as [|fuel IH]; intros [queue processed t log] Hinv Hlog Hfuel;
    [lia|].
  simpl. destruct queue as [|c rest].
  { eexists. split; [done|]. by simpl. }
  case_bool_decide as Hc.
  { apply IH.
    - by eapply inv_skip_processed.
    - by destruct Hlog.
    - pose proof (left_skip c rest processed t log). lia. }
  rewrite find_complex_type_rejecting. destruct (Py.has_apostrophe c).
  { eexists. split; [done|]. simpl. split; [by destruct Hinv|].
    by eapply log_inv_expand. }
  destruct (complex_types_named xs t c) as [|d ds] eqn:Hfound.
  - apply IH.
    + by eapply inv_missing.
    + by eapply log_inv_expand.
    + pose proof (left_expand c rest [] processed t t log (c :: log) Hc) as Hlt.
      rewrite app_nil_r in Hlt. simpl in Hlt.
      assert (0 ≤ length (paths t0)) by lia.
      specialize (Hlt ltac:(by intros ? ?%elem_of_nil) ltac:(done)). lia.
  - destruct (inv_expand c rest processed t log (c :: log) d ds Hfound Hinv)
      as (Hinv' & added & Hq & Hadded & Hlen).
    apply IH.
    + done.
    + by eapply log_inv_expand.
    + rewrite Hq.
      pose proof (left_expand c rest added processed t
        (foldl (visit_nested xs ({[c]} ∪ processed)) (rest, t) (elements_in xs t d)).2
        log (c :: log) Hc Hadded Hlen). lia.
Qed.

End loop.

Lemma while_loop_more_fuel injected fuel fuel' w e :
  while_loop xs injected fuel w = Some e → fuel ≤ fuel' →
  while_loop xs injected fuel' w = Some e.
Proof.
  revert fuel' w. induction fuel as [|fuel IH]; intros fuel' w Hrun Hle; [done|].
  destruct fuel' as [|fuel']; [lia|]. simpl in *.
  destruct (complex_types_to_process w) as [|c rest]; [done|].
  case_bool_decide; [apply IH; [done|lia]|].
  destruct (find_complex_type xs injected (tree w) c) as [[|d ds]|]; [| |done];
    (apply IH; [done|lia]).
Qed.

(** Over a tree none of whose type values makes a query of its own, the
    loop runs as under the engine that rejects such queries: it never
    asks. *)
Lemma while_loop_rejecting injected t0 fuel w :
  no_injection xs t0 →
  narrowed_from xs t0 (tree w) →
  (∀ n, n ∈ complex_types_to_process w →
     ∃ q, attr_at t0 q "type" = Some n ∧ is_type_reference xs (Some n) = true) →
  while_loop xs injected fuel w = while_loop xs rejecting fuel w.
Proof.
  intros Hplain. revert w.
  induction fuel as [|fuel IH]; intros [queue processed t log] Hnf Hq; [done|].
  simpl in *. destruct queue as [|c rest]; [done|].
  assert (Hrest : ∀ n, n ∈ rest →
            ∃ q, attr_at t0 q "type" = Some n ∧ is_type_reference xs (Some n) = true)
    by (intros n ?; apply Hq; by right).
  case_bool_decide; [by apply IH|].
  rewrite (find_complex_type_plain injected t c).
  2: { destruct (Hq c ltac:(left)) as (q & Hty & Href). by apply (Hplain q). }
  destruct (find_complex_type xs rejecting t c) as [[|d ds]|]; [by apply IH| |done].
  destruct (expand_frame t0 t d ({[c]} ∪ processed) rest Hnf)
    as (Hnf' & added & Hq' & Hadded & _).
  apply IH; simpl; [done|].
  intros n. rewrite Hq', elem_of_app. intros [?|(q & _ & ? & ?)%Hadded]; [by apply Hrest|].
  by exists q.
Qed.

(** *** The collection of the initial references and the final pass *)

Lemma collect_elements_spec t elems (s : gset string) ty :
  ty ∈ foldl (λ nested_types elem,
      match attr_at t elem "type" with
      | Some type_attr =>
          if is_type_reference xs (Some type_attr) then {[type_attr]} ∪ nested_types
          else nested_types
      | None => nested_types
      end) s elems
  ↔ ty ∈ s ∨ ∃ elem, elem ∈ elems ∧ attr_at t elem "type" = Some ty ∧
                is_type_reference xs (Some ty) = true.
Proof.
  revert s. induction elems as [|e elems IH]; intros s; simpl.
  - split; [by left|]. by intros [?|(? & ?%elem_of_nil & _)].
  - rewrite IH. destruct (attr_at t e "type") as [ty0|] eqn:Hty0.
    + destruct (is_type_reference xs (Some ty0)) eqn:Href.
      * rewrite elem_of_union, elem_of_singleton. split.
        -- intros [[->|?]|(e' & ? & ?)]; [|by left|].
           ++ right. exists e. split; [left|done].
           ++ right. exists e'. split; [by right|done].
        -- intros [?|(e' & [->|?]%elem_of_cons & Hty & ?)]; [by left; right| |].
           ++ left. left. congruence.
           ++ right. by exists e'.
      * split.
        -- intros [?|(e' & ? & ?)]; [by left|]. right. exists e'. split; [by right|done].
        -- intros [?|(e' & [->|?]%elem_of_cons & Hty & ?)]; [by left|congruence|].
           right. by exists e'.
    + split.
      * intros [?|(e' & ? & ?)]; [by left|]. right. exists e'. split; [by right|done].
      * intros [?|(e' & [->|?]%elem_of_cons & Hty & ?)]; [by left|congruence|].
        right. by exists e'.
Qed.

Lemma collect_nested_types_spec t gcs ty :
  ty ∈ collect_nested_types xs t gcs ↔ ∃ gc, gc ∈ gcs ∧ refers_to xs t gc ty.
Proof.
  unfold collect_nested_types.
  assert (H : ∀ s : gset string,
    ty ∈ foldl (λ nested_types gc,
      foldl (λ nested_types elem,
        match attr_at t elem "type" with
        | Some type_attr =>
            if is_type_reference xs (Some type_attr) then {[type_attr]} ∪ nested_types
            else nested_types
        | None => nested_types
        end) nested_types (elements_in xs t gc)) s gcs
    ↔ ty ∈ s ∨ ∃ gc, gc ∈ gcs ∧ refers_to xs t gc ty).
  { induction gcs as [|gc gcs IH]; intros s; simpl.
    - split; [by left|]. by intros [?|(? & ?%elem_of_nil & _)].
    - rewrite IH, collect_elements_spec. split.
      + intros [[?|Hr]|(gc' & ? & ?)]; [by left| |].
        * right. exists gc. split; [left|done].
        * right. exists gc'. split; [by right|done].
      + intros [?|(gc' & [->|?]%elem_of_cons & Hr)]; [by left; left|by left; right|].
        right. by exists gc'. }
  rewrite H. set_solver.
Qed.

Lemma final_pass_spec gcs t :
  let t' := final_pass xs gcs t in
  narrowed_from xs t t' ∧
  (∀ gc elem, gc ∈ gcs → elem ∈ elements_in xs t gc →
     narrow (attr_at t' elem "type") = false) ∧
  (∀ q, (∀ gc, gc ∈ gcs → q ∉ elements_in xs t gc) → attrib_at t' q = attrib_at t q).
Proof.
  revert t. induction gcs as [|gc gcs IH]; intros t; simpl.
  - split; [apply narrowed_from_refl|]. split; [by intros ? ? ?%elem_of_nil|done].
  - rewrite narrow_direct_fold.
    destruct (narrow_fold (elements_in xs t gc) t) as (Hnf1 & Hin1 & Hout1);
      [by intros ? ?%elements_in_tag|].
    set (t1 := foldl (λ t elem, narrow_at xs elem t) t (elements_in xs t gc)) in *.
    destruct (IH t1) as (Hnf & Hin & Hout). fold (final_pass xs gcs t1) in *.
    assert (Hel : ∀ c, elements_in xs t1 c = elements_in xs t c)
      by (intros c; by apply narrowed_from_elements_in).
    split; [|split].
    + by eapply narrowed_from_trans.
    + intros gc' e [->|Hgc]%elem_of_cons He.
      * eapply narrowed_from_still_narrowed; [done|]. by apply Hin1.
      * apply (Hin gc'); [done|]. by rewrite Hel.
    + intros q Hq. rewrite Hout, Hout1; [done| |].
      * apply Hq. left.
      * intros gc' Hgc. rewrite Hel. apply Hq. by right.
Qed.

(** The complex types reached from the target have been expanded when
    the queue is empty. *)
Lemma reachable_processed t0 w c :
  loop_inv xs t0 (collect_nested_types xs t0 (complex_types_named xs t0 target)) w →
  complex_types_to_process w = [] →
  reachable xs t0 c →
  c ∈ complex_types_named xs t0 target ∨
  ∃ n, n ∈ processed_types w ∧ declaration xs t0 n = Some c.
Proof.
  intros [_ Hs Hcl _] Hq. rewrite Hq in Hs, Hcl.
  induction 1 as [gc Hgc|c ty d _ IH Hr Hd]; [by left|].
  right. exists ty. split; [|done]. destruct IH as [Hgc|(n & Hn & Hdn)].
  - destruct (Hs ty) as [?|?%elem_of_nil]; [|done..].
    apply collect_nested_types_spec. by exists c.
  - by destruct (Hcl n c ty Hn Hdn Hr) as [?|?%elem_of_nil].
Qed.

Lemma narrowed_from_only_types t0 t :
  narrowed_from xs t0 t → only_types_rewritten t0 t.
Proof.
  intros Hnf. split.
  - apply Hnf.
  - apply Hnf.
  - intros q k Hk. by apply narrowed_from_other.
  - intros q k. destruct (decide (k = "type")) as [->|Hk].
    + destruct (narrowed_from_type _ _ q Hnf) as [->|[Hn ->]]; [done|].
      split; [|by eexists]. intros _. unfold is_narrow_target in Hn.
      destruct (attr_at t0 q "type"); [by eexists|done].
    + by rewrite (narrowed_from_other _ _ _ _ Hnf).
Qed.

(** The names the loop expands are type values of the tree it started
    from, when those in the queue are. *)
Lemma while_loop_known t0 fuel w e :
  narrowed_from xs t0 (tree w) →
  (∀ n, n ∈ complex_types_to_process w → n ∈ type_values t0) →
  (∀ n, n ∈ expanded w → n ∈ type_values t0) →
  while_loop xs rejecting fuel w = Some e →
  ∀ n, n ∈ expanded (end_state e) → n ∈ type_values t0.
Proof.
  revert w. induction fuel as [|fuel IH]; intros [queue processed t log] Hnf Hq Hlog Hrun;
    [done|].
  simpl in *. destruct queue as [|c rest]; [by injection Hrun as <-|].
  assert (Hrest : ∀ n, n ∈ rest → n ∈ type_values t0) by (intros n ?; apply Hq; by right).
  assert (Hlog' : ∀ n, n ∈ c :: log → n ∈ type_values t0).
  { intros n [->|?]%elem_of_cons; [apply Hq; left|by apply Hlog]. }
  case_bool_decide; [by refine (IH _ _ _ _ Hrun)|].
  rewrite find_complex_type_rejecting in Hrun. destruct (Py.has_apostrophe c).
  { by injection Hrun as <-. }
  destruct (complex_types_named xs t c) as [|d ds]; [by refine (IH _ _ _ _ Hrun)|].
  destruct (visit_nested_fold ({[c]} ∪ processed) (elements_in xs t d) rest t)
    as (Htree & added & Hq' & _ & Hadded); [by intros ? ?%elements_in_tag|].
  destruct (narrow_fold (elements_in xs t d) t) as (Hnf' & _);
    [by intros ? ?%elements_in_tag|].
  refine (IH _ _ _ _ Hrun); simpl.
  - rewrite Htree. by eapply narrowed_from_trans.
  - intros n. rewrite Hq', elem_of_app. intros [?|(e' & He' & Hty & Href & _)%Hadded];
      [by apply Hrest|].
    apply type_values_spec. exists e'. split.
    + rewrite <- (nf_paths xs _ _ Hnf). by eapply elements_in_paths.
    + rewrite <- Hty. symmetry. apply narrowed_from_reference; [done|]. by rewrite Hty.
  - done.
Qed.

(** The loop raises only at a name that holds an apostrophe. *)
Lemma while_loop_raises fuel w w' :
  while_loop xs rejecting fuel w = Some (Raises w') →
  ∃ n, head (expanded w') = Some n ∧ Py.has_apostrophe n = true.
Proof.
  revert w. induction fuel as [|fuel IH]; intros w Hrun; [done|]. simpl in Hrun.
  destruct (complex_types_to_process w) as [|c rest]; [done|].
  case_bool_decide; [by eapply IH|].
  rewrite find_complex_type_rejecting in Hrun. destruct (Py.has_apostrophe c) eqn:Hq.
  - injection Hrun as <-. by exists c.
  - destruct (complex_types_named xs (tree w) c); by eapply IH.
Qed.

End rewriter.

(** *** The whole of [process_xsd_file] *)

Lemma narrow_target_iff xs o :
  is_narrow_target xs o = true ↔ ∃ ty, o = Some ty ∧ ty ∈ narrow_targets xs.
Proof.
  unfold is_narrow_target. destruct o as [ty|].
  - rewrite bool_decide_eq_true. naive_solver.
  - naive_solver.
Qed.

(** What the final pass does to any tree, whatever came before it. *)
Lemma final_pass_exact xs gcs t :
  (∀ gc elem ty, gc ∈ gcs → elem ∈ elements_in xs t gc →
     attr_at t elem "type" = Some ty → ty ∈ narrow_targets xs →
     attr_at (final_pass xs gcs t) elem "type" = Some (string_type xs)) ∧
  (∀ q, ¬ (∃ gc ty, gc ∈ gcs ∧ q ∈ elements_in xs t gc ∧
             attr_at t q "type" = Some ty ∧ ty ∈ narrow_targets xs) →
     attrib_at (final_pass xs gcs t) q = attrib_at t q) ∧
  only_types_rewritten t (final_pass xs gcs t).
Proof.
  destruct (final_pass_spec xs gcs t) as (Hnf & Hin & Hout).
  split; [|split; [|by eapply narrowed_from_only_types]].
  - intros gc e ty Hgc He Hty Hn.
    destruct (narrowed_from_type xs _ _ e Hnf) as [Heq|[_ ?]]; [|done].
    assert (is_narrow_target xs (attr_at (final_pass xs gcs t) e "type") = true) as Ht
      by (rewrite Heq, Hty; apply narrow_target_iff; eauto).
    rewrite (Hin gc e Hgc He) in Ht. done.
  - intros q Hq.
    destruct (decide (Exists (λ gc, q ∈ elements_in xs t gc) gcs)) as [Hex|Hnex].
    + apply Exists_exists in Hex as (gc & Hgc & He).
      destruct (nf_attrib xs _ _ Hnf q) as [?|(_ & (ty & Hty & Hn)%narrow_target_iff & _)];
        [done|].
      destruct Hq. by exists gc, ty.
    + apply Hout. intros gc Hgc He. apply Hnex, Exists_exists. by exists gc.
Qed.

(** A second final pass changes nothing: the narrowing of the elements of
    the target is idempotent. *)
Lemma final_pass_idempotent xs gcs t :
  final_pass xs gcs (final_pass xs gcs t) = final_pass xs gcs t.
Proof.
  destruct (final_pass_spec xs gcs t) as (Hnf & Hin & _).
  destruct (final_pass_exact xs gcs (final_pass xs gcs t)) as (_ & Hother & Hsame).
  apply tree_ext; [apply Hsame|]. intros q. apply Hother.
  intros (gc & ty & Hgc & He & Hty & Hn).
  rewrite (narrowed_from_elements_in xs t) in He by done.
  assert (is_narrow_target xs (attr_at (final_pass xs gcs t) q "type") = true) as Hq
    by (apply narrow_target_iff; eauto).
  by rewrite (Hin gc q Hgc He) in Hq.
Qed.

(** *** The claims about the rewriter *)


Section process.
Context (list_of_set : gset string → list string).
Context (injected : string → node → xpath_result).

(** The loop started from the references of the target, whatever the
    injected queries select. *)
Lemma run_worklist_frame xs t gcs :
  ∃ e, run_worklist list_of_set injected xs t gcs = Some e ∧
    narrowed_from xs t (tree (end_state e)) ∧ log_inv (end_state e) ∧
    (∀ w, e = Exhausted w → complex_types_to_process w = []).
Proof.
  unfold run_worklist. apply (while_loop_frame xs t).
  - apply narrowed_from_refl.
  - split; simpl; [apply NoDup_nil_2|]. intros n. split; [by intros ?%elem_of_nil|].
    by intros ?%not_elem_of_empty.
  - unfold enough_fuel, iterations_left, initial_worklist. simpl.
    rewrite difference_empty_L. lia.
Qed.

(** The same where no injected query is evaluated. *)
Lemma run_worklist_spec xs t gcs (nested_types : gset string) :
  (∀ ty, ty ∈ nested_types → ty ∈ list_of_set (collect_nested_types xs t gcs)) →
  ∃ e, run_worklist list_of_set rejecting xs t gcs = Some e ∧
    loop_post xs t nested_types e.
Proof.
  intros Hstart. unfold run_worklist. apply while_loop_spec.
  - split; simpl.
    + apply narrowed_from_refl.
    + intros ty Hty. right. by apply Hstart.
    + intros n c ty Hn. by apply not_elem_of_empty in Hn.
    + intros n c e Hn. by apply not_elem_of_empty in Hn.
  - split; simpl; [apply NoDup_nil_2|]. intros n. split; [by intros ?%elem_of_nil|].
    by intros ?%not_elem_of_empty.
  - unfold enough_fuel, iterations_left, initial_worklist. simpl.
    rewrite difference_empty_L. lia.
Qed.

Lemma find_target engine xs t :
  find_complex_type xs engine t target = Nodes (complex_types_named xs t target).
Proof. done. Qed.

(** The ways [process_xsd_file] ends. *)
Lemma process_xsd_file_cases doc :
  match resolve_xs_prefix (nsmap doc) with
  | None => process_xsd_file list_of_set injected doc = Some Skipped
  | Some xs =>
      let gcs := complex_types_named xs (root doc) target in
      (gcs = [] ∧ process_xsd_file list_of_set injected doc = Some (Written (root doc))) ∨
      (gcs ≠ [] ∧ ∃ e, run_worklist list_of_set injected xs (root doc) gcs = Some e ∧
         process_xsd_file list_of_set injected doc =
           Some match e with
                | Exhausted w => Written (final_pass xs gcs (tree w))
                | Raises w => Raised (tree w)
                end)
  end.
Proof.
  unfold process_xsd_file. destruct (resolve_xs_prefix (nsmap doc)) as [xs|]; [|done].
  rewrite find_target. simpl.
  destruct (complex_types_named xs (root doc) target) as [|gc gcs] eqn:Hgcs; [by left|].
  right. split; [done|].
  destruct (run_worklist_frame xs (root doc) (gc :: gcs)) as (e & Hrun & _).
  exists e. split; [done|]. rewrite Hrun. by destruct e.
Qed.

(** The tree that [process_xsd_file] leaves is narrowed from the parsed
    one. *)
Lemma process_xsd_file_narrowed doc xs o t :
  resolve_xs_prefix (nsmap doc) = Some xs →
  process_xsd_file list_of_set injected doc = Some o → tree_of o = Some t →
  narrowed_from xs (root doc) t.
Proof.
  intros Hres Hrun Ht.
  pose proof (process_xsd_file_cases doc) as Hcases. rewrite Hres in Hcases.
  destruct Hcases as [[_ Hsame]|(_ & e & Hrunw & Hproc)].
  { rewrite Hsame in Hrun. injection Hrun as <-. injection Ht as <-.
    apply narrowed_from_refl. }
  destruct (run_worklist_frame xs (root doc) (complex_types_named xs (root doc) target))
    as (e' & Hrun' & Hnf & _).
  assert (e' = e) as -> by congruence.
  rewrite Hproc in Hrun. injection Hrun as <-.
  destruct e as [w|w]; simpl in *; injection Ht as <-; [|done].
  eapply narrowed_from_trans; [done|apply final_pass_spec].
Qed.

(** Over a document none of whose type values makes a query of its own,
    [process_xsd_file] runs as under the engine that rejects such
    queries. *)
Lemma process_xsd_file_rejecting doc :
  (∀ (s : gset string) ty, ty ∈ list_of_set s → ty ∈ s) →
  (∀ xs, resolve_xs_prefix (nsmap doc) = Some xs → no_injection xs (root doc)) →
  process_xsd_file list_of_set injected doc = process_xsd_file list_of_set rejecting doc.
Proof.
  intros Hlos Hplain. unfold process_xsd_file.
  destruct (resolve_xs_prefix (nsmap doc)) as [xs|]; [|done].
  rewrite !find_target.
  destruct (complex_types_named xs (root doc) target) as [|gc gcs] eqn:Hgcs; [done|].
  unfold run_worklist.
  rewrite (while_loop_rejecting xs injected (root doc)); [done|by apply Hplain|..].
  - apply narrowed_from_refl.
  - simpl. intros n (c & _ & e & _ & Hty & Href)%Hlos%collect_nested_types_spec.
    by exists e.
Qed.

(** C2.  From any queue and over any tree, cyclic references or not, and
    whatever the queries of names with apostrophes select, the loop ends
    within [enough_fuel] iterations (and so with any greater number
    allowed), and the names it went on to mark and search for are
    pairwise distinct and are the processed names; [process_xsd_file]
    ends for every document. *)
Theorem worklist_terminates :
  (∀ xs t queue,
     let w0 := {| complex_types_to_process := queue; processed_types := ∅;
                  tree := t; expanded := [] |} in
     ∃ e, while_loop xs injected (enough_fuel t queue) w0 = Some e ∧
       (∀ fuel, enough_fuel t queue ≤ fuel → while_loop xs injected fuel w0 = Some e) ∧
       NoDup (expanded (end_state e)) ∧
       (∀ n, n ∈ expanded (end_state e) ↔ n ∈ processed_types (end_state e))) ∧
  (∀ doc, ∃ o, process_xsd_file list_of_set injected doc = Some o).
Proof.
  split.
  - intros xs t queue w0.
    destruct (while_loop_frame xs t injected (enough_fuel t queue) w0)
      as (e & Hrun & _ & [Hnd Hlog] & _).
    + apply narrowed_from_refl.
    + split; simpl; [apply NoDup_nil_2|]. intros n. split; [by intros ?%elem_of_nil|].
      by intros ?%not_elem_of_empty.
    + unfold enough_fuel, iterations_left. simpl. rewrite difference_empty_L. lia.
    + exists e. split; [done|]. split; [by intros; eapply while_loop_more_fuel|done].
  - intros doc. pose proof (process_xsd_file_cases doc) as Hcases.
    destruct (resolve_xs_prefix (nsmap doc)); [|by eexists].
    destruct Hcases as [[_ ?]|(_ & e & _ & ?)]; by eexists.
Qed.

(** C5.  When [process_xsd_file] writes the tree [t'] of a document with
    the target type, the loop has ended with an empty queue in a state
    [w], and [t'] is the final pass over the tree of [w]: an element
    nested in a complex type of the target name whose type is then a
    narrow target gets the string type, and every other element keeps
    all its attributes, whatever the loop did or did not expand. *)
Theorem final_pass_after_worklist doc xs t' :
  resolve_xs_prefix (nsmap doc) = Some xs →
  complex_types_named xs (root doc) target ≠ [] →
  process_xsd_file list_of_set injected doc = Some (Written t') →
  ∃ w, run_worklist list_of_set injected xs (root doc)
         (complex_types_named xs (root doc) target)
         = Some (Exhausted w) ∧
    complex_types_to_process w = [] ∧
    t' = final_pass xs (complex_types_named xs (root doc) target) (tree w) ∧
    (∀ gc elem ty, gc ∈ complex_types_named xs (root doc) target →
       elem ∈ elements_in xs (root doc) gc →
       attr_at (tree w) elem "type" = Some ty → ty ∈ narrow_targets xs →
       attr_at t' elem "type" = Some (string_type xs)) ∧
    (∀ q, ¬ (∃ gc ty, gc ∈ complex_types_named xs (root doc) target ∧
               q ∈ elements_in xs (root doc) gc ∧
               attr_at (tree w) q "type" = Some ty ∧ ty ∈ narrow_targets xs) →
       attrib_at t' q = attrib_at (tree w) q).
Proof.
  intros Hres Htarget Hrun.
  pose proof (process_xsd_file_cases doc) as Hcases. rewrite Hres in Hcases.
  destruct Hcases as [[? _]|(_ & e & Hrunw & Hproc)]; [done|].
  rewrite Hproc in Hrun.
  set (t0 := root doc) in *. set (gcs := complex_types_named xs t0 target) in *.
  destruct (run_worklist_frame xs t0 gcs) as (e' & Hrun' & Hnf & _ & Hq).
  assert (e' = e) as -> by congruence.
  destruct e as [w|w]; [|done]. injection Hrun as <-. simpl in Hnf.
  exists w. split; [done|]. split; [by apply Hq|]. split; [done|].
  assert (Hel : ∀ c, elements_in xs (tree w) c = elements_in xs t0 c)
    by (intros c; by apply narrowed_from_elements_in).
  destruct (final_pass_exact xs gcs (tree w)) as (Hone & Hother & _). split.
  - intros gc e ty Hgc He. apply (Hone gc); [done|]. by rewrite Hel.
  - intros q Hq'. apply Hother. intros (gc & ty & Hgc & He & Hty).
    apply Hq'. exists gc, ty. by rewrite <- Hel.
Qed.

(** C6.  [process_xsd_file] ends for every document, and the tree it
    leaves, written or not, has the elements of the parsed tree at the
    same places with the same tags, the same attribute names on each
    element, and the same value for every attribute other than [type];
    an element that is not an element declaration (as the name test for
    the resolved prefix selects them) keeps all its attributes. *)
Theorem only_type_attributes_change doc :
  ∃ o, process_xsd_file list_of_set injected doc = Some o ∧
    ∀ t, tree_of o = Some t →
      only_types_rewritten (root doc) t ∧
      ∀ xs q, resolve_xs_prefix (nsmap doc) = Some xs →
        tag_at (root doc) q ≠ Some (name_test xs "element") →
        attrib_at t q = attrib_at (root doc) q.
Proof.
  assert (Hends : ∃ o, process_xsd_file list_of_set injected doc = Some o).
  { pose proof (process_xsd_file_cases doc) as Hcases.
    destruct (resolve_xs_prefix (nsmap doc)); [|by eexists].
    destruct Hcases as [[_ ?]|(_ & e & _ & ?)]; by eexists. }
  destruct Hends as [o Hrun]. exists o. split; [done|]. intros t Ht.
  destruct (resolve_xs_prefix (nsmap doc)) as [xs|] eqn:Hres.
  - pose proof (process_xsd_file_narrowed doc xs o t Hres Hrun Ht) as Hnf.
    split; [by apply (narrowed_from_only_types xs)|].
    intros xs' q [= <-] Htag. by destruct (nf_attrib xs _ _ Hnf q) as [?|(? & _)].
  - unfold process_xsd_file in Hrun. rewrite Hres in Hrun. injection Hrun as <-. done.
Qed.

End process.

(** *** Runs without injected queries *)

Section plain.
Context (list_of_set : gset string → list string).

(** X22.  Let the document bind the XSD namespace to the prefix [xs],
    and let none of its type values make a query of its own.  Whenever
    [process_xsd_file] writes a tree [t'], every element declaration
    nested in a complex type that the lookups of the code reach from the
    target (a complex type of the target name, or the first complex type
    whose name is the very type value of an element of a reached type)
    whose type was [xs:integer], [xs:boolean], [xs:dateTime] or
    [xs:date] has the type [xs:string] in [t'], and every element with
    any other type value keeps it.  [list_of_set] is any listing of the
    members of a set. *)
Theorem narrowing_of_reached injected doc xs :
  (∀ (s : gset string) ty, ty ∈ list_of_set s ↔ ty ∈ s) →
  resolve_xs_prefix (nsmap doc) = Some xs →
  no_injection xs (root doc) →
  ∀ t', process_xsd_file list_of_set injected doc = Some (Written t') →
    (∀ c elem ty, reachable xs (root doc) c → elem ∈ elements_in xs (root doc) c →
       attr_at (root doc) elem "type" = Some ty → ty ∈ narrow_targets xs →
       attr_at t' elem "type" = Some (string_type xs)) ∧
    (∀ q ty, attr_at (root doc) q "type" = Some ty → ty ∉ narrow_targets xs →
       attr_at t' q "type" = Some ty).
Proof.
  intros Hlos Hres Hplain t' Hrun.
  rewrite process_xsd_file_rejecting in Hrun;
    [|by intros; apply Hlos|by intros xs0 Hx; rewrite Hres in Hx; injection Hx as <-].
  pose proof (process_xsd_file_cases list_of_set rejecting doc) as Hcases.
  rewrite Hres in Hcases.
  set (t0 := root doc) in *. set (gcs := complex_types_named xs t0 target) in *.
  assert (Hnf0 : narrowed_from xs t0 t')
    by (by apply (process_xsd_file_narrowed list_of_set rejecting doc xs (Written t'))).
  split.
  - intros c e ty Hreach He Hty Hn.
    destruct Hcases as [[Hnone _]|(_ & e0 & Hrunw & Hproc)].
    { exfalso. clear -Hreach Hnone. induction Hreach as [gc Hgc|]; [|done].
      fold gcs in Hgc. rewrite Hnone in Hgc. by apply elem_of_nil in Hgc. }
    rewrite Hproc in Hrun.
    destruct (run_worklist_spec list_of_set xs t0 gcs (collect_nested_types xs t0 gcs))
      as (e' & Hrun' & Hpost); [by intros; apply Hlos|].
    assert (e' = e0) as -> by congruence.
    destruct e0 as [w|w]; [|done]. injection Hrun as <-.
    destruct Hpost as (Hinv & _ & Hq).
    destruct (final_pass_spec xs gcs (tree w)) as (Hnf & Hin & _).
    assert (is_narrow_target xs (attr_at (final_pass xs gcs (tree w)) e "type") = false)
      as Hdone.
    { destruct (reachable_processed xs t0 w c Hinv Hq Hreach) as [Hgc|(n & Hn' & Hd)].
      - apply (Hin c e Hgc). by rewrite (narrowed_from_elements_in xs t0) by apply Hinv.
      - apply (narrowed_from_still_narrowed xs (tree w)); [done|].
        by eapply (li_narrowed xs _ _ _ Hinv). }
    destruct (narrowed_from_type xs _ _ e Hnf0) as [Heq|[_ ?]]; [|done].
    rewrite Heq, Hty in Hdone.
    assert (is_narrow_target xs (Some ty) = true) by (apply narrow_target_iff; eauto).
    congruence.
  - intros q ty Hty Hn.
    destruct (narrowed_from_type xs _ _ q Hnf0) as [Heq|[Hwas _]]; [congruence|].
    apply narrow_target_iff in Hwas as (ty' & Hty' & Hn').
    rewrite Hty in Hty'. by injection Hty' as ->.
Qed.

End plain.

(** *** The claims at the sample documents *)

Lemma elem_of_computed {A} (l : list A) (i : nat) (x : A) : l !! i = Some x → x ∈ l.
Proof. intros H. apply list_elem_of_lookup. by exists i. Qed.

Lemma no_injection_computed xs t :
  forallb (λ ty, negb (Py.has_apostrophe ty) || unfinished_literal ty)
    (omap (λ q, attr_at t q "type") (paths t)) = true →
  no_injection xs t.
Proof.
  intros Hall q ty Hty _ Hq. rewrite forallb_forall in Hall.
  assert (Hin : ty ∈ omap (λ q, attr_at t q "type") (paths t)).
  { apply list_elem_of_omap. exists q. split; [|done].
    unfold attr_at in Hty. destruct (get t q) as [n|] eqn:Hget; [|done].
    by eapply get_paths. }
  apply list_elem_of_In, Hall in Hin. by rewrite Hq in Hin.
Qed.

(** In [commencements] the count of [DetailType], reached through the
    element [detail] of the target, becomes a string, and the label,
    already a string, keeps its type. *)
Lemma narrowing_of_reached_witness :
  let doc := ParseSamples.commencements in
  (∀ (s : gset string) ty, ty ∈ elements s ↔ ty ∈ s) ∧
  resolve_xs_prefix (nsmap doc) = Some "xs" ∧
  no_injection "xs" (root doc) ∧
  ∃ t', process_xsd_file elements ParseSamples.selects_all doc = Some (Written t') ∧
    attr_at t' [1; 0; 0] "type" = Some "xs:string" ∧
    attr_at t' [1; 0; 1] "type" = Some "xs:string".
Proof.
  intros doc.
  assert (H1 : ∀ (s : gset string) ty, ty ∈ elements s ↔ ty ∈ s)
    by (intros s ty; apply elem_of_elements).
  assert (H2 : resolve_xs_prefix (nsmap doc) = Some "xs") by reflexivity.
  assert (H3 : no_injection "xs" (root doc))
    by (apply no_injection_computed; vm_compute; reflexivity).
  assert (H4 : ∃ t', process_xsd_file elements ParseSamples.selects_all doc
                     = Some (Written t'))
    by (vm_compute; eexists; reflexivity).
  destruct H4 as [t' H4].
  destruct (narrowing_of_reached elements ParseSamples.selects_all doc "xs" H1 H2 H3 t' H4)
    as [Hnarrow Hother].
  do 3 (split; [assumption|]). exists t'. split; [assumption|]. split.
  - apply (Hnarrow [1] [1; 0; 0] "xs:integer").
    + apply (reach_reference "xs" (root doc) [0] "DetailType" [1]).
      * apply reach_target. apply (elem_of_computed _ 0). vm_compute. reflexivity.
      * exists [0; 0; 1]. split; [|split]; [|vm_compute; reflexivity..].
        apply (elem_of_computed _ 1). vm_compute. reflexivity.
      * vm_compute. reflexivity.
    + apply (elem_of_computed _ 0). vm_compute. reflexivity.
    + vm_compute. reflexivity.
    + apply (elem_of_computed _ 0). vm_compute. reflexivity.
  - apply (Hother [1; 0; 1] "xs:string").
    + vm_compute. reflexivity.
    + apply (bool_decide_eq_false_1 _). vm_compute. reflexivity.
Defined.

(** In the scenario of the specification the loop expands [DetailType]
    and leaves the start date of the target as it was, a date: it is the
    final pass that turns it into a string. *)
Lemma final_pass_after_worklist_witness :
  let doc := ParseSamples.scenario in
  let gcs := complex_types_named "xs" (root doc) target in
  resolve_xs_prefix (nsmap doc) = Some "xs" ∧
  gcs ≠ [] ∧
  ∃ t' w, process_xsd_file elements rejecting doc = Some (Written t') ∧
    run_worklist elements rejecting "xs" (root doc) gcs = Some (Exhausted w) ∧
    t' = final_pass "xs" gcs (tree w) ∧
    [0; 0; 0] ∈ elements_in "xs" (root doc) [0] ∧
    attr_at (tree w) [0; 0; 0] "type" = Some "xs:date" ∧
    attr_at t' [0; 0; 0] "type" = Some "xs:string" ∧
    attr_at (tree w) [1; 0; 0] "type" = Some "xs:string" ∧
    attrib_at t' [1; 0; 0] = attrib_at (tree w) [1; 0; 0].
Proof.
  intros doc gcs.
  assert (H1 : resolve_xs_prefix (nsmap doc) = Some "xs") by reflexivity.
  assert (H2 : gcs ≠ []) by (vm_compute; discriminate).
  assert (H3 : ∃ t', process_xsd_file elements rejecting doc = Some (Written t'))
    by (vm_compute; eexists; reflexivity).
  destruct H3 as [t' H3].
  destruct (final_pass_after_worklist elements rejecting doc "xs" t' H1 H2 H3)
    as (w & Hrun & _ & Ht' & Hone & Hother).
  assert (Hw : ∃ w0, run_worklist elements rejecting "xs" (root doc) gcs
                     = Some (Exhausted w0) ∧
                     attr_at (tree w0) [0; 0; 0] "type" = Some "xs:date" ∧
                     attr_at (tree w0) [1; 0; 0] "type" = Some "xs:string")
    by (vm_compute; eexists; repeat split; reflexivity).
  destruct Hw as (w0 & Hrun0 & Hdate & Hcount).
  assert (w0 = w) as -> by (fold gcs in Hrun; congruence).
  assert (Hin : [0; 0; 0] ∈ elements_in "xs" (root doc) [0])
    by (apply (elem_of_computed _ 0); vm_compute; reflexivity).
  do 2 (split; [assumption|]). exists t', w.
  do 5 (split; [assumption|]). split; [|split; [assumption|]].
  - apply (Hone [0] [0; 0; 0] "xs:date"); [|assumption..|].
    + apply (elem_of_computed _ 0). vm_compute. reflexivity.
    + apply (elem_of_computed _ 3). vm_compute. reflexivity.
  - apply Hother. intros (gc & ty & Hgc & He & _).
    assert (Hgcs : complex_types_named "xs" (root doc) target = [[0]])
      by (vm_compute; reflexivity).
    rewrite Hgcs in Hgc. apply list_elem_of_singleton in Hgc as ->.
    revert He. apply (bool_decide_eq_false_1 _). vm_compute. reflexivity.
Defined.

(** With the references [A] to [B] and [B] to [A], each of the two names
    is expanded once. *)
Example cycle_expanded_once :
  (λ e, expanded (end_state e)) <$>
    run_worklist elements rejecting "xs" (root ParseSamples.cyclic)
      (complex_types_named "xs" (root ParseSamples.cyclic) target)
  = Some ["B"; "A"].
Proof. vm_compute. reflexivity. Qed.

(** The scenario of the specification: the start date and the count
    become strings. *)
Example scenario_rewritten : ∀ injected,
  (λ o, (λ t, omap (λ q, attr_at t q "type") (paths t)) <$> tree_of o) <$>
    process_xsd_file elements injected ParseSamples.scenario
  = Some (Some ["xs:string"; "DetailType"; "xs:string"]).
Proof. intros injected. vm_compute. reflexivity. Qed.

(** A type value that goes on with the expression: if the engine takes
    the predicate to hold of every complex type, the first of them, the
    target, is expanded under that name, and the run writes. *)
Example injected_query_selects :
  (λ o, (λ t, omap (λ q, attr_at t q "type") (paths t)) <$> tree_of o) <$>
    process_xsd_file elements ParseSamples.selects_all ParseSamples.injection
  = Some (Some ["zz' or '1'='1"; "xs:boolean"]) ∧
  find_complex_type "xs" ParseSamples.selects_all (root ParseSamples.injection)
    "zz' or '1'='1" = Nodes [[0]; [1]].
Proof. vm_compute. split; reflexivity. Qed.

(** C1.  In [prefixed_reference] the element [detail] of the target has
    the type [tns:DetailType], a reference to the complex type
    [DetailType] of the document under the prefix of its target
    namespace, and the element [count] of [DetailType] is an integer.
    The value lacks the XSD prefix and is queued as a type name, but
    line 68 looks for a complex type whose name is [tns:DetailType],
    prefix and all, and finds none: the run writes a tree in which the
    start date is a string and [count] is an integer still. *)
Theorem prefixed_reference_not_followed : ∀ injected,
  let doc := ParseSamples.prefixed_reference in
  resolve_xs_prefix (nsmap doc) = Some "xs" ∧
  complex_types_named "xs" (root doc) target = [[0]] ∧
  refers_to "xs" (root doc) [0] "tns:DetailType" ∧
  spec_declaration "xs" (root doc) "tns:DetailType" = Some [1] ∧
  spec_reachable "xs" (root doc) [1] ∧
  elements_in "xs" (root doc) [1] = [[1; 0; 0]] ∧
  attr_at (root doc) [1; 0; 0] "type" = Some "xs:integer" ∧
  declaration "xs" (root doc) "tns:DetailType" = None ∧
  ∃ t', process_xsd_file elements injected doc = Some (Written t') ∧
    attr_at t' [0; 0; 0] "type" = Some "xs:string" ∧
    attr_at t' [1; 0; 0] "type" = Some "xs:integer".
Proof.
  intros injected doc.
  assert (Hr : refers_to "xs" (root doc) [0] "tns:DetailType").
  { exists [0; 0; 1]. split; [|split]; [|vm_compute; reflexivity..].
    apply (elem_of_computed _ 1). vm_compute. reflexivity. }
  assert (Hd : spec_declaration "xs" (root doc) "tns:DetailType" = Some [1])
    by (vm_compute; reflexivity).
  split; [reflexivity|]. split; [vm_compute; reflexivity|]. split; [exact Hr|].
  split; [exact Hd|]. split.
  { apply (spec_reach_reference "xs" (root doc) [0] "tns:DetailType" [1]); [|done..].
    apply spec_reach_target. apply (elem_of_computed _ 0). vm_compute. reflexivity. }
  split; [vm_compute; reflexivity|]. split; [vm_compute; reflexivity|].
  split; [vm_compute; reflexivity|].
  vm_compute. eexists. repeat split; reflexivity.
Qed.

(** C4.  With the XSD namespace as the default namespace the prefix
    resolves to the empty string, the unprefixed name test finds no
    target, and the file is written as it was parsed: [date] and
    [integer] are not rewritten. *)
Theorem default_namespace_not_narrowed : ∀ injected,
  resolve_xs_prefix (nsmap ParseSamples.default_namespace) = Some "" ∧
  process_xsd_file elements injected ParseSamples.default_namespace
    = Some (Written (root ParseSamples.default_namespace)) ∧
  attr_at (root ParseSamples.default_namespace) [0; 0; 0] "type" = Some "date" ∧
  narrow_targets "" = [":integer"; ":boolean"; ":dateTime"; ":date"].
Proof. intros injected. vm_compute. repeat split; reflexivity. Qed.

(** A dangling name without an apostrophe is passed over: the iteration
    marks it and goes on with the rest of the queue over the same tree. *)
Lemma dangling_reference_ignored xs injected fuel current_type rest processed t log :
  Py.has_apostrophe current_type = false →
  current_type ∉ processed →
  complex_types_named xs t current_type = [] →
  while_loop xs injected (S fuel)
    {| complex_types_to_process := current_type :: rest; processed_types := processed;
       tree := t; expanded := log |}
  = while_loop xs injected fuel
      {| complex_types_to_process := rest;
         processed_types := {[current_type]} ∪ processed;
         tree := t; expanded := current_type :: log |}.
Proof.
  intros Hq Hnp Hnone. simpl. rewrite bool_decide_eq_false_2 by done.
  unfold find_complex_type. by rewrite Hq, Hnone.
Qed.

(** C7.  The type value [O'Brien] names no complex type of the document,
    and popping it ends [process_xsd_file] with an [XPathEvalError]: the
    tree is as parsed and nothing is written. *)
Theorem apostrophe_reference_raises : ∀ injected,
  complex_types_named "xs" (root ParseSamples.apostrophe_reference) "O'Brien" = [] ∧
  find_complex_type "xs" injected (root ParseSamples.apostrophe_reference) "O'Brien"
    = XPathEvalError ∧
  process_xsd_file elements injected ParseSamples.apostrophe_reference
    = Some (Raised (root ParseSamples.apostrophe_reference)).
Proof. intros injected. vm_compute. repeat split; reflexivity. Qed.

End RewriterProofs.

(** ** Further properties of the merger *)

Module MergerExtras.
Import Xml XsdMerge MergeFacts MergerProofs.

Lemma for_each_app {A} (l1 l2 : list A) (body : A → M unit) self :
  for_each (l1 ++ l2) body self = (for_each l1 body ≫= λ _, for_each l2 body) self.
Proof.
  revert self. induction l1 as [|x l1 IH]; intros self; simpl; [done|].
  unfold mbind, M_bind in *. destruct (body x self) as [[[] self1]| | |]; [|done..].
  apply IH.
Qed.

(** *** What one child does to the merger *)

(** On a merger that has a root, the loop body takes a child element
    with a blank tail without fail; it leaves the root as it was or with
    the child appended, and takes no name out of the sets. *)
Lemma process_element_appends c tail self r :
  merged_root self = Some r →
  Py.blank tail = true →
  ∃ self' extra, process_element c tail self = Ok (tt, self') ∧
    merged_root self' = Some (Node (tag r) (attrib r) (children r ++ extra)) ∧
    (extra = [] ∨ extra = [c]) ∧
    merged_elements self ⊆ merged_elements self' ∧
    merged_types self ⊆ merged_types self' ∧
    target_namespace self' = target_namespace self.
Proof.
  intros Hr Hb. unfold process_element.
  assert (Hsame : ∃ self' extra, Ok (tt, self) = Ok (tt, self') ∧
    merged_root self' = Some (Node (tag r) (attrib r) (children r ++ extra)) ∧
    (extra = [] ∨ extra = [c]) ∧
    merged_elements self ⊆ merged_elements self' ∧
    merged_types self ⊆ merged_types self' ∧
    target_namespace self' = target_namespace self).
  { exists self, []. rewrite app_nil_r. destruct r. simpl in *. by eauto 10. }
  destruct (Py.endswith (tag c) "}element").
  { destruct (Py.truthy _ && bool_decide _); [|done].
    eexists _, [c]. unfold mbind, M_bind, add_merged_element, append_copy. simpl.
    rewrite Hr, Hb. split; [done|]. simpl. split; [done|]. split; [by right|set_solver]. }
  destruct (Py.endswith (tag c) "}complexType" || Py.endswith (tag c) "}simpleType").
  { destruct (Py.truthy _ && bool_decide _); [|done].
    eexists _, [c]. unfold mbind, M_bind, add_merged_type, append_copy. simpl.
    rewrite Hr, Hb. split; [done|]. simpl. split; [done|]. split; [by right|set_solver]. }
  destruct (Py.endswith (tag c) "}import" || Py.endswith (tag c) "}include"); [|done].
  eexists _, [c]. unfold append_copy. rewrite Hr, Hb. split; [done|]. simpl.
  split; [done|]. split; [by right|done].
Qed.

Lemma for_each_process_child_appends l self r :
  Forall tidy_item l →
  merged_root self = Some r →
  ∃ self' extra, for_each l process_child self = Ok (tt, self') ∧
    merged_root self' = Some (Node (tag r) (attrib r) (children r ++ extra)) ∧
    extra `sublist_of` element_children l ∧
    merged_elements self ⊆ merged_elements self' ∧
    merged_types self ⊆ merged_types self' ∧
    target_namespace self' = target_namespace self.
Proof.
  intros Htidy. revert self r.
  induction Htidy as [|[c tail|tail] l Hb _ IH]; intros self r Hr; simpl; [|idtac|done].
  - exists self, []. rewrite app_nil_r. destruct r. simpl in *. by eauto 10.
  - destruct (process_element_appends c tail self r Hr Hb)
      as (self1 & x1 & Hrun1 & Hr1 & Hx1 & He1 & Ht1 & Hn1).
    destruct (IH _ _ Hr1) as (self2 & x2 & Hrun2 & Hr2 & Hx2 & He2 & Ht2 & Hn2).
    simpl in Hr2. exists self2, (x1 ++ x2)%list.
    rewrite (bind_ok (process_element c tail) _ _ _ _ Hrun1), Hrun2, Hr2, app_assoc.
    split; [done|]. split; [done|]. split; [|split; [set_solver|split; [set_solver|congruence]]].
    destruct Hx1 as [-> | ->]; simpl; [by apply sublist_cons|by apply sublist_skip].
Qed.

(** A child that brings nothing new: only an import or include is
    appended, and the sets stay as they are. *)
Lemma process_element_known c tail self r :
  merged_root self = Some r →
  Py.blank tail = true →
  all_known self [c] →
  ∃ self', process_element c tail self = Ok (tt, self') ∧
    merged_root self' = Some (Node (tag r) (attrib r) (children r ++ imports [c])) ∧
    merged_elements self' = merged_elements self ∧
    merged_types self' = merged_types self.
Proof.
  intros Hr Hb Hknown. specialize (Hknown c ltac:(left)).
  unfold imports. rewrite filter_cons, filter_nil.
  unfold process_element, kind_of in *.
  assert (Hsame : ∃ self', Ok (tt, self) = Ok (tt, self') ∧
    merged_root self' = Some (Node (tag r) (attrib r) (children r ++ [])) ∧
    merged_elements self' = merged_elements self ∧
    merged_types self' = merged_types self).
  { exists self. rewrite app_nil_r. by destruct r. }
  destruct (Py.endswith (tag c) "}element").
  { rewrite decide_False by done.
    destruct (Hknown ltac:(by left)) as [Hn|Hn]; simpl in Hn.
    - rewrite Hn. exact Hsame.
    - rewrite (bool_decide_eq_false_2 (_ ∉ _)) by (by intros ?).
      by rewrite andb_false_r. }
  destruct (Py.endswith (tag c) "}complexType" || Py.endswith (tag c) "}simpleType").
  { rewrite decide_False by done.
    destruct (Hknown ltac:(by right)) as [Hn|Hn]; simpl in Hn.
    - rewrite Hn. exact Hsame.
    - rewrite (bool_decide_eq_false_2 (_ ∉ _)) by (by intros ?).
      by rewrite andb_false_r. }
  destruct (Py.endswith (tag c) "}import" || Py.endswith (tag c) "}include").
  { rewrite decide_True by done. eexists. unfold append_copy. by rewrite Hr, Hb. }
  rewrite decide_False by done. exact Hsame.
Qed.

Lemma all_known_same self self' l :
  merged_elements self' = merged_elements self →
  merged_types self' = merged_types self →
  all_known self l → all_known self' l.
Proof.
  intros He Ht H c Hc Hnamed. destruct (H c Hc Hnamed) as [?|Hin]; [by left|].
  right. destruct Hnamed as [Hk|Hk]; rewrite Hk in *; simpl in *; congruence.
Qed.

Lemma for_each_process_child_known l self r :
  Forall tidy_item l →
  merged_root self = Some r →
  all_known self (element_children l) →
  ∃ self', for_each l process_child self = Ok (tt, self') ∧
    merged_root self' =
      Some (Node (tag r) (attrib r) (children r ++ imports (element_children l))) ∧
    merged_elements self' = merged_elements self ∧
    merged_types self' = merged_types self.
Proof.
  intros Htidy. revert self r.
  induction Htidy as [|[c tail|tail] l Hb _ IH]; intros self r Hr Hknown; simpl;
    [|idtac|done].
  - exists self. unfold imports. rewrite filter_nil, app_nil_r. by destruct r.
  - simpl in Hknown.
    destruct (process_element_known c tail self r Hr Hb) as (self1 & Hrun1 & Hr1 & He1 & Ht1).
    { intros c' ->%list_elem_of_singleton. apply Hknown. left. }
    destruct (IH _ _ Hr1) as (self2 & Hrun2 & Hr2 & He2 & Ht2).
    { apply (all_known_same self); [done..|]. intros c' Hc'. apply Hknown. by right. }
    simpl in Hr2. exists self2.
    rewrite (bind_ok (process_element c tail) _ _ _ _ Hrun1), Hrun2, Hr2.
    split; [done|]. split; [|split; congruence].
    unfold imports. rewrite <- app_assoc, <- filter_app. done.
Qed.

Lemma for_each_file_known fs rest roots self r :
  Forall2 (λ f root, fs f = Some root) rest roots →
  Forall tidy roots →
  merged_root self = Some r →
  all_known self (top_level roots) →
  ∃ self',
    for_each rest (λ file_path,
      load_xsd fs file_path ≫= λ current_root, _process_schema current_root) self
      = Ok (tt, self') ∧
    merged_root self' =
      Some (Node (tag r) (attrib r) (children r ++ imports (top_level roots))) ∧
    merged_elements self' = merged_elements self ∧
    merged_types self' = merged_types self.
Proof.
  intros Hfs. revert self r.
  induction Hfs as [|f root rest roots Hf Hfs IH]; intros self r Htidy Hr Hknown; simpl.
  - exists self. unfold top_level, imports. simpl. rewrite filter_nil, app_nil_r.
    by destruct r.
  - unfold top_level in Hknown. simpl in Hknown.
    apply Forall_cons in Htidy as [Htidy1 Htidy].
    destruct (for_each_process_child_known (root_items root) self r Htidy1 Hr)
      as (self1 & Hrun1 & Hr1 & He1 & Ht1).
    { intros c Hc. apply Hknown, elem_of_app. by left. }
    destruct (IH _ _ Htidy Hr1) as (self2 & Hrun2 & Hr2 & He2 & Ht2).
    { apply (all_known_same self); [done..|]. intros c Hc. apply Hknown, elem_of_app.
      by right. }
    simpl in Hr2. exists self2. split.
    + erewrite bind_ok; [exact Hrun2|].
      erewrite bind_ok; [|by apply load_xsd_ok]. exact Hrun1.
    + rewrite Hr2. split; [|split; congruence].
      unfold top_level, imports. simpl. by rewrite <- app_assoc, <- filter_app.
Qed.

Lemma for_each_file_appends fs more roots self r :
  Forall2 (λ f root, fs f = Some root) more roots →
  Forall tidy roots →
  merged_root self = Some r →
  ∃ self' extra,
    for_each more (λ file_path,
      load_xsd fs file_path ≫= λ current_root, _process_schema current_root) self
      = Ok (tt, self') ∧
    merged_root self' = Some (Node (tag r) (attrib r) (children r ++ extra)) ∧
    extra `sublist_of` top_level roots ∧
    merged_elements self ⊆ merged_elements self' ∧
    merged_types self ⊆ merged_types self' ∧
    target_namespace self' = target_namespace self.
Proof.
  intros Hfs. revert self r.
  induction Hfs as [|f root more roots Hf Hfs IH]; intros self r Htidy Hr; simpl.
  - exists self, []. rewrite app_nil_r. destruct r. simpl in *. by eauto 10.
  - apply Forall_cons in Htidy as [Htidy1 Htidy].
    destruct (for_each_process_child_appends (root_items root) self r Htidy1 Hr)
      as (self1 & x1 & Hrun1 & Hr1 & Hx1 & He1 & Ht1 & Hn1).
    destruct (IH _ _ Htidy Hr1) as (self2 & x2 & Hrun2 & Hr2 & Hx2 & He2 & Ht2 & Hn2).
    simpl in Hr2. exists self2, (x1 ++ x2)%list. split.
    + erewrite bind_ok; [exact Hrun2|].
      erewrite bind_ok; [|by apply load_xsd_ok]. exact Hrun1.
    + rewrite Hr2, app_assoc. split; [done|].
      split; [by apply sublist_app|]. split; [set_solver|split; [set_solver|congruence]].
Qed.

(** A merge of more files goes on from the merger that the merge of the
    first files leaves. *)
Lemma merge_schemas_more fs first rest more self0 r self :
  merge_schemas fs (first :: rest) self0 = Ok (Some r, self) →
  merged_root self = Some r ∧
  merge_schemas fs (first :: rest ++ more) self0 =
    (for_each more (λ file_path,
       load_xsd fs file_path ≫= λ current_root, _process_schema current_root)
     ≫= λ _, get_merged_root) self.
Proof.
  unfold merge_schemas. intros H.
  apply bind_ok_inv in H as (root & s1 & H1 & H).
  apply bind_ok_inv in H as (m & s2 & H2 & H).
  apply bind_ok_inv in H as ([] & s3 & H3 & H).
  apply bind_ok_inv in H as ([] & s4 & H4 & H).
  apply bind_ok_inv in H as ([] & s5 & H5 & H).
  unfold get_merged_root in H. injection H as Hr <-. split; [done|].
  erewrite bind_ok; [|exact H1]. erewrite bind_ok; [|exact H2].
  erewrite bind_ok; [|exact H3]. erewrite bind_ok; [|exact H4].
  unfold mbind, M_bind in H5 |- *. rewrite for_each_app.
  unfold mbind, M_bind. by rewrite H5.
Qed.

Lemma Forall2_parse_elem fs (l : list string) (roots : list schema) root :
  Forall2 (λ f root, fs f = Some root) l roots →
  root ∈ roots → ∃ f, f ∈ l ∧ fs f = Some root.
Proof.
  intros H Hin. apply list_elem_of_lookup in Hin as [i Hi].
  destruct (Forall2_lookup_r _ _ _ _ _ H Hi) as (f & Hf & Hfs).
  exists f. split; [|done]. by eapply list_elem_of_lookup_2.
Qed.

Lemma Forall2_parse_root fs (l : list string) (roots : list schema) f root :
  Forall2 (λ f root, fs f = Some root) l roots →
  f ∈ l → fs f = Some root → root ∈ roots.
Proof.
  intros H Hin Hf. apply list_elem_of_lookup in Hin as [i Hi].
  destruct (Forall2_lookup_l _ _ _ _ _ H Hi) as (root' & Hr & Hfs).
  assert (root' = root) as -> by congruence. by eapply list_elem_of_lookup_2.
Qed.

Lemma elem_of_top_level c roots :
  c ∈ top_level roots ↔ ∃ root, root ∈ roots ∧ c ∈ element_children (root_items root).
Proof.
  unfold top_level. induction roots as [|root roots IH]; simpl.
  - split; [by intros ?%elem_of_nil|]. by intros (? & ?%elem_of_nil & _).
  - rewrite elem_of_app, IH. split.
    + intros [?|(root' & ? & ?)]; [exists root|exists root']; set_solver.
    + intros (root' & [->|?]%elem_of_cons & ?); [by left|right; by exists root'].
Qed.

(** The children that went through a merger are known to it. *)
Lemma merge_inv_known seen self r l :
  merge_inv seen self r → (∀ c, c ∈ l → c ∈ seen) → all_known self l.
Proof.
  intros Hinv Hsub c Hc Hnamed.
  destruct (decide (get_type_name c = "")) as [?|Hne]; [by left|]. right.
  apply (inv_names _ _ _ Hinv); [done|]. split; [done|]. exists c. auto.
Qed.

(** *** Merging more files *)

(** X1.  Let the files of two lists parse to roots whose children are
    elements followed by blank text at most.  Listing the files of the
    second list after those of the first never changes what the first
    gave: the merged root of the longer list has the same attributes,
    its children start with the children of the merged root of the
    shorter list, and both sets of names only grow. *)
Theorem merge_extends fs (file_paths more : list string) (roots roots' : list schema) :
  file_paths ≠ [] →
  Forall2 (λ f root, fs f = Some root) file_paths roots →
  Forall2 (λ f root, fs f = Some root) more roots' →
  Forall tidy roots → Forall tidy roots' →
  ∃ self r self' r',
    merge_schemas fs file_paths __init__ = Ok (Some r, self) ∧
    merge_schemas fs (file_paths ++ more) __init__ = Ok (Some r', self') ∧
    children r `prefix_of` children r' ∧
    attrib r' = attrib r ∧ tag r' = tag r ∧
    merged_elements self ⊆ merged_elements self' ∧
    merged_types self ⊆ merged_types self'.
Proof.
  intros Hne Hfs Hmore Htidy Htidy'.
  destruct (Forall2_parse_cons _ _ _ Hne Hfs)
    as (first & rest & root & roots0 & -> & -> & Hf & Hrest).
  destruct (merge_schemas_inv fs first rest root roots0 Hf Hrest Htidy)
    as (self & r & Hrun & Hinv & _).
  destruct (merge_schemas_more fs first rest more _ _ _ Hrun) as [Hr Hrun'].
  destruct (for_each_file_appends fs more roots' self r Hmore Htidy' Hr)
    as (self' & extra & Hrun2 & Hr2 & _ & He & Ht & _).
  eexists self, r, self', _. split; [done|]. split.
  { rewrite <- app_comm_cons, Hrun'. erewrite bind_ok; [|exact Hrun2].
    unfold get_merged_root. by rewrite Hr2. }
  simpl. split; [by eexists|]. done.
Qed.

Lemma merge_extends_witness :
  let file_paths := ["first.xsd"] in
  let more := ["second.xsd"; "first.xsd"] in
  file_paths ≠ [] ∧
  Forall2 (λ f root, MergeSamples.fs f = Some root) file_paths [MergeSamples.first_root] ∧
  Forall2 (λ f root, MergeSamples.fs f = Some root) more
    [MergeSamples.second_root; MergeSamples.first_root] ∧
  Forall tidy [MergeSamples.first_root] ∧
  Forall tidy [MergeSamples.second_root; MergeSamples.first_root] ∧
  ∃ self r self' r',
    merge_schemas MergeSamples.fs file_paths __init__ = Ok (Some r, self) ∧
    merge_schemas MergeSamples.fs (file_paths ++ more) __init__ = Ok (Some r', self') ∧
    children r `prefix_of` children r'.
Proof.
  intros file_paths more.
  assert (H1 : file_paths ≠ []) by done.
  assert (H2 : Forall2 (λ f root, MergeSamples.fs f = Some root) file_paths
                 [MergeSamples.first_root]) by (repeat constructor).
  assert (H3 : Forall2 (λ f root, MergeSamples.fs f = Some root) more
                 [MergeSamples.second_root; MergeSamples.first_root])
    by (repeat constructor).
  assert (H4 : Forall tidy [MergeSamples.first_root]) by (repeat constructor).
  assert (H5 : Forall tidy [MergeSamples.second_root; MergeSamples.first_root])
    by (repeat constructor).
  do 5 (split; [assumption|]).
  destruct (merge_extends MergeSamples.fs file_paths more _ _ H1 H2 H3 H4 H5)
    as (self & r & self' & r' & Ha & Hb & Hc & _).
  by exists self, r, self', r'.
Defined.

(** X2.  Let the files of a list parse to roots whose children are
    elements followed by blank text at most.  Listing again files that
    the list already holds adds nothing but their imports and includes:
    the children of the merged root are those of the merge without the
    repeats, followed by the import and include children of the repeated
    files, and the sets of names are the same. *)
Theorem remerge_adds_only_imports fs (file_paths more : list string)
    (roots roots' : list schema) :
  file_paths ≠ [] →
  Forall2 (λ f root, fs f = Some root) file_paths roots →
  Forall2 (λ f root, fs f = Some root) more roots' →
  Forall tidy roots →
  (∀ f, f ∈ more → f ∈ file_paths) →
  ∃ self r self' r',
    merge_schemas fs file_paths __init__ = Ok (Some r, self) ∧
    merge_schemas fs (file_paths ++ more) __init__ = Ok (Some r', self') ∧
    children r' = (children r ++ imports (top_level roots'))%list ∧
    merged_elements self' = merged_elements self ∧
    merged_types self' = merged_types self.
Proof.
  intros Hne Hfs Hmore Htidy Hrepeat.
  assert (Hin : ∀ root', root' ∈ roots' → root' ∈ roots).
  { intros root' Hroot'.
    destruct (Forall2_parse_elem _ _ _ _ Hmore Hroot') as (f & Hfin & Hfroot).
    by eapply (Forall2_parse_root fs file_paths); [|apply Hrepeat|]. }
  assert (Htidy' : Forall tidy roots').
  { apply Forall_forall. intros root' Hroot'.
    by apply (proj1 (Forall_forall _ _) Htidy), Hin. }
  destruct (Forall2_parse_cons _ _ _ Hne Hfs)
    as (first & rest & root & roots0 & -> & -> & Hf & Hrest).
  destruct (merge_schemas_inv fs first rest root roots0 Hf Hrest Htidy)
    as (self & r & Hrun & Hinv & _).
  destruct (merge_schemas_more fs first rest more _ _ _ Hrun) as [Hr Hrun'].
  destruct (for_each_file_known fs more roots' self r Hmore Htidy' Hr)
    as (self' & Hrun2 & Hr2 & He & Ht).
  { apply (merge_inv_known _ _ _ _ Hinv).
    intros c (root' & Hroot' & Hc)%elem_of_top_level.
    apply elem_of_top_level. exists root'. split; [|done]. by apply Hin. }
  exists self, r, self',
    (Node (tag r) (attrib r) (children r ++ imports (top_level roots'))).
  split; [done|]. split; [|done].
  rewrite <- app_comm_cons, Hrun'. erewrite bind_ok; [|exact Hrun2].
  unfold get_merged_root. by rewrite Hr2.
Qed.

Lemma remerge_adds_only_imports_witness :
  let file_paths := ["first.xsd"; "second.xsd"] in
  let more := ["second.xsd"] in
  file_paths ≠ [] ∧
  Forall2 (λ f root, MergeSamples.fs f = Some root) file_paths
    [MergeSamples.first_root; MergeSamples.second_root] ∧
  Forall2 (λ f root, MergeSamples.fs f = Some root) more [MergeSamples.second_root] ∧
  Forall tidy [MergeSamples.first_root; MergeSamples.second_root] ∧
  (∀ f, f ∈ more → f ∈ file_paths) ∧
  ∃ self r self' r',
    merge_schemas MergeSamples.fs file_paths __init__ = Ok (Some r, self) ∧
    merge_schemas MergeSamples.fs (file_paths ++ more) __init__ = Ok (Some r', self') ∧
    children r' = (children r ++ imports (top_level [MergeSamples.second_root]))%list.
Proof.
  intros file_paths more.
  assert (H1 : file_paths ≠ []) by done.
  assert (H2 : Forall2 (λ f root, MergeSamples.fs f = Some root) file_paths
                 [MergeSamples.first_root; MergeSamples.second_root])
    by (repeat constructor).
  assert (H3 : Forall2 (λ f root, MergeSamples.fs f = Some root) more
                 [MergeSamples.second_root]) by (repeat constructor).
  assert (H4 : Forall tidy [MergeSamples.first_root; MergeSamples.second_root])
    by (repeat constructor).
  assert (H5 : ∀ f, f ∈ more → f ∈ file_paths).
  { intros f ->%list_elem_of_singleton. apply elem_of_cons. right. left. }
  do 5 (split; [assumption|]).
  destruct (remerge_adds_only_imports MergeSamples.fs file_paths more _ _ H1 H2 H3 H4 H5)
    as (self & r & self' & r' & Ha & Hb & Hc & _).
  by exists self, r, self', r'.
Defined.

(** X3.  A merger object is not fit for a second merge: [merge_schemas]
    starts a new root but keeps the sets of names.  For files that parse
    to roots whose children are elements followed by blank text at most,
    run again on the merger that a merge of the same files left, it
    returns a root with the attributes of the first file whose only
    children are the import and include children of the files. *)
Theorem merger_reuse_drops_declarations fs (file_paths : list string)
    (roots : list schema) :
  file_paths ≠ [] →
  Forall2 (λ f root, fs f = Some root) file_paths roots →
  Forall tidy roots →
  ∃ self1 r1 self2 r2,
    merge_schemas fs file_paths __init__ = Ok (Some r1, self1) ∧
    merge_schemas fs file_paths self1 = Ok (Some r2, self2) ∧
    children r2 = imports (top_level roots) ∧
    attrib r2 = attrib r1 ∧
    merged_elements self2 = merged_elements self1 ∧
    merged_types self2 = merged_types self1.
Proof.
  intros Hne Hfs Htidy.
  destruct (Forall2_parse_cons _ _ _ Hne Hfs)
    as (first & rest & root & roots0 & -> & -> & Hf & Hrest).
  destruct (merge_schemas_inv fs first rest root roots0 Hf Hrest Htidy)
    as (self1 & r1 & Hrun & Hinv & _ & Hattr1).
  apply Forall_cons in Htidy as [Htidy1 Htidy].
  destruct (initialize_merged_schema_spec root self1)
    as (m & s0 & Hinit & Htag & Hattr & Hch & Hty & Hel).
  pose (s1 := {| merged_types := merged_types s0;
                 merged_elements := merged_elements s0;
                 merged_root := Some m;
                 target_namespace := target_namespace s0 |}).
  assert (Hknown : all_known s1 (top_level (root :: roots0))).
  { apply (all_known_same self1); [done..|]. by apply (merge_inv_known _ _ _ _ Hinv). }
  unfold top_level in Hknown. simpl in Hknown.
  destruct (for_each_process_child_known (root_items root) s1 m Htidy1 eq_refl)
    as (s2 & Hrun2 & Hr2 & He2 & Ht2).
  { intros c Hc. apply Hknown, elem_of_app. by left. }
  destruct (for_each_file_known fs rest roots0 s2 _ Hrest Htidy Hr2)
    as (s3 & Hrun3 & Hr3 & He3 & Ht3).
  { apply (all_known_same s1); [done..|]. intros c Hc. apply Hknown, elem_of_app.
    by right. }
  eexists self1, r1, s3, _. split; [done|]. split.
  { unfold merge_schemas.
    erewrite bind_ok; [|by apply load_xsd_ok]. erewrite bind_ok; [|exact Hinit].
    erewrite bind_ok; [|reflexivity]. erewrite bind_ok; [|exact Hrun2].
    erewrite bind_ok; [|exact Hrun3]. unfold get_merged_root. by rewrite Hr3. }
  simpl. rewrite Hch. simpl. unfold top_level, imports. simpl.
  rewrite filter_app. split; [done|]. split; [congruence|]. split; simpl in *; congruence.
Qed.

Lemma merger_reuse_drops_declarations_witness :
  let file_paths := ["first.xsd"; "second.xsd"] in
  let roots := [MergeSamples.first_root; MergeSamples.second_root] in
  file_paths ≠ [] ∧
  Forall2 (λ f root, MergeSamples.fs f = Some root) file_paths roots ∧
  Forall tidy roots ∧
  ∃ self1 r1 self2 r2,
    merge_schemas MergeSamples.fs file_paths __init__ = Ok (Some r1, self1) ∧
    merge_schemas MergeSamples.fs file_paths self1 = Ok (Some r2, self2) ∧
    children r2 = imports (top_level roots).
Proof.
  intros file_paths roots.
  assert (H1 : file_paths ≠ []) by done.
  assert (H2 : Forall2 (λ f root, MergeSamples.fs f = Some root) file_paths roots)
    by (repeat constructor).
  assert (H3 : Forall tidy roots) by (repeat constructor).
  do 3 (split; [assumption|]).
  destruct (merger_reuse_drops_declarations MergeSamples.fs file_paths roots H1 H2 H3)
    as (self1 & r1 & self2 & r2 & Ha & Hb & Hc & _).
  by exists self1, r1, self2, r2.
Defined.

(** *** Files without conflicts *)

Lemma filter_sublist_mono {A} (P : A → Prop) `{!∀ x, Decision (P x)} (l k : list A) :
  l `sublist_of` k → filter P l `sublist_of` filter P k.
Proof.
  induction 1 as [|x l k _ IH|x l k _ IH]; [done| |]; rewrite !filter_cons.
  - destruct (decide (P x)); [by apply sublist_skip|done].
  - destruct (decide (P x)); [by apply sublist_cons|done].
Qed.

(** A sublist that holds all of one part of a list and, of the rest,
    each of its pairwise distinct members, is the list. *)
Lemma sublist_full {A} (P : A → Prop) `{!∀ x, Decision (P x)} (l k : list A) :
  l `sublist_of` k →
  filter P l = filter P k →
  (∀ x, x ∈ k → ¬ P x → x ∈ l) →
  NoDup (filter (λ x, ¬ P x) k) →
  l = k.
Proof.
  induction 1 as [|x l k Hsub IH|x l k Hsub IH]; intros Hf Hin Hnd; [done| |].
  - f_equal. apply IH.
    + destruct (decide (P x)).
      * rewrite !filter_cons_True in Hf by done. by injection Hf.
      * by rewrite !filter_cons_False in Hf by done.
    + intros y Hy Hny.
      assert (y ∈ x :: l) as [->|?]%elem_of_cons by (apply Hin; [by right|done]);
        [|done].
      rewrite filter_cons_True in Hnd by done. apply NoDup_cons in Hnd as [Hx _].
      destruct Hx. by apply list_elem_of_filter.
    + destruct (decide (P x)).
      * by rewrite filter_cons_False in Hnd by tauto.
      * rewrite filter_cons_True in Hnd by done. by apply NoDup_cons in Hnd as [_ ?].
  - exfalso. destruct (decide (P x)) as [Hx|Hx].
    + pose proof (sublist_length _ _ (filter_sublist_mono P _ _ Hsub)) as Hlen.
      rewrite Hf, filter_cons_True in Hlen by done. simpl in Hlen. lia.
    + rewrite filter_cons_True in Hnd by done. apply NoDup_cons in Hnd as [Hnx _].
      apply Hnx, list_elem_of_filter. split; [done|].
      eapply sublist_subseteq; [done|]. apply Hin; [left|done].
Qed.

(** X4.  Files that parse to roots whose children are elements followed
    by blank text at most, and that bring no conflict (every top-level
    child an import, an include, or an element or type with a name, and
    no name twice in a kind), are merged without loss: the children of
    the merged root are the top-level children of the files, in
    file-list order and document order. *)
Theorem merge_without_conflicts_keeps_all fs (file_paths : list string)
    (roots : list schema) :
  file_paths ≠ [] →
  Forall2 (λ f root, fs f = Some root) file_paths roots →
  Forall tidy roots →
  conflict_free (top_level roots) →
  ∃ self r, merge_schemas fs file_paths __init__ = Ok (Some r, self) ∧
    children r = top_level roots.
Proof.
  intros Hne Hfs Htidy [Hall Hnd].
  destruct (Forall2_parse_cons _ _ _ Hne Hfs)
    as (first & rest & root & roots0 & -> & -> & Hf & Hrest).
  destruct (merge_schemas_inv fs first rest root roots0 Hf Hrest Htidy)
    as (self & r & Hrun & Hinv & _).
  exists self, r. split; [done|].
  set (L := top_level (root :: roots0)) in *.
  assert (Hnd' : NoDup (filter (λ c, ¬ kind_of c = KImport) L))
    by (by apply NoDup_fmap_1 in Hnd).
  apply (sublist_full (λ c, kind_of c = KImport)).
  - apply Hinv.
  - apply Hinv.
  - intros c Hc Hni. apply list_elem_of_split in Hc as (pre & post & HL).
    destruct (proj1 (Forall_forall _ _) Hall c) as [Hno Hname];
      [rewrite HL; set_solver|].
    assert (Hnamed : named (kind_of c)).
    { unfold named. destruct (kind_of c); tauto. }
    apply (inv_first_in _ _ _ Hinv pre c post HL Hnamed (Hname Hnamed)).
    intros c' Hc' Hk Hn. rewrite HL, filter_app, filter_cons, decide_True in Hnd
      by done.
    rewrite fmap_app in Hnd. apply NoDup_app in Hnd as (_ & Hdis & _).
    apply (Hdis (kind_of c, get_type_name c)).
    + apply list_elem_of_fmap. exists c'. split; [congruence|].
      apply list_elem_of_filter. split; [congruence|done].
    + rewrite fmap_cons. left.
  - done.
Qed.

Lemma merge_without_conflicts_keeps_all_witness :
  ["first.xsd"] ≠ [] ∧
  Forall2 (λ f root, MergeSamples.fs f = Some root) ["first.xsd"]
    [MergeSamples.first_root] ∧
  Forall tidy [MergeSamples.first_root] ∧
  conflict_free (top_level [MergeSamples.first_root]) ∧
  ∃ self r, merge_schemas MergeSamples.fs ["first.xsd"] __init__ = Ok (Some r, self) ∧
    children r = top_level [MergeSamples.first_root].
Proof.
  assert (H1 : ["first.xsd"] ≠ []) by done.
  assert (H2 : Forall2 (λ f root, MergeSamples.fs f = Some root) ["first.xsd"]
                 [MergeSamples.first_root]) by (repeat constructor).
  assert (H3 : Forall tidy [MergeSamples.first_root]) by (repeat constructor).
  assert (H4 : conflict_free (top_level [MergeSamples.first_root])).
  { unfold conflict_free. apply (bool_decide_unpack _). vm_compute. exact I. }
  do 4 (split; [assumption|]).
  exact (merge_without_conflicts_keeps_all MergeSamples.fs _ _ H1 H2 H3 H4).
Defined.

(** *** The run of [main] and the merger it leaves *)

Lemma Forall_parse_roots (fs : files) (l : list string) :
  Forall (λ f, is_Some (fs f)) l → ∃ roots, Forall2 (λ f root, fs f = Some root) l roots.
Proof.
  induction 1 as [|f l [root Hf] _ [roots IH]]; [by exists []|].
  exists (root :: roots). by constructor.
Qed.

(** A merge that returns has a root to return. *)
Lemma merge_schemas_some fs file_paths self0 o self :
  merge_schemas fs file_paths self0 = Ok (o, self) → ∃ r, o = Some r ∧ merged_root self = Some r.
Proof.
  unfold merge_schemas. destruct file_paths as [|first rest]; [done|]. intros H.
  apply bind_ok_inv in H as (root & s1 & H1 & H).
  apply bind_ok_inv in H as (m & s2 & H2 & H).
  apply bind_ok_inv in H as ([] & s3 & H3 & H).
  apply bind_ok_inv in H as ([] & s4 & H4 & H).
  apply bind_ok_inv in H as ([] & s5 & H5 & H).
  unfold get_merged_root in H. injection H as <- <-.
  unfold set_merged_root in H3. injection H3 as <-.
  eapply for_each_process_child_ok in H4 as (x4 & Hr4 & _); [|reflexivity].
  eapply for_each_file_ok_root in H5 as (x5 & Hr5 & _); [|exact Hr4].
  rewrite Hr5. by eexists.
Qed.

(** X5.  [main] ends with status 0 or with status 1, and it writes a
    tree exactly when it ends with status 0.  It ends with status 0
    whenever the input directory exists, the glob finds a file and every
    file found parses to a root whose children are elements followed by
    blank text at most; and only if the directory exists, the glob finds
    a file and every file found parses.  The tree it writes has the
    schema tag and the attributes of the root of the first file. *)
Theorem main_outcomes (fs : files) (input_dir_exists : bool) (xsd_files : list string) :
  let out := main fs input_dir_exists xsd_files in
  (exit_status out = 0%Z ∨ exit_status out = 1%Z) ∧
  (exit_status out = 0%Z ↔ is_Some (written out)) ∧
  (input_dir_exists = true ∧ xsd_files ≠ [] ∧
     (∃ roots, Forall2 (λ f root, fs f = Some root) xsd_files roots ∧ Forall tidy roots) →
   exit_status out = 0%Z) ∧
  (exit_status out = 0%Z →
     input_dir_exists = true ∧ xsd_files ≠ [] ∧ Forall (λ f, is_Some (fs f)) xsd_files) ∧
  (∀ r, written out = Some r →
     ∃ first root, head xsd_files = Some first ∧ fs first = Some root ∧
       tag r = clark XSD "schema" ∧ attrib r = root_attrib root).
Proof.
  intros out. subst out. unfold main.
  destruct input_dir_exists; cbn [negb].
  2:{ split; [by right|]. split; [split; [done|by intros [? [=]]]|].
      split; [by intros [[=] _]|]. split; [done|]. by intros r [=]. }
  destruct xsd_files as [|first rest].
  { split; [by right|]. split; [split; [done|by intros [? [=]]]|].
    split; [by intros (_ & ? & _)|]. split; [done|]. by intros r [=]. }
  destruct (merge_schemas fs (first :: rest) __init__) as [[o self]|code| |] eqn:Hrun.
  - destruct (merge_schemas_some _ _ _ _ _ Hrun) as (r & -> & Hr).
    destruct (merge_schemas_ok _ _ _ _ Hrun) as [_ Hall].
    destruct (merge_schemas_returns _ _ _ _ _ Hrun) as (root & Hroot & _ & Htag & Hattr & _).
    cbn. unfold save_merged_schema. rewrite Hr.
    split; [by left|]. split; [by split; [eexists|]|]. split; [done|].
    split; [done|]. intros r' [= <-]. by exists first, root.
  - pose proof (merge_schemas_exit _ _ _ _ Hrun) as ->. cbn.
    split; [by right|]. split; [split; [done|by intros [? [=]]]|].
    split; [|split; [done|by intros r [=]]].
    intros (_ & _ & roots & Hfs & Htidy). exfalso.
    destruct (Forall2_parse_cons fs (first :: rest) roots ltac:(done) Hfs)
      as (first' & rest' & root & roots0 & [= <- <-] & -> & Hf & Hrest).
    destruct (merge_schemas_inv fs first rest root roots0 Hf Hrest Htidy)
      as (self & r & Hrun' & _).
    congruence.
  - cbn. split; [by right|]. split; [split; [done|by intros [? [=]]]|].
    split; [|split; [done|by intros r [=]]].
    intros (_ & _ & roots & Hfs & Htidy). exfalso.
    destruct (Forall2_parse_cons fs (first :: rest) roots ltac:(done) Hfs)
      as (first' & rest' & root & roots0 & [= <- <-] & -> & Hf & Hrest).
    destruct (merge_schemas_inv fs first rest root roots0 Hf Hrest Htidy)
      as (self & r & Hrun' & _).
    congruence.
  - cbn. split; [by right|]. split; [split; [done|by intros [? [=]]]|].
    split; [|split; [done|by intros r [=]]].
    intros (_ & _ & roots & Hfs & Htidy). exfalso.
    destruct (Forall2_parse_cons fs (first :: rest) roots ltac:(done) Hfs)
      as (first' & rest' & root & roots0 & [= <- <-] & -> & Hf & Hrest).
    destruct (merge_schemas_inv fs first rest root roots0 Hf Hrest Htidy)
      as (self & r & Hrun' & _).
    congruence.
Qed.

(** X6.  After a merge of files that parse to roots whose children are
    elements followed by blank text at most, the sets of the merger hold
    exactly the non-empty names of the top-level element children, and
    of the top-level complexType and simpleType children, of the
    files. *)
Theorem merged_names_are_input_names fs (file_paths : list string) (roots : list schema) :
  file_paths ≠ [] →
  Forall2 (λ f root, fs f = Some root) file_paths roots →
  Forall tidy roots →
  ∃ self r, merge_schemas fs file_paths __init__ = Ok (Some r, self) ∧
    (∀ n, n ∈ merged_elements self ↔
       n ≠ "" ∧ ∃ c, c ∈ top_level roots ∧ kind_of c = KElement ∧ get_type_name c = n) ∧
    (∀ n, n ∈ merged_types self ↔
       n ≠ "" ∧ ∃ c, c ∈ top_level roots ∧ kind_of c = KType ∧ get_type_name c = n).
Proof.
  intros Hne Hfs Htidy.
  destruct (Forall2_parse_cons _ _ _ Hne Hfs)
    as (first & rest & root & roots0 & -> & -> & Hf & Hrest).
  destruct (merge_schemas_inv fs first rest root roots0 Hf Hrest Htidy)
    as (self & r & Hrun & Hinv & _).
  exists self, r. split; [done|]. split; intros n.
  - apply (inv_names _ _ _ Hinv KElement n). by left.
  - apply (inv_names _ _ _ Hinv KType n). by right.
Qed.

Lemma merged_names_are_input_names_witness :
  let file_paths := ["first.xsd"; "second.xsd"] in
  let roots := [MergeSamples.first_root; MergeSamples.second_root] in
  file_paths ≠ [] ∧
  Forall2 (λ f root, MergeSamples.fs f = Some root) file_paths roots ∧
  Forall tidy roots ∧
  ∃ self r, merge_schemas MergeSamples.fs file_paths __init__ = Ok (Some r, self) ∧
    "city" ∈ merged_elements self.
Proof.
  intros file_paths roots.
  assert (H1 : file_paths ≠ []) by done.
  assert (H2 : Forall2 (λ f root, MergeSamples.fs f = Some root) file_paths roots)
    by (repeat constructor).
  assert (H3 : Forall tidy roots) by (repeat constructor).
  do 3 (split; [assumption|]).
  destruct (merged_names_are_input_names MergeSamples.fs file_paths roots H1 H2 H3)
    as (self & r & Hrun & Hel & _).
  exists self, r. split; [done|]. apply Hel. split; [discriminate|].
  exists (Node (MergeSamples.xs "element") {[ "name" := "city" ]} []).
  split; [|split; reflexivity]. apply list_elem_of_lookup. by exists 8.
Defined.

(** X7.  Whenever [merge_schemas] returns, the first file parsed and the
    field [target_namespace] holds the [targetNamespace] attribute of its
    root, or the empty string when the root has none; the later files
    have no say in it. *)
Theorem target_namespace_of_first_file fs (first : string) (rest : list string) r self :
  merge_schemas fs (first :: rest) __init__ = Ok (Some r, self) →
  ∃ root, fs first = Some root ∧
    target_namespace self =
      match root_attrib root !! "targetNamespace" with Some v => v | None => "" end.
Proof.
  intros H. destruct (merge_schemas_returns _ _ _ _ _ H) as (root & Hroot & _ & _ & _ & Hns).
  by exists root.
Qed.

Lemma target_namespace_of_first_file_witness :
  ∃ r self,
    merge_schemas MergeSamples.fs ["first.xsd"; "second.xsd"] __init__ = Ok (Some r, self) ∧
    target_namespace self = "urn:first".
Proof.
  assert (∃ r self, merge_schemas MergeSamples.fs ["first.xsd"; "second.xsd"] __init__
            = Ok (Some r, self)) as (r & self & Hrun)
    by (vm_compute; eexists _, _; reflexivity).
  exists r, self. split; [exact Hrun|].
  destruct (target_namespace_of_first_file MergeSamples.fs _ _ _ _ Hrun)
    as (root & Hroot & ->).
  injection Hroot as <-. reflexivity.
Defined.

(** *** The test on the tag *)

Lemma length_append (a b : string) :
  String.length (a +:+ b) = String.length a + String.length b.
Proof. induction a as [|x a IH]; [done|]. rewrite RewriterProofs.append_cons. simpl. by rewrite IH. Qed.

Lemma substring_append_skip (a b : string) n m :
  String.substring (String.length a + n) m (a +:+ b) = String.substring n m b.
Proof. induction a as [|x a IH]; [done|]. rewrite RewriterProofs.append_cons. apply IH. Qed.

(** The suffix test looks at the end of the string only. *)
Lemma endswith_append (a b suf : string) :
  String.length suf ≤ String.length b →
  Py.endswith (a +:+ b) suf = Py.endswith b suf.
Proof.
  intros Hle. unfold Py.endswith. rewrite length_append.
  replace (String.length a + String.length b - String.length suf)
    with (String.length a + (String.length b - String.length suf)) by lia.
  rewrite substring_append_skip. f_equal.
  rewrite (leb_correct _ _ Hle). apply leb_correct. lia.
Qed.

Lemma substring_all (s : string) : String.substring 0 (String.length s) s = s.
Proof. induction s as [|x s IH]; [done|]. simpl. by rewrite IH. Qed.

Lemma substring_split (s : string) k :
  k ≤ String.length s →
  s = String.substring 0 k s +:+ String.substring k (String.length s - k) s.
Proof.
  revert k. induction s as [|x s IH]; intros k Hk; simpl in *.
  - by replace k with 0 by lia.
  - destruct k as [|k]; simpl.
    + by rewrite substring_all.
    + rewrite RewriterProofs.append_cons. f_equal. apply IH. lia.
Qed.

(** [s.endswith(suf)] holds exactly of the strings that end with [suf]. *)
Lemma endswith_spec (s suf : string) :
  Py.endswith s suf = true ↔ ∃ pre, s = pre +:+ suf.
Proof.
  split.
  - unfold Py.endswith. intros [Hle Heq]%andb_true_iff.
    apply Nat.leb_le in Hle. apply String.eqb_eq in Heq.
    exists (String.substring 0 (String.length s - String.length suf) s).
    etrans; [apply (substring_split s (String.length s - String.length suf)); lia|].
    f_equal.
    replace (String.length s - (String.length s - String.length suf))
      with (String.length suf) by lia.
    exact Heq.
  - intros [pre ->]. rewrite endswith_append by done. unfold Py.endswith.
    rewrite Nat.sub_diag, substring_all, String.eqb_refl, Nat.leb_refl. done.
Qed.

(** A string does not end with [suf] when its known end excludes an end
    of [suf]. *)
Lemma endswith_append_false (a b suf pre suf' : string) :
  suf = pre +:+ suf' →
  String.length suf' ≤ String.length b →
  Py.endswith b suf' = false →
  Py.endswith (a +:+ b) suf = false.
Proof.
  intros -> Hle Hb. apply not_true_is_false. intros [p Hp]%endswith_spec.
  rewrite <- (endswith_append a) in Hb by done.
  rewrite Hp, <- RewriterProofs.append_assoc in Hb.
  assert (Py.endswith ((p +:+ pre) +:+ suf') suf' = true) as Ht
    by (apply endswith_spec; by eexists).
  congruence.
Qed.

(** X8.  [_process_schema] tells the kinds by the local name after the
    closing brace of the tag, whatever the namespace: an [element],
    [complexType], [simpleType], [import] or [include] of any namespace
    URI is taken as one, and the same names in no namespace, whose tag
    has no brace, are of no kind and are left out of the merge. *)
Theorem kind_ignores_namespace (uri : string) (a : gmap string string) (cs : list node) :
  kind_of (Node (clark uri "element") a cs) = KElement ∧
  kind_of (Node (clark uri "complexType") a cs) = KType ∧
  kind_of (Node (clark uri "simpleType") a cs) = KType ∧
  kind_of (Node (clark uri "import") a cs) = KImport ∧
  kind_of (Node (clark uri "include") a cs) = KImport ∧
  kind_of (Node "element" a cs) = KOther ∧
  kind_of (Node "complexType" a cs) = KOther ∧
  kind_of (Node "simpleType" a cs) = KOther ∧
  kind_of (Node "import" a cs) = KOther ∧
  kind_of (Node "include" a cs) = KOther.
Proof.
  assert (Hc : ∀ local, clark uri local = ("{" +:+ uri) +:+ ("}" +:+ local))
    by (intros local; unfold clark; by rewrite RewriterProofs.append_assoc).
  unfold kind_of. simpl. rewrite !Hc. repeat split; try reflexivity.
  - by rewrite endswith_append by (simpl; lia).
  - rewrite (endswith_append _ _ "}element") by (simpl; lia).
    by rewrite (endswith_append _ _ "}complexType") by (simpl; lia).
  - rewrite (endswith_append _ _ "}element") by (simpl; lia).
    rewrite (endswith_append_false _ _ "}complexType" "}c" "omplexType")
      by (try reflexivity; simpl; lia).
    by rewrite (endswith_append _ _ "}simpleType") by (simpl; lia).
  - rewrite (endswith_append_false _ _ "}element" "}" "element")
      by (try reflexivity; simpl; lia).
    rewrite (endswith_append_false _ _ "}complexType" "}compl" "exType")
      by (try reflexivity; simpl; lia).
    rewrite (endswith_append_false _ _ "}simpleType" "}simp" "leType")
      by (try reflexivity; simpl; lia).
    by rewrite (endswith_append _ _ "}import") by (simpl; lia).
  - rewrite (endswith_append _ _ "}element") by (simpl; lia).
    rewrite (endswith_append_false _ _ "}complexType" "}comp" "lexType")
      by (try reflexivity; simpl; lia).
    rewrite (endswith_append_false _ _ "}simpleType" "}sim" "pleType")
      by (try reflexivity; simpl; lia).
    rewrite (endswith_append_false _ _ "}import" "" "}import")
      by (try reflexivity; simpl; lia).
    by rewrite (endswith_append _ _ "}include") by (simpl; lia).
Qed.

End MergerExtras.

(** ** Further properties of the rewriter *)

Module RewriterExtras.
Import Xml XsdParse RewriteFacts TreeProofs RewriterProofs.

#[local] Arguments is_type_reference : simpl never.
#[local] Arguments is_narrow_target : simpl never.

Section reach.
Context (xs : string) (t0 : node).

(** The loop expands reached names only and touches reached elements
    only. *)
Lemma while_loop_reach fuel w e :
  reach_inv xs t0 w → while_loop xs rejecting fuel w = Some e →
  reach_inv xs t0 (end_state e).
Proof.
  revert w. induction fuel as [|fuel IH]; intros [queue processed t log] Hinv Hrun;
    [done|].
  destruct Hinv as [Hnf Hq Hp Ht]. simpl in *.
  destruct queue as [|c rest]; [by injection Hrun as <-|].
  assert (Hrest : ∀ n, n ∈ rest → reached_name xs t0 n) by (intros n ?; apply Hq; by right).
  assert (Hp' : ∀ n, n ∈ {[c]} ∪ processed → reached_name xs t0 n).
  { intros n [->%elem_of_singleton|?]%elem_of_union; [apply Hq; left|by apply Hp]. }
  case_bool_decide; [refine (IH _ _ Hrun); by split|].
  rewrite find_complex_type_rejecting in Hrun. destruct (Py.has_apostrophe c).
  { injection Hrun as <-. by split. }
  destruct (complex_types_named xs t c) as [|d ds] eqn:Hfound;
    [refine (IH _ _ Hrun); by split|].
  assert (Hd : reachable xs t0 d).
  { destruct (Hq c ltac:(left)) as (c0 & Hc0 & Hr).
    apply (reach_reference xs t0 c0 c d Hc0 Hr). unfold declaration.
    by rewrite <- (narrowed_from_complex_types_named xs t0 t), Hfound. }
  assert (Hel : elements_in xs t d = elements_in xs t0 d)
    by (by apply narrowed_from_elements_in).
  destruct (visit_nested_fold xs ({[c]} ∪ processed) (elements_in xs t d) rest t)
    as (Htree & added & Hq' & _ & Hadded); [by intros ? ?%(elements_in_tag xs)|].
  destruct (narrow_fold xs (elements_in xs t d) t) as (Hnf' & _ & Hout);
    [by intros ? ?%(elements_in_tag xs)|].
  refine (IH _ _ Hrun). split; simpl.
  - rewrite Htree. by eapply narrowed_from_trans.
  - intros n. rewrite Hq', elem_of_app.
    intros [?|(e' & He' & Hty & Href & _)%Hadded]; [by apply Hrest|].
    exists d. split; [done|]. exists e'. rewrite <- Hel. split; [done|]. split; [|done].
    rewrite <- Hty. symmetry. apply (narrowed_from_reference xs); [done|]. by rewrite Hty.
  - done.
  - intros q. rewrite Htree.
    destruct (decide (q ∈ elements_in xs t d)) as [Hin|Hnin].
    + right. exists d. by rewrite <- Hel.
    + rewrite (Hout q Hnin). apply Ht.
Qed.

(** The names processed when the queue is exhausted hold no apostrophe. *)
Lemma while_loop_clean fuel w w' :
  while_loop xs rejecting fuel w = Some (Exhausted w') →
  (∀ n, n ∈ processed_types w → Py.has_apostrophe n = false) →
  ∀ n, n ∈ processed_types w' → Py.has_apostrophe n = false.
Proof.
  revert w. induction fuel as [|fuel IH]; intros w Hrun Hclean; [done|].
  simpl in Hrun. destruct (complex_types_to_process w) as [|c rest];
    [by injection Hrun as <-|].
  case_bool_decide; [by apply (IH _ Hrun)|].
  rewrite find_complex_type_rejecting in Hrun.
  destruct (Py.has_apostrophe c) eqn:Hc; [done|].
  assert (∀ n, n ∈ {[c]} ∪ processed_types w → Py.has_apostrophe n = false).
  { intros n [->%elem_of_singleton|?]%elem_of_union; [done|by apply Hclean]. }
  destruct (complex_types_named xs (tree w) c); by apply (IH _ Hrun).
Qed.

End reach.

Lemma reachable_needs_target xs t c :
  complex_types_named xs t target = [] → ¬ reachable xs t c.
Proof.
  intros Hnone. induction 1 as [gc Hgc|]; [|done].
  rewrite Hnone in Hgc. by apply elem_of_nil in Hgc.
Qed.

(** What is reached in a narrowed tree is reached in the tree it was
    narrowed from. *)
Lemma refers_to_narrowed xs t0 t c n :
  narrowed_from xs t0 t → refers_to xs t c n → refers_to xs t0 c n.
Proof.
  intros Hnf (e & He & Hty & Href). exists e.
  rewrite <- (narrowed_from_elements_in xs t0 t) by done.
  split; [done|]. split; [|done].
  rewrite <- Hty. symmetry. apply (narrowed_from_reference xs); [done|]. by rewrite Hty.
Qed.

Lemma reachable_narrowed xs t0 t c :
  narrowed_from xs t0 t → reachable xs t c → reachable xs t0 c.
Proof.
  intros Hnf. induction 1 as [gc Hgc|c n d _ IH Hr Hd].
  - apply reach_target. by rewrite <- (narrowed_from_complex_types_named xs t0 t).
  - apply (reach_reference xs t0 c n d IH); [by eapply refers_to_narrowed|].
    unfold declaration in *. by rewrite <- (narrowed_from_complex_types_named xs t0 t).
Qed.

(** A narrowed tree has no more queries of its own than the tree it was
    narrowed from. *)
Lemma no_injection_narrowed xs t0 t :
  narrowed_from xs t0 t → no_injection xs t0 → no_injection xs t.
Proof.
  intros Hnf Hplain q ty Hty Href. apply (Hplain q); [|done].
  rewrite <- Hty. symmetry. apply (narrowed_from_reference xs); [done|]. by rewrite Hty.
Qed.

Section process.
Context (list_of_set : gset string → list string).

Lemma run_worklist_reach xs t0 e :
  (∀ (s : gset string) ty, ty ∈ list_of_set s → ty ∈ s) →
  run_worklist list_of_set rejecting xs t0 (complex_types_named xs t0 target) = Some e →
  reach_inv xs t0 (end_state e).
Proof.
  intros Hlos Hrun. unfold run_worklist in Hrun.
  apply (while_loop_reach xs t0 _ _ _) in Hrun; [done|].
  split; simpl.
  - apply narrowed_from_refl.
  - intros n (gc & Hgc & Hr)%Hlos%collect_nested_types_spec.
    exists gc. split; [by apply reach_target|done].
  - by intros n ?%not_elem_of_empty.
  - by left.
Qed.

(** With the queue exhausted, every reached name has been processed. *)
Lemma reached_name_processed xs t0 w n :
  loop_inv xs t0 (collect_nested_types xs t0 (complex_types_named xs t0 target)) w →
  complex_types_to_process w = [] →
  reached_name xs t0 n → n ∈ processed_types w.
Proof.
  intros Hinv Hq (c & Hc & Hr).
  destruct (reachable_processed xs t0 w c Hinv Hq Hc) as [Hgc|(m & Hm & Hd)].
  - destruct (li_start xs _ _ _ Hinv n) as [?|Hin]; [|done|].
    + apply collect_nested_types_spec. by exists c.
    + rewrite Hq in Hin. by apply elem_of_nil in Hin.
  - destruct (li_closed xs _ _ _ Hinv m c n Hm Hd Hr) as [?|Hin]; [done|].
    rewrite Hq in Hin. by apply elem_of_nil in Hin.
Qed.

(** The tree that [process_xsd_file] writes, element by element. *)
Lemma written_exact doc xs t' :
  (∀ (s : gset string) ty, ty ∈ list_of_set s ↔ ty ∈ s) →
  resolve_xs_prefix (nsmap doc) = Some xs →
  process_xsd_file list_of_set rejecting doc = Some (Written t') →
  narrowed_from xs (root doc) t' ∧
  (∀ q, reached_element xs (root doc) q →
     is_narrow_target xs (attr_at t' q "type") = false) ∧
  (∀ q, attrib_at t' q = attrib_at (root doc) q ∨ reached_element xs (root doc) q) ∧
  (∀ n, reached_name xs (root doc) n → Py.has_apostrophe n = false).
Proof.
  intros Hlos Hres Hrun.
  pose proof (process_xsd_file_cases list_of_set rejecting doc) as Hcases. rewrite Hres in Hcases.
  set (t0 := root doc) in *. set (gcs := complex_types_named xs t0 target) in *.
  destruct Hcases as [[Hnone Hw]|(_ & e & Hrunw & Hproc)].
  { rewrite Hw in Hrun. injection Hrun as <-.
    split; [apply narrowed_from_refl|]. split; [|split; [by left|]].
    - intros q (c & Hc & _). by destruct (reachable_needs_target xs t0 c).
    - intros n (c & Hc & _). by destruct (reachable_needs_target xs t0 c). }
  rewrite Hproc in Hrun.
  destruct (run_worklist_spec list_of_set xs t0 gcs (collect_nested_types xs t0 gcs))
    as (e' & Hrun' & Hpost); [by intros; apply Hlos|].
  assert (e' = e) as -> by congruence.
  pose proof (run_worklist_reach xs t0 e ltac:(by intros; apply Hlos) Hrunw) as Hreach.
  destruct e as [w|w]; [|done]. injection Hrun as <-.
  destruct Hpost as (Hinv & _ & Hq). simpl in Hreach.
  destruct (final_pass_spec xs gcs (tree w)) as (Hnf & Hin & Hout).
  assert (Hel : ∀ c, elements_in xs (tree w) c = elements_in xs t0 c)
    by (intros c; apply narrowed_from_elements_in, Hinv).
  split; [eapply narrowed_from_trans; [apply Hinv|done]|]. split; [|split].
  - intros q (c & Hc & He).
    destruct (reachable_processed xs t0 w c Hinv Hq Hc) as [Hgc|(n & Hn & Hd)].
    + apply (Hin c q Hgc). by rewrite Hel.
    + apply (narrowed_from_still_narrowed xs (tree w)); [done|].
      by eapply (li_narrowed xs _ _ _ Hinv).
  - intros q.
    destruct (decide (Exists (λ gc, q ∈ elements_in xs (tree w) gc) gcs)) as [Hex|Hnex].
    + right. apply Exists_exists in Hex as (gc & Hgc & He).
      exists gc. split; [by apply reach_target|]. by rewrite <- Hel.
    + rewrite Hout; [apply (ri_touched xs _ _ Hreach)|].
      intros gc Hgc He. apply Hnex, Exists_exists. by exists gc.
  - intros n Hn. unfold run_worklist in Hrunw.
    apply (while_loop_clean xs _ _ _ Hrunw); [by intros ? ?%not_elem_of_empty|].
    by apply (reached_name_processed xs t0).
Qed.

(** The tree an [XPathEvalError] leaves has changed at reached elements
    only, and the name it raised at is a reached name that holds an
    apostrophe. *)
Lemma raised_exact doc xs t' :
  (∀ (s : gset string) ty, ty ∈ list_of_set s → ty ∈ s) →
  resolve_xs_prefix (nsmap doc) = Some xs →
  process_xsd_file list_of_set rejecting doc = Some (Raised t') →
  narrowed_from xs (root doc) t' ∧
  (∀ q, attrib_at t' q = attrib_at (root doc) q ∨ reached_element xs (root doc) q) ∧
  ∃ n, reached_name xs (root doc) n ∧ Py.has_apostrophe n = true.
Proof.
  intros Hlos Hres Hrun.
  pose proof (process_xsd_file_cases list_of_set rejecting doc) as Hcases. rewrite Hres in Hcases.
  set (t0 := root doc) in *. set (gcs := complex_types_named xs t0 target) in *.
  destruct Hcases as [[_ Hw]|(_ & e & Hrunw & Hproc)]; [congruence|].
  rewrite Hproc in Hrun.
  destruct (run_worklist_spec list_of_set xs t0 gcs ∅) as (e' & Hrun' & Hpost);
    [by intros ? ?%not_elem_of_empty|].
  assert (e' = e) as -> by congruence.
  pose proof (run_worklist_reach xs t0 e Hlos Hrunw) as Hreach.
  destruct e as [w|w]; [done|]. injection Hrun as <-. simpl in *.
  destruct Hpost as [Hnf Hlog].
  split; [done|]. split; [apply Hreach|].
  destruct (while_loop_raises xs _ _ _ Hrunw) as (n & Hhead & Hquote).
  exists n. split; [|done]. apply (ri_processed xs _ _ Hreach).
  apply (log_processed _ Hlog). destruct (expanded w); [done|].
  injection Hhead as ->. left.
Qed.

(** [process_xsd_file] ends in one of its three ways. *)
Lemma process_xsd_file_resolved injected doc xs :
  resolve_xs_prefix (nsmap doc) = Some xs →
  ∃ t, process_xsd_file list_of_set injected doc = Some (Written t) ∨
       process_xsd_file list_of_set injected doc = Some (Raised t).
Proof.
  intros Hres.
  pose proof (process_xsd_file_cases list_of_set injected doc) as Hcases.
  rewrite Hres in Hcases.
  destruct Hcases as [[_ ->]|(_ & [w|w] & _ & ->)]; eexists; eauto.
Qed.

(** Without queries of its own in the document, the engine has no say
    in the run. *)
Lemma process_xsd_file_plain injected doc xs :
  (∀ (s : gset string) ty, ty ∈ list_of_set s → ty ∈ s) →
  resolve_xs_prefix (nsmap doc) = Some xs →
  no_injection xs (root doc) →
  process_xsd_file list_of_set injected doc = process_xsd_file list_of_set rejecting doc.
Proof.
  intros Hlos Hres Hplain. apply process_xsd_file_rejecting; [done|].
  intros xs0 Hx. rewrite Hres in Hx. by injection Hx as <-.
Qed.

(** X9.  Let no type value of the document make a query of its own.
    Whatever way [process_xsd_file] ends, an element whose attributes
    differ from the parsed ones is an element declaration nested in a
    complex type that the lookups reach from the target, its type was
    one of the four narrow targets and is now the string type: a narrow
    type outside the reached complex types is never rewritten. *)
Theorem rewrites_confined_to_reached injected doc xs o t :
  (∀ (s : gset string) ty, ty ∈ list_of_set s → ty ∈ s) →
  resolve_xs_prefix (nsmap doc) = Some xs →
  no_injection xs (root doc) →
  process_xsd_file list_of_set injected doc = Some o →
  tree_of o = Some t →
  ∀ q, attrib_at t q = attrib_at (root doc) q ∨
       (reached_element xs (root doc) q ∧
        (∃ ty, attr_at (root doc) q "type" = Some ty ∧ ty ∈ narrow_targets xs) ∧
        attr_at t q "type" = Some (string_type xs)).
Proof.
  intros Hlos Hres Hplain Hrun Ht q.
  rewrite (process_xsd_file_plain injected doc xs Hlos Hres Hplain) in Hrun.
  assert (narrowed_from xs (root doc) t ∧
          (attrib_at t q = attrib_at (root doc) q ∨ reached_element xs (root doc) q))
    as [Hnf Htouched].
  { destruct o as [|t1|t1]; [done|injection Ht as ->..].
    - pose proof (process_xsd_file_cases list_of_set rejecting doc) as Hcases.
      rewrite Hres in Hcases.
      set (t0 := root doc) in *. set (gcs := complex_types_named xs t0 target) in *.
      destruct Hcases as [[Hnone Hw]|(_ & e & Hrunw & Hproc)].
      { rewrite Hw in Hrun. injection Hrun as <-. split; [apply narrowed_from_refl|by left]. }
      rewrite Hproc in Hrun.
      destruct (run_worklist_spec list_of_set xs t0 gcs ∅) as (e' & Hrun' & Hpost);
        [by intros ? ?%not_elem_of_empty|].
      assert (e' = e) as -> by congruence.
      pose proof (run_worklist_reach xs t0 e Hlos Hrunw) as Hreach.
      destruct e as [w|w]; [|done]. injection Hrun as <-. simpl in *.
      destruct Hpost as (Hinv & _).
      destruct (final_pass_spec xs gcs (tree w)) as (Hnf & _ & Hout).
      split; [eapply narrowed_from_trans; [apply Hinv|done]|].
      destruct (decide (Exists (λ gc, q ∈ elements_in xs (tree w) gc) gcs))
        as [Hex|Hnex].
      + right. apply Exists_exists in Hex as (gc & Hgc & He).
        exists gc. split; [by apply reach_target|].
        by rewrite <- (narrowed_from_elements_in xs t0 (tree w)) by apply Hinv.
      + rewrite Hout; [apply (ri_touched xs _ _ Hreach)|].
        intros gc Hgc He. apply Hnex, Exists_exists. by exists gc.
    - destruct (raised_exact doc xs t Hlos Hres Hrun) as (? & Hq & _). by split. }
  destruct (nf_attrib xs _ _ Hnf q) as [?|(_ & Hn & Hins)]; [by left|].
  destruct Htouched as [?|Hreached]; [by left|]. right.
  split; [done|]. split; [by apply narrow_target_iff|]. by eapply attr_at_inserted.
Qed.

End process.

Lemma rewrites_confined_to_reached_witness :
  let doc := ParseSamples.commencements in
  (∀ (s : gset string) ty, ty ∈ elements s → ty ∈ s) ∧
  resolve_xs_prefix (nsmap doc) = Some "xs" ∧
  no_injection "xs" (root doc) ∧
  ∃ t, process_xsd_file elements ParseSamples.selects_all doc = Some (Written t) ∧
    ∀ q, attrib_at t q = attrib_at (root doc) q ∨
         (reached_element "xs" (root doc) q ∧
          (∃ ty, attr_at (root doc) q "type" = Some ty ∧ ty ∈ narrow_targets "xs") ∧
          attr_at t q "type" = Some (string_type "xs")).
Proof.
  intros doc.
  assert (H1 : ∀ (s : gset string) ty, ty ∈ elements s → ty ∈ s)
    by (intros s ty; apply elem_of_elements).
  assert (H2 : resolve_xs_prefix (nsmap doc) = Some "xs") by reflexivity.
  assert (H3 : no_injection "xs" (root doc))
    by (apply no_injection_computed; vm_compute; reflexivity).
  assert (H4 : ∃ t, process_xsd_file elements ParseSamples.selects_all doc = Some (Written t))
    by (vm_compute; eexists; reflexivity).
  destruct H4 as [t H4]. do 3 (split; [assumption|]). exists t. split; [assumption|].
  exact (rewrites_confined_to_reached elements ParseSamples.selects_all doc "xs"
           (Written t) t H1 H2 H3 H4 eq_refl).
Defined.



(** X11.  Let no type value of the document make a query of its own.
    Rewriting is then idempotent: when [process_xsd_file] writes a tree,
    a run on that tree (under the same namespace bindings) writes the
    same tree again. *)
Theorem rewriting_is_idempotent (list_of_set : gset string → list string) injected doc t :
  (∀ (s : gset string) ty, ty ∈ list_of_set s ↔ ty ∈ s) →
  (∀ xs, resolve_xs_prefix (nsmap doc) = Some xs → no_injection xs (root doc)) →
  process_xsd_file list_of_set injected doc = Some (Written t) →
  process_xsd_file list_of_set injected {| nsmap := nsmap doc; root := t |}
    = Some (Written t).
Proof.
  intros Hlos Hplain Hrun.
  assert (Hlos1 : ∀ (s : gset string) ty, ty ∈ list_of_set s → ty ∈ s)
    by (by intros; apply Hlos).
  destruct (resolve_xs_prefix (nsmap doc)) as [xs|] eqn:Hres;
    [|by unfold process_xsd_file in Hrun; rewrite Hres in Hrun].
  specialize (Hplain xs eq_refl).
  rewrite (process_xsd_file_plain list_of_set injected doc xs Hlos1 Hres Hplain) in Hrun.
  destruct (written_exact list_of_set doc xs t Hlos Hres Hrun)
    as (Hnf & Hdone & _ & Hclean).
  set (doc' := {| nsmap := nsmap doc; root := t |}).
  assert (Hres' : resolve_xs_prefix (nsmap doc') = Some xs) by done.
  rewrite (process_xsd_file_plain list_of_set injected doc' xs Hlos1 Hres');
    [|by apply (no_injection_narrowed xs (root doc))].
  destruct (process_xsd_file_resolved list_of_set rejecting doc' xs Hres')
    as (t2 & [Hrun2|Hrun2]).
  - rewrite Hrun2. do 2 f_equal.
    destruct (written_exact list_of_set doc' xs t2 Hlos Hres' Hrun2)
      as (Hnf2 & _ & Htouched2 & _). simpl in *.
    apply tree_ext; [apply Hnf2|]. intros q.
    destruct (nf_attrib xs _ _ Hnf2 q) as [?|(_ & Hn2 & _)]; [done|].
    destruct (Htouched2 q) as [?|(c & Hc & He)]; [done|].
    rewrite Hdone in Hn2; [done|]. exists c.
    split; [by eapply reachable_narrowed|].
    by rewrite <- (narrowed_from_elements_in xs (root doc) t).
  - destruct (raised_exact list_of_set doc' xs t2 Hlos1 Hres' Hrun2)
      as (_ & _ & n & (c & Hc & Hr) & Hquote). simpl in *.
    rewrite (Hclean n) in Hquote; [done|]. exists c.
    split; [by eapply reachable_narrowed|by eapply refers_to_narrowed].
Qed.

Lemma rewriting_is_idempotent_witness :
  let doc := ParseSamples.scenario in
  (∀ (s : gset string) ty, ty ∈ elements s ↔ ty ∈ s) ∧
  (∀ xs, resolve_xs_prefix (nsmap doc) = Some xs → no_injection xs (root doc)) ∧
  ∃ t, process_xsd_file elements ParseSamples.selects_all doc = Some (Written t) ∧
       process_xsd_file elements ParseSamples.selects_all {| nsmap := nsmap doc; root := t |}
         = Some (Written t).
Proof.
  intros doc.
  assert (H1 : ∀ (s : gset string) ty, ty ∈ elements s ↔ ty ∈ s)
    by (intros s ty; apply elem_of_elements).
  assert (H2 : ∀ xs, resolve_xs_prefix (nsmap doc) = Some xs → no_injection xs (root doc))
    by (intros xs _; apply no_injection_computed; vm_compute; reflexivity).
  assert (H3 : ∃ t, process_xsd_file elements ParseSamples.selects_all doc = Some (Written t))
    by (vm_compute; eexists; reflexivity).
  destruct H3 as [t H3]. do 2 (split; [assumption|]). exists t. split; [assumption|].
  exact (rewriting_is_idempotent elements ParseSamples.selects_all doc t H1 H2 H3).
Defined.

(** How lines 13-25 resolve the prefix, by the first binding of the XSD
    namespace in [ns_map.items()]. *)
Lemma resolve_xs_prefix_spec ns_map :
  match resolve_xs_prefix ns_map with
  | None => ∀ pu, pu ∈ ns_map → pu.2 ≠ XSD
  | Some p => ∃ pre o post, ns_map = (pre ++ (o, XSD) :: post)%list ∧
                (∀ pu, pu ∈ pre → pu.2 ≠ XSD) ∧ p = default "" o
  end.
Proof.
  induction ns_map as [|[o u] m IH].
  { intros pu Hpu. by apply elem_of_nil in Hpu. }
  unfold resolve_xs_prefix, first_xs_binding, default_xs_binding in *. simpl.
  destruct (String.eqb u XSD) eqn:Hu.
  - apply String.eqb_eq in Hu as ->.
    assert (Hnil : ∀ pu : option string * string, pu ∈ [] → pu.2 ≠ XSD)
      by (intros pu Hpu; by apply elem_of_nil in Hpu).
    destruct o as [p|]; simpl.
    + by exists [], (Some p), m.
    + by exists [], None, m.
  - rewrite andb_false_r. simpl.
    assert (Hne : u ≠ XSD) by (by apply String.eqb_neq).
    destruct (match List.find (λ pu, String.eqb pu.2 XSD) m with
              | Some (prefix, _) => prefix
              | None => None
              end) as [p|] eqn:Hfirst.
    + destruct IH as (pre & o' & post & -> & Hpre & ->).
      exists ((o, u) :: pre), o', post. split; [done|]. split; [|done].
      intros pu [->|?]%elem_of_cons; [done|by apply Hpre].
    + destruct (existsb _ m).
      * destruct IH as (pre & o' & post & -> & Hpre & Hp).
        exists ((o, u) :: pre), o', post. split; [done|]. split; [|done].
        intros pu [->|?]%elem_of_cons; [done|by apply Hpre].
      * intros pu [->|?]%elem_of_cons; [done|by apply IH].
Qed.

(** X12.  [process_xsd_file] returns at line 29, writing nothing, exactly
    when no entry of [root.nsmap] binds the XSD namespace, be it to a
    prefix or as the default namespace. *)
Theorem skipped_iff_unbound (list_of_set : gset string → list string) injected doc :
  process_xsd_file list_of_set injected doc = Some Skipped ↔
  ∀ pu, pu ∈ nsmap doc → pu.2 ≠ XSD.
Proof.
  pose proof (resolve_xs_prefix_spec (nsmap doc)) as Hspec.
  destruct (resolve_xs_prefix (nsmap doc)) as [xs|] eqn:Hres.
  - destruct Hspec as (pre & o & post & Hm & _ & _). split.
    + intros Hrun.
      destruct (process_xsd_file_resolved list_of_set injected doc xs Hres) as (t & [?|?]);
        congruence.
    + intros Hno. destruct (Hno (o, XSD)); [|done].
      rewrite Hm. apply elem_of_app. right. left.
  - split; [done|]. intros _. unfold process_xsd_file. by rewrite Hres.
Qed.

(** X13.  The prefix the rewriter works with is that of the first entry
    of [root.nsmap] that binds the XSD namespace, and the empty string
    when that entry is the default namespace: a later binding of the
    namespace to another prefix is not looked at. *)
Theorem xs_prefix_is_first_binding ns_map p :
  resolve_xs_prefix ns_map = Some p ↔
  ∃ pre o post, ns_map = (pre ++ (o, XSD) :: post)%list ∧
    (∀ pu, pu ∈ pre → pu.2 ≠ XSD) ∧ p = default "" o.
Proof.
  pose proof (resolve_xs_prefix_spec ns_map) as Hspec. split.
  - intros Hres. by rewrite Hres in Hspec.
  - intros (pre & o & post & Hm & Hpre & ->).
    destruct (resolve_xs_prefix ns_map) as [p'|].
    + destruct Hspec as (pre' & o' & post' & Hm' & Hpre' & ->).
      rewrite Hm in Hm'. clear Hm. f_equal.
      revert pre' Hm' Hpre'.
      induction pre as [|a pre IH]; intros [|a' pre'] Hm' Hpre'; simpl in *.
      * by injection Hm' as <- _.
      * injection Hm' as <- _. destruct (Hpre' (o, XSD)); [left|done].
      * injection Hm' as -> _. destruct (Hpre (o', XSD)); [left|done].
      * injection Hm' as <- Hm'. apply (IH ltac:(intros; apply Hpre; by right) pre' Hm').
        intros; apply Hpre'; by right.
    + destruct (Hspec (o, XSD)); [|done].
      rewrite Hm. apply elem_of_app. right. left.
Qed.

(** X14.  With the XSD namespace as the default namespace the queries
    carry no prefix and select elements in no namespace: a document that
    has no element [complexType] outside every namespace is written as it
    was parsed. *)
Theorem default_namespace_writes_unchanged (list_of_set : gset string → list string)
    injected doc :
  resolve_xs_prefix (nsmap doc) = Some "" →
  (∀ q, q ∈ paths (root doc) → tag_at (root doc) q ≠ Some "complexType") →
  process_xsd_file list_of_set injected doc = Some (Written (root doc)).
Proof.
  intros Hres Hnone.
  pose proof (process_xsd_file_cases list_of_set injected doc) as Hcases.
  rewrite Hres in Hcases.
  destruct Hcases as [[_ ?]|(Hgcs & _)]; [done|].
  destruct Hgcs. apply elem_of_nil_inv. intros q.
  unfold complex_types_named. rewrite list_elem_of_filter, descendants_below.
  intros (_ & Hq & _ & Htag). by destruct (Hnone q Hq).
Qed.

Lemma default_namespace_writes_unchanged_witness :
  let doc := ParseSamples.default_namespace in
  resolve_xs_prefix (nsmap doc) = Some "" ∧
  (∀ q, q ∈ paths (root doc) → tag_at (root doc) q ≠ Some "complexType") ∧
  process_xsd_file elements ParseSamples.selects_all doc = Some (Written (root doc)).
Proof.
  intros doc.
  assert (H1 : resolve_xs_prefix (nsmap doc) = Some "") by reflexivity.
  assert (H2 : ∀ q, q ∈ paths (root doc) → tag_at (root doc) q ≠ Some "complexType").
  { apply Forall_forall. apply (bool_decide_unpack _). vm_compute. exact I. }
  do 2 (split; [assumption|]).
  exact (default_namespace_writes_unchanged elements ParseSamples.selects_all doc H1 H2).
Defined.

(** X15.  For a document that binds the XSD namespace and in which no
    type value makes a query of its own, the run ends in an
    [XPathEvalError] exactly when a type name that the lookups reach from
    the target complex type holds an apostrophe; otherwise it writes.  An
    apostrophe in a type value that is not reached does no harm. *)
Theorem raises_iff_reached_apostrophe (list_of_set : gset string → list string)
    injected doc xs :
  (∀ (s : gset string) ty, ty ∈ list_of_set s ↔ ty ∈ s) →
  resolve_xs_prefix (nsmap doc) = Some xs →
  no_injection xs (root doc) →
  ((∃ t, process_xsd_file list_of_set injected doc = Some (Raised t)) ↔
   (∃ n, reached_name xs (root doc) n ∧ Py.has_apostrophe n = true)) ∧
  ((∃ t, process_xsd_file list_of_set injected doc = Some (Written t)) ↔
   (∀ n, reached_name xs (root doc) n → Py.has_apostrophe n = false)).
Proof.
  intros Hlos Hres Hplain.
  assert (Hlos' : ∀ (s : gset string) ty, ty ∈ list_of_set s → ty ∈ s)
    by (intros; by apply Hlos).
  rewrite (process_xsd_file_plain list_of_set injected doc xs Hlos' Hres Hplain).
  destruct (process_xsd_file_resolved list_of_set rejecting doc xs Hres) as (t & [Hrun|Hrun]).
  - destruct (written_exact list_of_set doc xs t Hlos Hres Hrun) as (_ & _ & _ & Hclean).
    split; split.
    + intros (t' & Hrun'). congruence.
    + intros (n & Hn & Hquote). rewrite (Hclean n Hn) in Hquote. done.
    + done.
    + intros _. by exists t.
  - destruct (raised_exact list_of_set doc xs t Hlos' Hres Hrun) as (_ & _ & n & Hn & Hquote).
    split; split.
    + intros _. by exists n.
    + intros _. by exists t.
    + intros (t' & Hrun'). congruence.
    + intros Hclean. rewrite (Hclean n Hn) in Hquote. done.
Qed.

Lemma raises_iff_reached_apostrophe_witness :
  let doc := ParseSamples.apostrophe_reference in
  (∀ (s : gset string) ty, ty ∈ elements s ↔ ty ∈ s) ∧
  resolve_xs_prefix (nsmap doc) = Some "xs" ∧
  no_injection "xs" (root doc) ∧
  ((∃ t, process_xsd_file elements ParseSamples.selects_all doc = Some (Raised t)) ↔
   (∃ n, reached_name "xs" (root doc) n ∧ Py.has_apostrophe n = true)) ∧
  ((∃ t, process_xsd_file elements ParseSamples.selects_all doc = Some (Written t)) ↔
   (∀ n, reached_name "xs" (root doc) n → Py.has_apostrophe n = false)).
Proof.
  intros doc.
  assert (H1 : ∀ (s : gset string) ty, ty ∈ elements s ↔ ty ∈ s)
    by (intros s ty; apply elem_of_elements).
  assert (H2 : resolve_xs_prefix (nsmap doc) = Some "xs") by reflexivity.
  assert (H3 : no_injection "xs" (root doc))
    by (apply no_injection_computed; vm_compute; reflexivity).
  do 3 (split; [assumption|]).
  exact (raises_iff_reached_apostrophe elements ParseSamples.selects_all doc "xs" H1 H2 H3).
Defined.

End RewriterExtras.

(** ** The directory run *)

Module DirectoryExtras.
Import Xml XsdParse RewriteFacts XsdDirectory TreeProofs RewriterProofs RewriterExtras.

Lemma elem_of_concat {A} (x : A) (ls : list (list A)) :
  x ∈ concat ls ↔ ∃ l, l ∈ ls ∧ x ∈ l.
Proof.
  induction ls as [|l ls IH]; simpl.
  - split; [by intros ?%elem_of_nil|by intros (? & ?%elem_of_nil & _)].
  - rewrite elem_of_app, IH. split.
    + intros [?|(l' & ? & ?)]; [exists l; split; [left|done]|exists l'; split; [by right|done]].
    + intros (l' & [->|?]%elem_of_cons & ?); [by left|right; by exists l'].
Qed.

Lemma concat_split {A} (l : list A) (ls : list (list A)) :
  l ∈ ls → ∃ pre post, concat ls = (pre ++ l ++ post)%list.
Proof.
  intros (l1 & l2 & ->)%list_elem_of_split.
  exists (concat l1), (concat l2). by rewrite concat_app.
Qed.

Lemma Forall2_elem_of_l {A B} (P : A → B → Prop) l k x :
  Forall2 P l k → x ∈ l → ∃ y, y ∈ k ∧ P x y.
Proof.
  intros HF (i & Hi)%list_elem_of_lookup.
  destruct (Forall2_lookup_l _ _ _ _ _ HF Hi) as (y & Hy & HP).
  exists y. split; [|done]. apply list_elem_of_lookup. by exists i.
Qed.

Lemma Forall2_elem_of_r {A B} (P : A → B → Prop) l k y :
  Forall2 P l k → y ∈ k → ∃ x, x ∈ l ∧ P x y.
Proof.
  intros HF (i & Hi)%list_elem_of_lookup.
  destruct (Forall2_lookup_r _ _ _ _ _ HF Hi) as (x & Hx & HP).
  exists x. split; [|done]. apply list_elem_of_lookup. by exists i.
Qed.

Section directory.
Context (list_of_set : gset string → list string).
Context (injected : string → node → xpath_result).
Context (lower : string → string).
Context (join relpath : string → string → string) (dirname : string → string).
Context (parse : string → option document).
Context (input_dir output_dir : string).

Abbreviation events_of :=
  (file_events list_of_set injected join relpath dirname parse input_dir output_dir).
Abbreviation run_directory :=
  (process_directory list_of_set injected lower join relpath dirname parse input_dir output_dir).
Abbreviation input_of := (input_path_of join).
Abbreviation output_of := (output_path_of join relpath input_dir output_dir).

(** A run of [process_xsd_file] ends. *)
Lemma process_xsd_file_ends doc : ∃ o, process_xsd_file list_of_set injected doc = Some o.
Proof.
  pose proof (process_xsd_file_cases list_of_set injected doc) as Hcases.
  destruct (resolve_xs_prefix (nsmap doc)); [|by eexists].
  destruct Hcases as [[_ ?]|(_ & e & _ & ?)]; by eexists.
Qed.

(** The events of one file, by the way its run ends. *)
Lemma file_events_cases rf :
  let i := input_of rf in
  let o := output_of rf in
  ∃ evs, events_of rf.1 rf.2 = Some evs ∧
    ((parse i = None ∧ evs = [MakeDirs (dirname o); Print (ErrorProcessing i)]) ∨
     ∃ doc, parse i = Some doc ∧
       ((process_xsd_file list_of_set injected doc = Some Skipped ∧
         evs = [MakeDirs (dirname o); Print (NamespaceNotFound i); Print (Processed i o)]) ∨
        (∃ t, process_xsd_file list_of_set injected doc = Some (Written t) ∧
         evs = [MakeDirs (dirname o); MakeDirs (dirname o); WriteTree o t;
                Print (Processed i o)]) ∨
        (∃ t, process_xsd_file list_of_set injected doc = Some (Raised t) ∧
         evs = [MakeDirs (dirname o); Print (ErrorProcessing i)]))).
Proof.
  intros i o. unfold file_events, process_xsd_file_at.
  fold (input_path_of join rf). fold i.
  destruct (parse i) as [doc|] eqn:Hparse; [|eexists; split; [done|by left]].
  destruct (process_xsd_file_ends doc) as [[|t|t] Hrun]; rewrite Hrun;
    (eexists; split; [done|]; right; exists doc; split; [done|]).
  - by left.
  - right. left. by exists t.
  - right. right. by exists t.
Qed.

Lemma for_files_spec root files p :
  ∃ p' evss, for_files list_of_set injected lower join relpath dirname parse input_dir output_dir
               root files p = Some p' ∧
    Forall2 (λ file evs, events_of root file = Some evs)
      (filter (λ file, Py.endswith (lower file) ".xsd" = true) files) evss ∧
    trace p' = (trace p ++ concat evss)%list ∧
    (xsd_files_found p' = true ↔
     xsd_files_found p = true ∨
     filter (λ file, Py.endswith (lower file) ".xsd" = true) files ≠ []).
Proof.
  revert p. induction files as [|file rest IH]; intros p.
  { exists p, []. simpl. rewrite app_nil_r. split; [done|]. split; [constructor|].
    split; [done|]. naive_solver. }
  simpl. unfold process_file.
  destruct (Py.endswith (lower file) ".xsd") eqn:Hxsd.
  - destruct (file_events_cases (root, file)) as (evs & Hevs & _). simpl in Hevs.
    rewrite Hevs.
    destruct (IH {| xsd_files_found := true; trace := (trace p ++ evs)%list |})
      as (p' & evss & -> & HF & Htr & Hfound).
    exists p', (evs :: evss). rewrite filter_cons_True by done.
    split; [done|]. split; [by constructor|]. simpl in *.
    split; [by rewrite Htr, <- app_assoc|].
    split; [intros _; by right|]. intros _. apply Hfound. by left.
  - destruct (IH p) as (p' & evss & -> & HF & Htr & Hfound).
    exists p', evss. rewrite filter_cons_False by (by rewrite Hxsd).
    done.
Qed.

Lemma for_walk_spec walk p :
  ∃ p' evss, for_walk list_of_set injected lower join relpath dirname parse input_dir output_dir
               walk p = Some p' ∧
    Forall2 (λ rf evs, events_of rf.1 rf.2 = Some evs) (xsd_files lower walk) evss ∧
    trace p' = (trace p ++ concat evss)%list ∧
    (xsd_files_found p' = true ↔ xsd_files_found p = true ∨ xsd_files lower walk ≠ []).
Proof.
  revert p. induction walk as [|[root files] rest IH]; intros p.
  { exists p, []. simpl. rewrite app_nil_r. split; [done|]. split; [constructor|].
    split; [done|]. naive_solver. }
  simpl. destruct (for_files_spec root files p) as (p1 & evss1 & -> & HF1 & Htr1 & Hfound1).
  destruct (IH p1) as (p' & evss2 & -> & HF2 & Htr2 & Hfound2).
  exists p', (evss1 ++ evss2)%list. split; [done|].
  unfold xsd_files in *. split; [|split].
  - apply Forall2_app; [|done]. by apply Forall2_fmap_l.
  - by rewrite Htr2, Htr1, concat_app, app_assoc.
  - rewrite Hfound2, Hfound1.
    set (fs := filter _ files). set (more := rest ≫= _).
    destruct fs as [|f fs]; simpl; [naive_solver|]. naive_solver.
Qed.

(** The whole run: the output directory is made, then come the events
    of the [.xsd] files one after the other, and a last line if there
    was none. *)
Lemma process_directory_spec walk :
  ∃ evss, Forall2 (λ rf evs, events_of rf.1 rf.2 = Some evs) (xsd_files lower walk) evss ∧
    run_directory true walk =
      Some (MakeDirs output_dir :: concat evss ++
            if decide (xsd_files lower walk = []) then [Print NoXsdFiles] else [])%list.
Proof.
  unfold process_directory. simpl.
  destruct (for_walk_spec walk {| xsd_files_found := false; trace := [MakeDirs output_dir] |})
    as (p' & evss & -> & HF & Htr & Hfound).
  exists evss. split; [done|]. simpl in *. rewrite Htr. f_equal.
  destruct (decide (xsd_files lower walk = [])) as [Hnil|Hsome].
  - destruct (xsd_files_found p'); [|done]. destruct Hfound as [[?|?] _]; done.
  - destruct (xsd_files_found p'); [by rewrite app_nil_r|].
    destruct Hfound as [_ Hfound]. by specialize (Hfound (or_intror Hsome)).
Qed.

Lemma elem_of_xsd_files walk root file :
  (root, file) ∈ xsd_files lower walk ↔
  ∃ files, (root, files) ∈ walk ∧ file ∈ files ∧ Py.endswith (lower file) ".xsd" = true.
Proof.
  unfold xsd_files. rewrite list_elem_of_bind. split.
  - intros ([root' files] & (file' & [= -> ->] & [? ?]%list_elem_of_filter)%list_elem_of_fmap & ?).
    by exists files.
  - intros (files & ? & ? & ?). exists (root, files). split; [|done].
    apply list_elem_of_fmap. exists file. split; [done|]. by apply list_elem_of_filter.
Qed.

(** The events of a file of the walk are a segment of the trace. *)
Lemma file_segment walk rf evs :
  rf ∈ xsd_files lower walk → events_of rf.1 rf.2 = Some evs →
  ∃ tr pre post, run_directory true walk = Some tr ∧ tr = (pre ++ evs ++ post)%list.
Proof.
  intros Hrf Hevs. destruct (process_directory_spec walk) as (evss & HF & ->).
  destruct (Forall2_elem_of_l _ _ _ _ HF Hrf) as (evs' & Hin & Hevs').
  assert (evs' = evs) as -> by congruence.
  destruct (concat_split _ _ Hin) as (pre & post & ->).
  eexists _, (MakeDirs output_dir :: pre), _. split; [done|].
  simpl. by rewrite <- !app_assoc.
Qed.

(** The trees the run writes. *)
Lemma written_by_directory walk tr output_path t :
  run_directory true walk = Some tr →
  WriteTree output_path t ∈ tr ↔
  ∃ rf doc, rf ∈ xsd_files lower walk ∧ parse (input_of rf) = Some doc ∧
    process_xsd_file list_of_set injected doc = Some (Written t) ∧ output_path = output_of rf.
Proof.
  destruct (process_directory_spec walk) as (evss & HF & ->). intros [= <-].
  rewrite elem_of_cons, elem_of_app, elem_of_concat. split.
  - intros [?|[(evs & Hevs & Hin)|Hlast]]; [done| |].
    + destruct (Forall2_elem_of_r _ _ _ _ HF Hevs) as (rf & Hrf & Hrun).
      destruct (file_events_cases rf) as (evs' & Hrun' & Hcases).
      assert (evs' = evs) as -> by congruence.
      destruct Hcases as [[_ ->]|(doc & Hparse & [[_ ->]|[(t' & Ht' & ->)|(t' & _ & ->)]])];
        set_unfold in Hin; naive_solver.
    + destruct (decide _); set_unfold in Hlast; naive_solver.
  - intros (rf & doc & Hrf & Hparse & Hrun & ->). right. left.
    destruct (Forall2_elem_of_l _ _ _ _ HF Hrf) as (evs & Hin & Hevs).
    exists evs. split; [done|].
    destruct (file_events_cases rf) as (evs' & Hrun' & Hcases).
    assert (evs' = evs) as -> by congruence.
    destruct Hcases as [[? _]|(doc' & Hparse' & Hcases)]; [congruence|].
    assert (doc' = doc) as -> by congruence.
    destruct Hcases as [[? _]|[(t' & Ht' & ->)|(t' & ? & _)]]; [congruence| |congruence].
    assert (t' = t) as -> by congruence. set_solver.
Qed.

(** X16.  [process_directory] ends for every directory, and when the
    input directory exists it writes a tree to an output path exactly
    when some file of the walk whose lower-cased name ends in [.xsd]
    parses, its run writes that tree, and the path is the file's path
    relative to the input directory, under the output directory.  Whether
    a file is written thus depends on that file alone: a file that fails
    does not keep the files after it from being written. *)
Theorem process_directory_writes input_dir_exists walk :
  ∃ tr, run_directory input_dir_exists walk = Some tr ∧
    ∀ output_path t, WriteTree output_path t ∈ tr ↔
      input_dir_exists = true ∧
      ∃ root files file doc, (root, files) ∈ walk ∧ file ∈ files ∧
        Py.endswith (lower file) ".xsd" = true ∧
        parse (join root file) = Some doc ∧
        process_xsd_file list_of_set injected doc = Some (Written t) ∧
        output_path = join output_dir (relpath (join root file) input_dir).
Proof.
  destruct input_dir_exists.
  - destruct (process_directory_spec walk) as (evss & HF & Hrun).
    eexists. split; [done|]. intros output_path t.
    rewrite (written_by_directory walk _ output_path t Hrun). split.
    + intros ([root file] & doc & (files & ? & ? & ?)%elem_of_xsd_files & ? & ? & ->).
      split; [done|]. by exists root, files, file, doc.
    + intros (_ & root & files & file & doc & ? & ? & ? & ? & ? & ->).
      exists (root, file), doc. split; [|done]. apply elem_of_xsd_files. by exists files.
  - eexists. split; [done|]. intros output_path t. simpl. set_unfold. naive_solver.
Qed.

(** X17.  A file that binds no XSD namespace is reported as processed
    although nothing is written for it: once the directory for its
    output is made, the run prints the warning and then the line
    [Processed], with nothing between them. *)
Theorem skipped_file_reported_processed walk root files file doc :
  (root, files) ∈ walk → file ∈ files → Py.endswith (lower file) ".xsd" = true →
  parse (join root file) = Some doc →
  (∀ pu, pu ∈ nsmap doc → pu.2 ≠ XSD) →
  let input_path := join root file in
  let output_path := join output_dir (relpath input_path input_dir) in
  ∃ tr pre post, run_directory true walk = Some tr ∧
    tr = (pre ++ [MakeDirs (dirname output_path); Print (NamespaceNotFound input_path);
                  Print (Processed input_path output_path)] ++ post)%list.
Proof.
  intros Hwalk Hfile Hxsd Hparse Hunbound input_path output_path.
  apply (file_segment walk (root, file)); [apply elem_of_xsd_files; by exists files|].
  destruct (file_events_cases (root, file)) as (evs & -> & Hcases). f_equal.
  destruct Hcases as [[? _]|(doc' & Hparse' & Hcases)];
    [unfold input_path_of in *; simpl in *; congruence|].
  assert (doc' = doc) as -> by (unfold input_path_of in *; simpl in *; congruence).
  pose proof (resolve_xs_prefix_spec (nsmap doc)) as Hspec.
  destruct (resolve_xs_prefix (nsmap doc)) as [xs|] eqn:Hres.
  { destruct Hspec as (pre & o & post & Hm & _). destruct (Hunbound (o, XSD)); [|done].
    rewrite Hm. apply elem_of_app. right. left. }
  assert (Hrun : process_xsd_file list_of_set injected doc = Some Skipped)
    by (unfold process_xsd_file; by rewrite Hres).
  destruct Hcases as [[_ ->]|[(t & ? & _)|(t & ? & _)]]; [done|congruence..].
Qed.

(** X18.  A file that does not parse, or in which no type value makes a
    query of its own and a type name that the lookups reach from the
    target holds an apostrophe, leaves an error line and no written
    file, and the run goes on: the trace holds, for this file, the
    making of the output directory followed at once by the error line. *)
Theorem failing_file_is_logged walk root files file :
  (∀ (s : gset string) ty, ty ∈ list_of_set s ↔ ty ∈ s) →
  (root, files) ∈ walk → file ∈ files → Py.endswith (lower file) ".xsd" = true →
  (parse (join root file) = None ∨
   ∃ doc xs n, parse (join root file) = Some doc ∧
     resolve_xs_prefix (nsmap doc) = Some xs ∧
     no_injection xs (XsdParse.root doc) ∧
     reached_name xs (XsdParse.root doc) n ∧ Py.has_apostrophe n = true) →
  let input_path := join root file in
  let output_path := join output_dir (relpath input_path input_dir) in
  ∃ tr pre post, run_directory true walk = Some tr ∧
    tr = (pre ++ [MakeDirs (dirname output_path); Print (ErrorProcessing input_path)]
              ++ post)%list.
Proof.
  intros Hlos Hwalk Hfile Hxsd Hfails input_path output_path.
  assert (Hlos' : ∀ (s : gset string) ty, ty ∈ list_of_set s → ty ∈ s)
    by (intros; by apply Hlos).
  apply (file_segment walk (root, file)); [apply elem_of_xsd_files; by exists files|].
  destruct (file_events_cases (root, file)) as (evs & -> & Hcases). f_equal.
  unfold input_path_of in Hcases. simpl in Hcases.
  destruct Hcases as [[_ ->]|(doc & Hparse & Hcases)]; [done|].
  destruct Hfails as [?|(doc' & xs & n & Hparse' & Hres & Hplain & Hn & Hquote)];
    [congruence|].
  assert (doc' = doc) as -> by congruence.
  rewrite (process_xsd_file_plain list_of_set injected doc xs Hlos' Hres Hplain) in Hcases.
  destruct Hcases as [[Hrun _]|[(t & Hrun & _)|(t & _ & ->)]]; [| |done].
  - unfold process_xsd_file in Hrun. rewrite Hres in Hrun.
    destruct (process_xsd_file_resolved list_of_set rejecting doc xs Hres) as (t & [H|H]);
      unfold process_xsd_file in H; rewrite Hres in H; congruence.
  - destruct (written_exact list_of_set doc xs t Hlos Hres Hrun) as (_ & _ & _ & Hclean).
    rewrite (Hclean n Hn) in Hquote. done.
Qed.

(** X19.  Every tree the run writes is the parse of a [.xsd] file of the
    walk with nothing but values of [type] attributes changed: the same
    elements at the same places, with the same tags, attribute names and
    other attribute values. *)
Theorem directory_outputs_keep_structure walk tr output_path t :
  run_directory true walk = Some tr →
  WriteTree output_path t ∈ tr →
  ∃ root files file doc, (root, files) ∈ walk ∧ file ∈ files ∧
    parse (join root file) = Some doc ∧
    output_path = join output_dir (relpath (join root file) input_dir) ∧
    only_types_rewritten (XsdParse.root doc) t.
Proof.
  intros Hrun Hin.
  apply (written_by_directory walk tr output_path t Hrun) in Hin
    as ([root file] & doc & (files & ? & ? & _)%elem_of_xsd_files & Hparse & Hw & ->).
  exists root, files, file, doc. do 4 (split; [done|]).
  destruct (resolve_xs_prefix (nsmap doc)) as [xs|] eqn:Hres;
    [|by unfold process_xsd_file in Hw; rewrite Hres in Hw].
  apply (narrowed_from_only_types xs).
  by apply (process_xsd_file_narrowed list_of_set injected doc xs (Written t)).
Qed.

End directory.

Lemma skipped_file_reported_processed_witness :
  let run := DirectorySamples.run ParseSamples.selects_all in
  ("xsd", ["a.xsd"; "notes.txt"; "B.XSD"]) ∈ DirectorySamples.walk ∧
  "B.XSD" ∈ ["a.xsd"; "notes.txt"; "B.XSD"] ∧
  Py.endswith (DirectorySamples.lower "B.XSD") ".xsd" = true ∧
  DirectorySamples.parse "xsd/B.XSD" = Some DirectorySamples.unbound ∧
  (∀ pu, pu ∈ nsmap DirectorySamples.unbound → pu.2 ≠ XSD) ∧
  ∃ tr pre post, run = Some tr ∧
    tr = (pre ++ [MakeDirs "out"; Print (NamespaceNotFound "xsd/B.XSD");
                  Print (Processed "xsd/B.XSD" "out/B.XSD")] ++ post)%list.
Proof.
  intros run.
  assert (H1 : ("xsd", ["a.xsd"; "notes.txt"; "B.XSD"]) ∈ DirectorySamples.walk)
    by (apply (elem_of_computed _ 0); reflexivity).
  assert (H2 : "B.XSD" ∈ ["a.xsd"; "notes.txt"; "B.XSD"])
    by (apply (elem_of_computed _ 2); reflexivity).
  assert (H3 : Py.endswith (DirectorySamples.lower "B.XSD") ".xsd" = true) by reflexivity.
  assert (H4 : DirectorySamples.parse "xsd/B.XSD" = Some DirectorySamples.unbound)
    by reflexivity.
  assert (H5 : ∀ pu, pu ∈ nsmap DirectorySamples.unbound → pu.2 ≠ XSD).
  { apply Forall_forall. apply (bool_decide_unpack _). vm_compute. exact I. }
  do 5 (split; [assumption|]).
  exact (skipped_file_reported_processed elements ParseSamples.selects_all
           DirectorySamples.lower
           DirectorySamples.join DirectorySamples.relpath DirectorySamples.dirname
           DirectorySamples.parse "xsd" "out" DirectorySamples.walk
           "xsd" ["a.xsd"; "notes.txt"; "B.XSD"] "B.XSD" DirectorySamples.unbound
           H1 H2 H3 H4 H5).
Defined.

Lemma failing_file_is_logged_witness :
  let run := DirectorySamples.run ParseSamples.selects_all in
  let doc := ParseSamples.apostrophe_reference in
  (∀ (s : gset string) ty, ty ∈ elements s ↔ ty ∈ s) ∧
  ("xsd/sub", ["c.xsd"; "bad.xsd"]) ∈ DirectorySamples.walk ∧
  "c.xsd" ∈ ["c.xsd"; "bad.xsd"] ∧
  Py.endswith (DirectorySamples.lower "c.xsd") ".xsd" = true ∧
  (DirectorySamples.parse "xsd/sub/c.xsd" = Some doc ∧
   resolve_xs_prefix (nsmap doc) = Some "xs" ∧
   no_injection "xs" (XsdParse.root doc) ∧
   reached_name "xs" (XsdParse.root doc) "O'Brien" ∧ Py.has_apostrophe "O'Brien" = true) ∧
  ∃ tr pre post, run = Some tr ∧
    tr = (pre ++ [MakeDirs "out/sub"; Print (ErrorProcessing "xsd/sub/c.xsd")]
              ++ post)%list.
Proof.
  intros run doc.
  assert (H1 : ∀ (s : gset string) ty, ty ∈ elements s ↔ ty ∈ s)
    by (intros s ty; apply elem_of_elements).
  assert (H2 : ("xsd/sub", ["c.xsd"; "bad.xsd"]) ∈ DirectorySamples.walk)
    by (apply (elem_of_computed _ 1); reflexivity).
  assert (H3 : "c.xsd" ∈ ["c.xsd"; "bad.xsd"])
    by (apply (elem_of_computed _ 0); reflexivity).
  assert (H4 : Py.endswith (DirectorySamples.lower "c.xsd") ".xsd" = true) by reflexivity.
  assert (H5 : DirectorySamples.parse "xsd/sub/c.xsd" = Some doc ∧
               resolve_xs_prefix (nsmap doc) = Some "xs" ∧
               no_injection "xs" (XsdParse.root doc) ∧
               reached_name "xs" (XsdParse.root doc) "O'Brien" ∧
               Py.has_apostrophe "O'Brien" = true).
  { split; [reflexivity|]. split; [reflexivity|].
    split; [apply no_injection_computed; vm_compute; reflexivity|].
    split; [|reflexivity]. exists [0]. split.
    - apply reach_target. apply (elem_of_computed _ 0). vm_compute. reflexivity.
    - exists [0; 0; 1]. split; [|split]; [|vm_compute; reflexivity..].
      apply (elem_of_computed _ 1). vm_compute. reflexivity. }
  do 4 (split; [assumption|]). split; [assumption|].
  exact (failing_file_is_logged elements ParseSamples.selects_all DirectorySamples.lower
           DirectorySamples.join DirectorySamples.relpath DirectorySamples.dirname
           DirectorySamples.parse "xsd" "out" DirectorySamples.walk
           "xsd/sub" ["c.xsd"; "bad.xsd"] "c.xsd" H1 H2 H3 H4
           (or_intror (ex_intro _ doc (ex_intro _ "xs" (ex_intro _ "O'Brien" H5))))).
Defined.

Lemma directory_outputs_keep_structure_witness :
  ∃ tr t, DirectorySamples.run ParseSamples.selects_all = Some tr ∧ WriteTree "out/a.xsd" t ∈ tr ∧
    ∃ root files file doc, (root, files) ∈ DirectorySamples.walk ∧ file ∈ files ∧
      DirectorySamples.parse (DirectorySamples.join root file) = Some doc ∧
      "out/a.xsd" =
        DirectorySamples.join "out"
          (DirectorySamples.relpath (DirectorySamples.join root file) "xsd") ∧
      only_types_rewritten (XsdParse.root doc) t.
Proof.
  assert (H1 : ∃ tr, DirectorySamples.run ParseSamples.selects_all = Some tr) by (vm_compute; eexists; reflexivity).
  destruct H1 as [tr H1].
  assert (H2 : ∃ t, WriteTree "out/a.xsd" t ∈ tr).
  { revert H1. vm_compute. intros [= <-]. eexists.
    apply (elem_of_computed _ 3). reflexivity. }
  destruct H2 as [t H2]. exists tr, t. do 2 (split; [assumption|]).
  exact (directory_outputs_keep_structure elements ParseSamples.selects_all
           DirectorySamples.lower
           DirectorySamples.join DirectorySamples.relpath DirectorySamples.dirname
           DirectorySamples.parse "xsd" "out" DirectorySamples.walk tr "out/a.xsd" t
           H1 H2).
Defined.

End DirectoryExtras.
